(** * Manga renamer: ordering and renaming engine

    A shallow embedding of the core modules of the repository,
    [core/sequence_detector.py], [core/vlm_analyzer.py],
    [core/renamer.py] and [core/image_scanner.py], together with the
    properties their specification states about them.

    Python values are modelled as follows.
    - [str] is [string], read as a sequence of code points below 256:
      one character of the model is one code point of the Python
      string.  Names with other characters are outside the model; where
      a property depends on what kind of character it meets (a digit, a
      letter), it is stated for ASCII strings, see [PyStr.is_ascii].
    - [int] is [Z]; [None]-or-value is [option].
    - a [dict] is a [gmap], a [set] a [gset].
    - a [pathlib.Path] is the list of its [parts] (POSIX flavour).
    - code that touches the outside world (the file system, the vision
      model) threads an explicit state. *)

From stdpp Require Import gmap strings list sorting pretty.
From Stdlib Require Import ZArith Lia Ascii.

Local Open Scope string_scope.
Local Open Scope Z_scope.
Local Open Scope list_scope.

(** ** Python strings *)

Module PyStr.

(** [s.rfind(c)]: index of the last occurrence, [None] for [-1]. *)
Fixpoint rfind (c : ascii) (s : string) : option nat :=
  match s with
  | EmptyString => None
  | String a s' =>
      match rfind c s' with
      | Some i => Some (S i)
      | None => if decide (a = c) then Some 0%nat else None
      end
  end.

(** [s[i:]] and [s[:i]]. *)
Definition drop (i : nat) (s : string) : string :=
  String.substring i (String.length s - i) s.
Definition take (i : nat) (s : string) : string :=
  String.substring 0 i s.

(** [s.startswith(p)]. *)
Fixpoint startswith (p s : string) : bool :=
  match p, s with
  | EmptyString, _ => true
  | String a p', String b s' => bool_decide (a = b) && startswith p' s'
  | String _ _, EmptyString => false
  end.

(** [p in s] for strings. *)
Fixpoint contains (p s : string) : bool :=
  startswith p s ||
  match s with
  | EmptyString => false
  | String _ s' => contains p s'
  end.

(** [sep.join(l)]. *)
Fixpoint join (sep : string) (l : list string) : string :=
  match l with
  | [] => ""
  | [x] => x
  | x :: l' => x +:+ sep +:+ join sep l'
  end.

(** [s.split(sep)] for a one-character separator. *)
Fixpoint split_go (sep : ascii) (cur : string) (s : string) : list string :=
  match s with
  | EmptyString => [String.rev cur]
  | String a s' =>
      if decide (a = sep) then String.rev cur :: split_go sep "" s'
      else split_go sep (String a cur) s'
  end.
Definition split (sep : ascii) (s : string) : list string := split_go sep "" s.

(** ["0" * n]. *)
Fixpoint zeros (n : nat) : string :=
  match n with
  | O => ""
  | S n' => String "0" (zeros n')
  end.

(** [s.zfill(width)]: pad with zeros on the left up to [width]
    characters; a leading sign stays in front of the padding. *)
Definition zfill (width : Z) (s : string) : string :=
  let len := Z.of_nat (String.length s) in
  if decide (width <= len) then s
  else
    let pad := zeros (Z.to_nat (width - len)) in
    match s with
    | String c rest =>
        if decide (c = "+"%char \/ c = "-"%char) then String c (pad +:+ rest)
        else pad +:+ s
    | EmptyString => pad
    end.

(** [str.isspace] on code points below 256. *)
Definition is_space (c : ascii) : bool :=
  let n := N_of_ascii c in
  bool_decide (n ∈ [9; 10; 11; 12; 13; 28; 29; 30; 31; 32; 133; 160]%N).

(** [s.lstrip()] and [s.strip()]. *)
Fixpoint lstrip (s : string) : string :=
  match s with
  | EmptyString => ""
  | String a s' => if is_space a then lstrip s' else s
  end.
Definition strip (s : string) : string :=
  String.rev (lstrip (String.rev (lstrip s))).

(** [str(n)] for an [int]. *)
Definition of_int (n : Z) : string := pretty n.

(** The decimal digits, as [\d] and [int] see them on code points below
    256: there, [0] to [9] are the only characters of the class Nd.
    (The superscripts [²], [³] and [¹] are no decimal digits.) *)
Definition digit_value (c : ascii) : option Z :=
  let n := Z.of_N (N_of_ascii c) in
  if decide (48 <= n <= 57) then Some (n - 48) else None.

Definition is_digit (c : ascii) : bool :=
  match digit_value c with Some _ => true | None => false end.

(** The longest prefix of digits. *)
Fixpoint take_digits (s : string) : string :=
  match s with
  | EmptyString => ""
  | String a s' => if is_digit a then String a (take_digits s') else ""
  end.

(** [re.search(r'\d+', s)]: the leftmost, longest run of digits, as
    [match.group()]; [None] when [s] has no digit. *)
Fixpoint search_digits (s : string) : option string :=
  match s with
  | EmptyString => None
  | String a s' =>
      if is_digit a then Some (String a (take_digits s'))
      else search_digits s'
  end.

(** [int(s)] on a run of digits. *)
Fixpoint int_go (acc : Z) (s : string) : Z :=
  match s with
  | EmptyString => acc
  | String a s' =>
      match digit_value a with
      | Some d => int_go (10 * acc + d) s'
      | None => acc
      end
  end.
Definition int_of_digits (s : string) : Z := int_go 0 s.

(** [s.lower()] on code points below 256: the letters [A] to [Z]
    and the capital letters of Latin-1 have a lower-case form, 32
    places further on. *)
Definition lower_char (c : ascii) : ascii :=
  let n := N_of_ascii c in
  if decide ((65 ≤ n ≤ 90)%N ∨ ((192 ≤ n ≤ 222)%N ∧ n ≠ 215%N))
  then ascii_of_N (n + 32)
  else c.
Fixpoint lower (s : string) : string :=
  match s with
  | EmptyString => ""
  | String a s' => String (lower_char a) (lower s')
  end.

(** [s1 < s2]: code point by code point, a proper prefix first. *)
Definition lt (s1 s2 : string) : bool := String.ltb s1 s2.

(** [repr(s)] on code points below 256: the quotes are double only
    when [s] holds a single quote and no double one; the quote, the
    backslash and what cannot be printed are escaped. *)
Definition double_quote : ascii := ascii_of_N 34.
Definition backslash : ascii := ascii_of_N 92.

Definition hex_digit (n : N) : ascii :=
  if decide (n < 10)%N then ascii_of_N (48 + n) else ascii_of_N (87 + n).

Definition is_printable (c : ascii) : bool :=
  let n := N_of_ascii c in
  bool_decide ((32 ≤ n ≤ 126)%N ∨ ((161 ≤ n)%N ∧ n ≠ 173%N)).

Definition repr_char (quote c : ascii) : string :=
  let n := N_of_ascii c in
  if decide (c = quote ∨ c = backslash) then String backslash (String c "")
  else if decide (n = 9%N) then String backslash "t"
  else if decide (n = 10%N) then String backslash "n"
  else if decide (n = 13%N) then String backslash "r"
  else if is_printable c then String c ""
  else String backslash
         (String "x" (String (hex_digit (n `div` 16)) (String (hex_digit (n `mod` 16)) ""))).

Fixpoint repr_body (quote : ascii) (s : string) : string :=
  match s with
  | EmptyString => ""
  | String c s' => repr_char quote c +:+ repr_body quote s'
  end.

Definition repr (s : string) : string :=
  let quote :=
    if contains "'" s && negb (contains (String double_quote "") s)
    then double_quote else "'"%char in
  String quote (repr_body quote s +:+ String quote "").

(** [s.isascii()] *)
Fixpoint isascii (s : string) : bool :=
  match s with
  | EmptyString => true
  | String a s' => bool_decide (N_of_ascii a < 128)%N && isascii s'
  end.

(** *** What a string is made of *)

(** Every character of [s] is an ASCII character. *)
Definition is_ascii (s : string) : Prop := isascii s = true.

(** [c not in s] *)
Definition lacks (c : ascii) (s : string) : Prop := contains (String c "") s = false.

(** [s] is a run of digits; [s] holds no digit. *)
Definition all_digits (s : string) : Prop := take_digits s = s.
Definition no_digit (s : string) : Prop := search_digits s = None.

End PyStr.

(** ** pathlib

    A pure POSIX path is determined by its [parts]: the components, with
    the root ["/"] (or ["//"]) as first part of an absolute path.  The
    model follows CPython 3.8 to 3.12. *)

Module PathLib.

Definition Path : Type := list string.

Definition is_root (c : string) : bool :=
  bool_decide (c = "/") || bool_decide (c = "//").

Definition is_absolute (p : Path) : bool :=
  match p with
  | c :: _ => is_root c
  | [] => false
  end.

(** The root a string starts with: exactly two leading slashes are
    kept, any other number of them collapses to one. *)
Definition root_of (s : string) : list string :=
  if PyStr.startswith "///" s then ["/"]
  else if PyStr.startswith "//" s then ["//"]
  else if PyStr.startswith "/" s then ["/"]
  else [].

(** [Path(s)]. *)
Definition of_str (s : string) : Path :=
  root_of s ++
  filter (λ c, c ≠ "" ∧ c ≠ ".") (PyStr.split "/" s).

(** [str(p)]. *)
Definition to_str (p : Path) : string :=
  match p with
  | [] => "."
  | c :: rest =>
      if is_root c then c +:+ PyStr.join "/" rest
      else PyStr.join "/" p
  end.

(** [p.name]: the last component, empty for a bare root or for ["."]. *)
Definition name (p : Path) : string :=
  match last p with
  | Some c => if (is_root c && bool_decide (length p = 1%nat)) then "" else c
  | None => ""
  end.

(** [p.parent]. *)
Definition parent (p : Path) : Path :=
  match p with
  | [] => []
  | [c] => if is_root c then p else []
  | _ => removelast p
  end.

(** [p.suffix]: from the last dot of the name, provided that dot is
    neither the first nor the last character. *)
Definition suffix (p : Path) : string :=
  let n := name p in
  match PyStr.rfind "." n with
  | Some i =>
      if decide (0 < i ∧ i < String.length n - 1)%nat then PyStr.drop i n
      else ""
  | None => ""
  end.

(** [p.stem]: the name without its suffix. *)
Definition stem (p : Path) : string :=
  let n := name p in
  match PyStr.rfind "." n with
  | Some i =>
      if decide (0 < i ∧ i < String.length n - 1)%nat then PyStr.take i n
      else n
  | None => n
  end.

(** [p / s]: an absolute right operand replaces the left one. *)
Definition joinpath (p : Path) (s : string) : Path :=
  let q := of_str s in
  if is_absolute q then q else p ++ q.

(** The shape of a suffix: empty, or a dot followed by at least one
    character and no further dot. *)
Definition extension_like (ext : string) : Prop :=
  ext = "" ∨ ∃ e, ext = String "." e ∧ e ≠ "" ∧ PyStr.lacks "." e.

End PathLib.

Import PathLib.
Notation "p // s" := (joinpath p s) (at level 40, left associativity).

(** ** core/sequence_detector.py *)

Module SequenceDetector.

(** What [validate_sequence] returns. *)
Record SequenceReport : Type := mkReport {
  is_valid : bool;
  missing_numbers : list Z;
  duplicate_numbers : gmap Z (list string);
  total_files : nat;
  min_number : option Z;
  max_number : option Z
}.

(** An element of what [extract_numbers] returns. *)
Record extracted : Type := mkExtracted {
  item_path : Path;
  item_number : option Z;
  item_name : string
}.

(** An element of what [suggest_renaming] returns. *)
Record suggestion : Type := mkSuggestion {
  old_path : Path;
  old_name : string;
  suggested_number : Z;
  suggested_name : string
}.

(** [range(a, b)]. *)
Definition range (a b : Z) : list Z := seqZ a (b - a).

(** [sorted(s)] for a set of integers, and [l.sort()] for a list. *)
Definition sorted_set (s : gset Z) : list Z := merge_sort Z.le (elements s).
Definition sort (l : list Z) : list Z := merge_sort Z.le l.

(** [min(l)] and [max(l)]; [None] stands for the [ValueError] on an
    empty list. *)
Definition py_min (l : list Z) : option Z :=
  match l with
  | [] => None
  | x :: l' => Some (foldl Z.min x l')
  end.
Definition py_max (l : list Z) : option Z :=
  match l with
  | [] => None
  | x :: l' => Some (foldl Z.max x l')
  end.

Section Detector.

(** The detector is configured by [self.pattern].  [number_in s] is
    [int(match.group())] for [match = re.search(self.pattern, s)],
    and [None] when there is no match. *)
Variable number_in : string → option Z.

(** The loop shared by every method:
    [for file_path in file_paths: match = ...; if match: numbers.append(...)]. *)
Definition collect_numbers (file_paths : list Path) : list Z :=
  omap (λ p, number_in (stem p)) file_paths.

Definition detect_missing (file_paths : list Path) : list Z :=
  let numbers := collect_numbers file_paths in
  match numbers with
  | [] => []
  | _ :: _ =>
      let numbers := sort numbers in
      match py_min numbers, py_max numbers with
      | Some lo, Some hi =>
          let expected : gset Z := list_to_set (range lo (hi + 1)) in
          let actual : gset Z := list_to_set numbers in
          sorted_set (expected ∖ actual)
      | _, _ => []
      end
  end.

(** One step of the grouping loop of [detect_duplicates]. *)
Definition add_file (number_files : gmap Z (list string)) (p : Path)
    : gmap Z (list string) :=
  match number_in (stem p) with
  | Some number =>
      let number_files :=
        match number_files !! number with
        | None => <[number := []]> number_files
        | Some _ => number_files
        end in
      <[number := default [] (number_files !! number) ++ [name p]]> number_files
  | None => number_files
  end.

Definition detect_duplicates (file_paths : list Path) : gmap Z (list string) :=
  let number_files := foldl add_file ∅ file_paths in
  filter (λ kv, (1 < length kv.2)%nat) number_files.

Definition validate_sequence (file_paths : list Path) : SequenceReport :=
  let missing := detect_missing file_paths in
  let duplicates := detect_duplicates file_paths in
  let numbers := collect_numbers file_paths in
  {| is_valid := bool_decide (length missing = 0%nat) && bool_decide (size duplicates = 0%nat);
     missing_numbers := missing;
     duplicate_numbers := duplicates;
     total_files := length file_paths;
     min_number := py_min numbers;
     max_number := py_max numbers |}.

(** The [for i in range(len(numbers) - 1)] loop of [get_sequence_gaps]. *)
Fixpoint adjacent_gaps (numbers : list Z) : list (Z * Z) :=
  match numbers with
  | a :: (b :: _) as rest =>
      if decide (b - a > 1) then (a, b) :: adjacent_gaps rest
      else adjacent_gaps rest
  | _ => []
  end.

Definition get_sequence_gaps (file_paths : list Path) : list (Z * Z) :=
  let numbers := collect_numbers file_paths in
  match numbers with
  | [] => []
  | _ :: _ => adjacent_gaps (sort numbers)
  end.

(** *** What the report is measured against *)

(** The names of the files that carry number [n], in input order. *)
Definition names_for (n : Z) (file_paths : list Path) : list string :=
  name <$> filter (λ p, number_in (stem p) = Some n) file_paths.

(** [extract_numbers]: one entry per file, with [item_number = None]
    where the pattern does not match. *)
Definition extract_numbers (file_paths : list Path) : list extracted :=
  (λ file_path,
     {| item_path := file_path;
        item_number := number_in (stem file_path);
        item_name := name file_path |}) <$> file_paths.

End Detector.

(** [suggest_renaming], the loop
    [for idx, file_path in enumerate(file_paths, start=start_number)]. *)
Fixpoint suggest_renaming (file_paths : list Path) (idx : Z) : list suggestion :=
  match file_paths with
  | [] => []
  | file_path :: rest =>
      {| old_path := file_path;
         old_name := name file_path;
         suggested_number := idx;
         suggested_name := PyStr.zfill 3 (PyStr.of_int idx) +:+ suffix file_path |}
      :: suggest_renaming rest (idx + 1)
  end.

(** [lo] is the least element of [l]. *)
Definition is_min (lo : Z) (l : list Z) : Prop := lo ∈ l ∧ ∀ y, y ∈ l → lo ≤ y.
Definition is_max (hi : Z) (l : list Z) : Prop := hi ∈ l ∧ ∀ y, y ∈ l → y ≤ hi.

(** The integers of [lo..hi] that no file carries, ascending. *)
Definition absent_between (lo hi : Z) (numbers : list Z) : list Z :=
  filter (λ k, k ∉ numbers) (seqZ lo (hi - lo + 1)).

(** The numbers as a set, listed in ascending order. *)
Definition distinct_sorted (numbers : list Z) : list Z :=
  sorted_set (list_to_set numbers).

(** Gaps as the specification words them: the pairs of neighbours
    [(a, b)] of the distinct sorted numbers with [b - a > 1]. *)
Definition gaps_of_distinct (numbers : list Z) : list (Z * Z) :=
  let d := distinct_sorted numbers in
  filter (λ ab, ab.2 - ab.1 > 1) (zip d (tail d)).

(** Drop every element that equals its right neighbour. *)
Fixpoint squash (l : list Z) : list Z :=
  match l with
  | a :: (b :: _) as rest => if decide (a = b) then squash rest else a :: squash rest
  | _ => l
  end.

(** The default configuration, [pattern = r'\d+'], on names of code
    points below 256, where [0] to [9] are the only decimal digits. *)
Definition default_number_in (s : string) : option Z :=
  PyStr.int_of_digits <$> PyStr.search_digits s.

(** A scan with page 3 missing, and one whose names carry no number. *)
Definition scan_1245 : list Path :=
  [of_str "/scan/page_001.jpg"; of_str "/scan/page_002.jpg";
   of_str "/scan/page_004.jpg"; of_str "/scan/page_005.jpg"].
Definition scan_unnumbered : list Path :=
  [of_str "/scan/cover.jpg"; of_str "/scan/back.png"].

End SequenceDetector.

(** ** core/renamer.py *)

Module Renamer.

(** A Python call either returns a value or raises. *)
Inductive outcome (A : Type) : Type :=
  | Returned (a : A)
  | Raised (msg : string).
Global Arguments Returned {A} a.
Global Arguments Raised {A} msg.

(** The file-system calls the renamer makes.  A call that fails
    raises, which is modelled by [inr] of the message [str(e)]; the
    state is then left as it was. *)
Class FileSystem (FS : Type) : Type := {
  (** [p.exists()] *)
  fs_exists : FS → Path → bool;
  (** [src.rename(dst)] *)
  fs_rename : FS → Path → Path → FS + string;
  (** [p.mkdir(parents=True, exist_ok=True)] *)
  fs_mkdir : FS → Path → FS + string;
  (** [shutil.copy2(src, dst)] *)
  fs_copy2 : FS → Path → Path → FS + string
}.

(** An element of [temp_renames]. *)
Record rename_info : Type := mkInfo {
  original_path : Path;
  final_path : Path;
  info_number : Z
}.

(** An element of the returned [rename_log]; [error = None] stands
    for a dictionary without the ['error'] key. *)
Record log_entry : Type := mkEntry {
  original : string;
  new : string;
  number : Z;
  success : bool;
  error : option string
}.

Definition set_success (e : log_entry) : log_entry :=
  {| original := original e; new := new e; number := number e;
     success := true; error := error e |}.
Definition set_error (msg : string) (e : log_entry) : log_entry :=
  {| original := original e; new := new e; number := number e;
     success := success e; error := Some msg |}.

(** [f"{prefix}{str(idx).zfill(digits)}{extension}"] *)
Definition new_name (prefix : string) (digits idx : Z) (file_path : Path) : string :=
  prefix +:+ PyStr.zfill digits (PyStr.of_int idx) +:+ suffix file_path.

(** The planning loop,
    [for idx, file_path in enumerate(file_paths, start=start_number)]. *)
Fixpoint plan_renames (target_dir : Path) (prefix : string) (digits idx : Z)
    (file_paths : list Path) : list rename_info :=
  match file_paths with
  | [] => []
  | file_path :: rest =>
      {| original_path := file_path;
         final_path := target_dir // new_name prefix digits idx file_path;
         info_number := idx |}
      :: plan_renames target_dir prefix digits (idx + 1) rest
  end.

(** [target_dir] as decided at the top of [rename_files]. *)
Definition resolve_target_dir (target_dir : option string) (file_paths : list Path) : Path :=
  match target_dir with
  | None => parent (default [] (head file_paths))
  | Some d => of_str d
  end.

Section WithFileSystem.
Context {FS : Type} `{!FileSystem FS}.

(** The body of the [try] of the execution loop: the state it
    leaves, and the message of the exception it raised, if any. *)
Definition try_rename (fs : FS) (info : rename_info) : FS * option string :=
  let original_path := original_path info in
  let final_path := final_path info in
  if decide (original_path = final_path) then (fs, None)
  else if fs_exists fs final_path then
    let temp_path := parent final_path // (".tmp_" +:+ name final_path) in
    match fs_rename fs original_path temp_path with
    | inr e => (fs, Some e)
    | inl fs1 =>
        match fs_rename fs1 temp_path final_path with
        | inr e => (fs1, Some e)
        | inl fs2 => (fs2, None)
        end
    end
  else
    match fs_rename fs original_path final_path with
    | inr e => (fs, Some e)
    | inl fs1 => (fs1, None)
    end.

(** A call of [rename] made for the item [info] raises [msg]: the
    call of the direct rename, or either call of the rename by way of
    the temporary name.  [fs'] is the state in which the exception is
    caught. *)
Definition rename_raises (fs : FS) (info : rename_info) (msg : string) (fs' : FS) : Prop :=
  let original_path := original_path info in
  let final_path := final_path info in
  let temp_path := parent final_path // (".tmp_" +:+ name final_path) in
  original_path ≠ final_path ∧
  if fs_exists fs final_path then
    (fs_rename fs original_path temp_path = inr msg ∧ fs' = fs) ∨
    (∃ fs1, fs_rename fs original_path temp_path = inl fs1 ∧
            fs_rename fs1 temp_path final_path = inr msg ∧ fs' = fs1)
  else fs_rename fs original_path final_path = inr msg ∧ fs' = fs.

(** The entry logged for an item that failed with [msg]. *)
Definition failure_entry (info : rename_info) (msg : string) : log_entry :=
  {| original := to_str (original_path info);
     new := to_str (final_path info);
     number := info_number info;
     success := false;
     error := Some msg |}.

(** One iteration of the execution loop. *)
Definition rename_one (dry_run : bool) (fs : FS) (info : rename_info) : FS * log_entry :=
  let log_entry :=
    {| original := to_str (original_path info);
       new := to_str (final_path info);
       number := info_number info;
       success := false;
       error := None |} in
  if dry_run then (fs, set_success log_entry)
  else
    match try_rename fs info with
    | (fs', None) => (fs', set_success log_entry)
    | (fs', Some e) => (fs', set_error e log_entry)
    end.

(** The execution loop, [for rename_info in temp_renames]. *)
Fixpoint run_renames (dry_run : bool) (fs : FS) (temp_renames : list rename_info)
    : FS * list log_entry :=
  match temp_renames with
  | [] => (fs, [])
  | info :: rest =>
      let '(fs1, log_entry) := rename_one dry_run fs info in
      let '(fs2, rename_log) := run_renames dry_run fs1 rest in
      (fs2, log_entry :: rename_log)
  end.

(** The copy loop of [_create_backup]: a failed copy is logged and
    skipped. *)
Fixpoint backup_files (fs : FS) (backup_dir : Path) (file_paths : list Path) : FS :=
  match file_paths with
  | [] => fs
  | file_path :: rest =>
      let backup_path := backup_dir // name file_path in
      match fs_copy2 fs file_path backup_path with
      | inl fs1 => backup_files fs1 backup_dir rest
      | inr _ => backup_files fs backup_dir rest
      end
  end.

(** [_create_backup]; [timestamp] is
    [datetime.now().strftime('%Y%m%d_%H%M%S')].  A failing [mkdir]
    is not caught. *)
Definition _create_backup (timestamp : string) (fs : FS)
    (file_paths : list Path) (target_dir : Path) : FS * outcome Path :=
  let backup_dir := target_dir // (".backup_" +:+ timestamp) in
  match fs_mkdir fs backup_dir with
  | inr e => (fs, Raised e)
  | inl fs1 => (backup_files fs1 backup_dir file_paths, Returned backup_dir)
  end.

Definition rename_files (dry_run : bool) (timestamp : string) (fs : FS)
    (file_paths : list Path) (target_dir : option string) (prefix : string)
    (digits start_number : Z) (backup : bool) : FS * outcome (list log_entry) :=
  match file_paths with
  | [] => (fs, Returned [])
  | _ :: _ =>
      let target_dir := resolve_target_dir target_dir file_paths in
      let after_backup :=
        if backup && negb dry_run
        then _create_backup timestamp fs file_paths target_dir
        else (fs, Returned target_dir) in
      match after_backup with
      | (fs1, Raised e) => (fs1, Raised e)
      | (fs1, Returned _) =>
          let temp_renames :=
            plan_renames target_dir prefix digits start_number file_paths in
          let '(fs2, rename_log) := run_renames dry_run fs1 temp_renames in
          (fs2, Returned rename_log)
      end
  end.

(** The state in which the execution loop starts. *)
Definition state_after_backup (dry_run : bool) (timestamp : string) (fs : FS)
    (file_paths : list Path) (target_dir : Path) (backup : bool) : FS :=
  if backup && negb dry_run
  then (_create_backup timestamp fs file_paths target_dir).1
  else fs.

(** [rename_by_order]: the paths come as strings, and the numbering
    starts at the default [start_number] of [rename_files]. *)
Definition rename_by_order (dry_run : bool) (timestamp : string) (fs : FS)
    (ordered_paths : list string) (target_dir : option string) (prefix : string)
    (digits : Z) (backup : bool) : FS * outcome (list log_entry) :=
  let path_objects := of_str <$> ordered_paths in
  rename_files dry_run timestamp fs path_objects target_dir prefix digits 1 backup.

End WithFileSystem.

(** What one log entry owes to its plan entry, whatever happened on
    the disk. *)
Definition records (info : rename_info) (e : log_entry) : Prop :=
  original e = to_str (original_path info) ∧
  new e = to_str (final_path info) ∧
  number e = info_number info ∧
  (is_Some (error e) ↔ success e = false).

(** *** A directory tree to run the renamer on

    A disk holds regular files only, each path mapped to its bytes.
    Directories are not part of it: every directory a call needs is
    taken to be there and to be writable, and no path names a
    directory.  The messages are [str(e)] of the [OSError] raised,
    which quotes the paths with [repr]. *)

Definition disk : Type := gmap Path string.

Definition disk_exists (d : disk) (p : Path) : bool := bool_decide (is_Some (d !! p)).

(** POSIX [rename(2)]: an existing destination file is replaced. *)
Definition posix_rename (d : disk) (src dst : Path) : disk + string :=
  match d !! src with
  | None => inr ("[Errno 2] No such file or directory: "
                 +:+ PyStr.repr (to_str src) +:+ " -> " +:+ PyStr.repr (to_str dst))
  | Some bytes => inl (<[dst := bytes]> (delete src d))
  end.

(** Windows [MoveFile]: an existing destination is an error. *)
Definition windows_rename (d : disk) (src dst : Path) : disk + string :=
  match d !! src with
  | None => inr ("[WinError 2] The system cannot find the file specified: " +:+ to_str src)
  | Some bytes =>
      if disk_exists d dst
      then inr ("[WinError 183] Cannot create a file when that file already exists: " +:+ to_str dst)
      else inl (<[dst := bytes]> (delete src d))
  end.

(** [mkdir] where the path is taken by a regular file. *)
Definition disk_mkdir (d : disk) (p : Path) : disk + string :=
  if disk_exists d p then inr ("[Errno 17] File exists: " +:+ PyStr.repr (to_str p))
  else inl d.

(** [shutil.copy2]: a file cannot be copied onto itself. *)
Definition disk_copy2 (d : disk) (src dst : Path) : disk + string :=
  match d !! src with
  | None => inr ("[Errno 2] No such file or directory: " +:+ PyStr.repr (to_str src))
  | Some bytes =>
      if decide (src = dst)
      then inr ("PosixPath(" +:+ PyStr.repr (to_str src) +:+ ") and PosixPath("
                +:+ PyStr.repr (to_str dst) +:+ ") are the same file")
      else inl (<[dst := bytes]> d)
  end.

Definition posix_fs : FileSystem disk :=
  {| fs_exists := disk_exists; fs_rename := posix_rename;
     fs_mkdir := disk_mkdir; fs_copy2 := disk_copy2 |}.

Definition windows_fs : FileSystem disk :=
  {| fs_exists := disk_exists; fs_rename := windows_rename;
     fs_mkdir := disk_mkdir; fs_copy2 := disk_copy2 |}.

(** *** What a batch asks of the file system

    A file system on a disk lets files be renamed to the names [names]
    when [exists] tells whether a file is there under one of them, and
    [rename] moves a file to one of them that is free.  It lets files
    be copied to them when [copy2] writes the bytes of a file under one
    of them, and raises for what is no file.  This is what a directory
    that is there and can be written offers for the names in it that
    are no directories. *)
Definition renames_to (I : FileSystem disk) (names : list Path) : Prop :=
  (∀ (d : disk) p, p ∈ names → fs_exists d p = disk_exists d p) ∧
  (∀ (d : disk) src dst bytes,
     dst ∈ names → d !! src = Some bytes → d !! dst = None →
     fs_rename d src dst = inl (<[dst := bytes]> (delete src d))).

Definition copies_to (I : FileSystem disk) (names : list Path) : Prop :=
  ∀ (d : disk) src dst,
    dst ∈ names → src ≠ dst →
    match d !! src with
    | Some bytes => fs_copy2 d src dst = inl (<[dst := bytes]> d)
    | None => ∃ msg, fs_copy2 d src dst = inr msg
    end.

(** *** A three-cycle of names

    Three pages whose planned names are each held by another page of
    the batch: [003.jpg] is to become [001.jpg], [001.jpg] is to
    become [002.jpg] and [002.jpg] is to become [003.jpg]. *)

Definition cycle_files : list Path :=
  [of_str "/m/003.jpg"; of_str "/m/001.jpg"; of_str "/m/002.jpg"].

Definition cycle_disk : disk :=
  <[of_str "/m/003.jpg" := "X"]>
    (<[of_str "/m/001.jpg" := "Y"]>
       (<[of_str "/m/002.jpg" := "Z"]> ∅)).

(** What the specification asks of a batch: the bytes each file had
    under its original name are found under its planned name. *)
Definition contents_follow_plan (before after : disk) (plan : list rename_info) : Prop :=
  Forall (λ info, is_Some (before !! original_path info) ∧
                  after !! final_path info = before !! original_path info) plan.

(** A batch whose first file is not on the disk. *)
Definition lonely_disk : disk := {[ of_str "/m/b.png" := "B" ]}.

(** A directory in which the name of the backup directory is taken by
    a regular file. *)
Definition blocked_disk : disk := <[of_str "/m/.backup_t" := "junk"]> cycle_disk.

(** *** Batches without collisions *)

(** A prefix of ASCII characters that holds no slash, no dot and no
    digit. *)
Definition plain_prefix (prefix : string) : Prop :=
  PyStr.is_ascii prefix ∧
  PyStr.lacks "/" prefix ∧ PyStr.lacks "." prefix ∧ PyStr.no_digit prefix.

(** Three pages whose planned names are all free. *)
Definition shelf_disk : disk :=
  <[of_str "/m/b.png" := "B"]>
    (<[of_str "/m/a.png" := "A"]>
       (<[of_str "/m/c.jpg" := "C"]> ∅)).
Definition shelf_order : list string := ["/m/c.jpg"; "/m/a.png"; "/m/b.png"].

End Renamer.

(** ** The built-in [sorted]

    [sorted(l, key=cmp_to_key(f))] copies [l] and sorts the copy with
    [list.sort], which looks at its elements through [x < y] alone;
    for keys made by [cmp_to_key(f)] that is [f(x, y) < 0].  The model
    follows [Objects/listobject.c] of CPython 3.11: natural runs,
    binary insertion up to [minrun], the powersort merge policy and
    merges with galloping.  Comparisons go through a state, so that a
    comparator with effects, or one that contradicts itself, can be
    plugged in. *)

Module ListSort.

Section ListSort.
Context {A S : Type}.

(** [ISLT(x, y)] *)
Variable lt : A → A → S → S * bool.

Definition MIN_GALLOP : Z := 7.

(** *** [count_run] *)

Fixpoint descending_tail (prev : A) (l : list A) (s : S) : S * nat :=
  match l with
  | [] => (s, 0%nat)
  | x :: l' =>
      let '(s, b) := lt x prev s in
      if b then let '(s, n) := descending_tail x l' s in (s, Datatypes.S n)
      else (s, 0%nat)
  end.

Fixpoint ascending_tail (prev : A) (l : list A) (s : S) : S * nat :=
  match l with
  | [] => (s, 0%nat)
  | x :: l' =>
      let '(s, b) := lt x prev s in
      if b then (s, 0%nat)
      else let '(s, n) := ascending_tail x l' s in (s, Datatypes.S n)
  end.

(** The length of the run at the head of [l], and whether it is
    strictly descending. *)
Definition count_run (l : list A) (s : S) : S * (nat * bool) :=
  match l with
  | [] => (s, (0%nat, false))
  | [_] => (s, (1%nat, false))
  | x0 :: x1 :: tl =>
      let '(s, b) := lt x1 x0 s in
      if b then
        let '(s, n) := descending_tail x1 tl s in (s, (2 + n, true)%nat)
      else
        let '(s, n) := ascending_tail x1 tl s in (s, (2 + n, false)%nat)
  end.

(** *** [binarysort] *)

(** The [do ... while (l < r)] loop that finds where [pivot] goes
    in the sorted prefix. *)
Fixpoint bisect (fuel : nat) (pivot : A) (sorted : list A) (l r : nat) (s : S)
    : S * nat :=
  match fuel with
  | O => (s, l)
  | Datatypes.S fuel =>
      let p := (l + (r - l) / 2)%nat in
      match sorted !! p with
      | None => (s, l)
      | Some x =>
          let '(s, b) := lt pivot x s in
          let l' := if b then l else Datatypes.S p in
          let r' := if b then p else r in
          if decide (l' < r')%nat then bisect fuel pivot sorted l' r' s
          else (s, l')
      end
  end.

(** [sorted] holds the elements from [lo] up to [start], [rest]
    those from [start] up to [hi]. *)
Fixpoint binarysort (sorted rest : list A) (s : S) : S * list A :=
  match rest with
  | [] => (s, sorted)
  | pivot :: rest' =>
      match sorted with
      | [] => binarysort [pivot] rest' s
      | _ :: _ =>
          let '(s, l) := bisect (length sorted) pivot sorted 0 (length sorted) s in
          binarysort (take l sorted ++ pivot :: drop l sorted) rest' s
      end
  end.

(** *** [merge_compute_minrun] *)

Fixpoint minrun_go (fuel : nat) (n r : nat) : nat :=
  match fuel with
  | O => (n + r)%nat
  | Datatypes.S fuel =>
      if decide (64 ≤ n)%nat
      then minrun_go fuel (n / 2)%nat (if decide (n mod 2 = 1)%nat then 1%nat else r)
      else (n + r)%nat
  end.
Definition merge_compute_minrun (n : nat) : nat := minrun_go n n 0.

(** *** Galloping *)

Definition item (a : list A) (i : Z) : option A :=
  if decide (0 ≤ i) then a !! Z.to_nat i else None.

(** [ISLT(a[i], key)] and [ISLT(key, a[i])] *)
Definition item_lt_key (key : A) (a : list A) (i : Z) (s : S) : S * bool :=
  match item a i with
  | Some x => lt x key s
  | None => (s, false)
  end.
Definition key_lt_item (key : A) (a : list A) (i : Z) (s : S) : S * bool :=
  match item a i with
  | Some x => lt key x s
  | None => (s, false)
  end.

(** The exponential search: offsets 1, 3, 7, ... as long as
    [onward ofs] holds and [ofs < maxofs]. *)
Fixpoint gallop_go (fuel : nat) (onward : Z → S → S * bool)
    (maxofs lastofs ofs : Z) (s : S) : S * (Z * Z) :=
  match fuel with
  | O => (s, (lastofs, ofs))
  | Datatypes.S fuel =>
      if decide (ofs < maxofs) then
        let '(s, go) := onward ofs s in
        if go then gallop_go fuel onward maxofs ofs (ofs * 2 + 1) s
        else (s, (lastofs, ofs))
      else (s, (lastofs, ofs))
  end.

(** The closing binary search; [right_of m] tells that the key
    belongs to the right of position [m]. *)
Fixpoint gallop_bisect (fuel : nat) (right_of : Z → S → S * bool)
    (lastofs ofs : Z) (s : S) : S * Z :=
  match fuel with
  | O => (s, ofs)
  | Datatypes.S fuel =>
      if decide (lastofs < ofs) then
        let m := lastofs + (ofs - lastofs) / 2 in
        let '(s, b) := right_of m s in
        if b then gallop_bisect fuel right_of (m + 1) ofs s
        else gallop_bisect fuel right_of lastofs m s
      else (s, ofs)
  end.

Definition negated (f : Z → S → S * bool) (i : Z) (s : S) : S * bool :=
  let '(s, b) := f i s in (s, negb b).

Definition clamp (maxofs ofs : Z) : Z := if decide (ofs > maxofs) then maxofs else ofs.

(** [gallop_left(key, a, n, hint)]: the position before which
    [key] goes, left of any equal elements. *)
Definition gallop_left (key : A) (a : list A) (hint : Z) (s : S) : S * Z :=
  let n := Z.of_nat (length a) in
  let fuel := Datatypes.S (length a) in
  let '(s, b) := item_lt_key key a hint s in
  let '(s, (lastofs, ofs)) :=
    if b then
      let maxofs := n - hint in
      let '(s, (lastofs, ofs)) :=
        gallop_go fuel (λ ofs, item_lt_key key a (hint + ofs)) maxofs 0 1 s in
      (s, (lastofs + hint, clamp maxofs ofs + hint))
    else
      let maxofs := hint + 1 in
      let '(s, (lastofs, ofs)) :=
        gallop_go fuel (negated (λ ofs, item_lt_key key a (hint - ofs))) maxofs 0 1 s in
      (s, (hint - clamp maxofs ofs, hint - lastofs)) in
  gallop_bisect fuel (item_lt_key key a) (lastofs + 1) ofs s.

(** [gallop_right(key, a, n, hint)]: the position before which
    [key] goes, right of any equal elements. *)
Definition gallop_right (key : A) (a : list A) (hint : Z) (s : S) : S * Z :=
  let n := Z.of_nat (length a) in
  let fuel := Datatypes.S (length a) in
  let '(s, b) := key_lt_item key a hint s in
  let '(s, (lastofs, ofs)) :=
    if b then
      let maxofs := hint + 1 in
      let '(s, (lastofs, ofs)) :=
        gallop_go fuel (λ ofs, key_lt_item key a (hint - ofs)) maxofs 0 1 s in
      (s, (hint - clamp maxofs ofs, hint - lastofs))
    else
      let maxofs := n - hint in
      let '(s, (lastofs, ofs)) :=
        gallop_go fuel (negated (λ ofs, key_lt_item key a (hint + ofs))) maxofs 0 1 s in
      (s, (lastofs + hint, clamp maxofs ofs + hint)) in
  gallop_bisect fuel (negated (key_lt_item key a)) (lastofs + 1) ofs s.

(** *** [merge_lo]

    [dest] is what has been merged so far, [a] and [b] what is left
    of the two runs.  The result carries the value left in
    [ms->min_gallop]. *)

Definition one_if (b : bool) : Z := if b then 1 else 0.

Fixpoint merge_lo_straight (fuel : nat) (dest a b : list A)
    (acount bcount min_gallop : Z) (s : S) {struct fuel} : S * (Z * list A) :=
  match fuel with
  | O => (s, (min_gallop, dest ++ a ++ b))
  | Datatypes.S fuel =>
      match a, b with
      | a0 :: a', b0 :: b' =>
          let '(s, k) := lt b0 a0 s in
          if k then
            let dest := dest ++ [b0] in
            match b' with
            | [] => (s, (min_gallop, dest ++ a))
            | _ :: _ =>
                if decide (bcount + 1 >= min_gallop)
                then merge_lo_gallop fuel dest a b' (min_gallop + 1) s
                else merge_lo_straight fuel dest a b' 0 (bcount + 1) min_gallop s
            end
          else
            let dest := dest ++ [a0] in
            match a' with
            | [_] => (s, (min_gallop, dest ++ b ++ a'))
            | _ =>
                if decide (acount + 1 >= min_gallop)
                then merge_lo_gallop fuel dest a' b (min_gallop + 1) s
                else merge_lo_straight fuel dest a' b (acount + 1) 0 min_gallop s
            end
      | _, _ => (s, (min_gallop, dest ++ a ++ b))
      end
  end
with merge_lo_gallop (fuel : nat) (dest a b : list A) (min_gallop : Z) (s : S)
    {struct fuel} : S * (Z * list A) :=
  match fuel with
  | O => (s, (min_gallop, dest ++ a ++ b))
  | Datatypes.S fuel =>
      let min_gallop := min_gallop - one_if (bool_decide (min_gallop > 1)) in
      match b with
      | [] => (s, (min_gallop, dest ++ a))
      | b0 :: b' =>
          let '(s, k) := gallop_right b0 a 0 s in
          let acount := k in
          let dest := dest ++ take (Z.to_nat k) a in
          let a := drop (Z.to_nat k) a in
          if bool_decide (k ≠ 0) && bool_decide (length a = 1%nat)
          then (s, (min_gallop, dest ++ b ++ a))
          else if bool_decide (k ≠ 0) && bool_decide (length a = 0%nat)
          then (s, (min_gallop, dest ++ a ++ b))
          else
            let dest := dest ++ [b0] in
            match b', a with
            | [], _ => (s, (min_gallop, dest ++ a))
            | _, [] => (s, (min_gallop, dest ++ b'))
            | _ :: _, a0 :: a' =>
                let '(s, k) := gallop_left a0 b' 0 s in
                let bcount := k in
                let dest := dest ++ take (Z.to_nat k) b' in
                let b := drop (Z.to_nat k) b' in
                if bool_decide (k ≠ 0) && bool_decide (length b = 0%nat)
                then (s, (min_gallop, dest ++ a ++ b))
                else
                  let dest := dest ++ [a0] in
                  if bool_decide (length a' = 1%nat)
                  then (s, (min_gallop, dest ++ b ++ a'))
                  else if bool_decide (acount >= MIN_GALLOP) || bool_decide (bcount >= MIN_GALLOP)
                  then merge_lo_gallop fuel dest a' b min_gallop s
                  else merge_lo_straight fuel dest a' b 0 0 (min_gallop + 1) s
            end
      end
  end.

Definition merge_lo (a b : list A) (min_gallop : Z) (s : S) : S * (Z * list A) :=
  match b with
  | [] => (s, (min_gallop, a))
  | b0 :: b' =>
      let dest := [b0] in
      match b' with
      | [] => (s, (min_gallop, dest ++ a))
      | _ :: _ =>
          if bool_decide (length a = 1%nat) then (s, (min_gallop, dest ++ b' ++ a))
          else merge_lo_straight (Datatypes.S (length a + length b)) dest a b' 0 0 min_gallop s
      end
  end.

(** *** [merge_hi]

    The mirror image: the merge is built from the right, [dest]
    holding its tail. *)

Definition unsnoc (l : list A) : option (list A * A) :=
  match last l with
  | Some x => Some (removelast l, x)
  | None => None
  end.

Fixpoint merge_hi_straight (fuel : nat) (a b dest : list A)
    (acount bcount min_gallop : Z) (s : S) {struct fuel} : S * (Z * list A) :=
  match fuel with
  | O => (s, (min_gallop, a ++ b ++ dest))
  | Datatypes.S fuel =>
      match unsnoc a, unsnoc b with
      | Some (a', a9), Some (b', b9) =>
          let '(s, k) := lt b9 a9 s in
          if k then
            let dest := a9 :: dest in
            match a' with
            | [] => (s, (min_gallop, b ++ dest))
            | _ :: _ =>
                if decide (acount + 1 >= min_gallop)
                then merge_hi_gallop fuel a' b dest (min_gallop + 1) s
                else merge_hi_straight fuel a' b dest (acount + 1) 0 min_gallop s
            end
          else
            let dest := b9 :: dest in
            match b' with
            | [_] => (s, (min_gallop, b' ++ a ++ dest))
            | _ =>
                if decide (bcount + 1 >= min_gallop)
                then merge_hi_gallop fuel a b' dest (min_gallop + 1) s
                else merge_hi_straight fuel a b' dest 0 (bcount + 1) min_gallop s
            end
      | _, _ => (s, (min_gallop, a ++ b ++ dest))
      end
  end
with merge_hi_gallop (fuel : nat) (a b dest : list A) (min_gallop : Z) (s : S)
    {struct fuel} : S * (Z * list A) :=
  match fuel with
  | O => (s, (min_gallop, a ++ b ++ dest))
  | Datatypes.S fuel =>
      let min_gallop := min_gallop - one_if (bool_decide (min_gallop > 1)) in
      match unsnoc b with
      | None => (s, (min_gallop, a ++ dest))
      | Some (b', b9) =>
          let na := Z.of_nat (length a) in
          let '(s, k) := gallop_right b9 a (na - 1) s in
          let acount := na - k in
          let dest := drop (Z.to_nat k) a ++ dest in
          let a := take (Z.to_nat k) a in
          if bool_decide (acount ≠ 0) && bool_decide (length a = 0%nat)
          then (s, (min_gallop, a ++ b ++ dest))
          else
            let dest := b9 :: dest in
            match b', unsnoc a with
            | [_], _ => (s, (min_gallop, b' ++ a ++ dest))
            | _, None => (s, (min_gallop, b' ++ dest))
            | _, Some (a', a9) =>
                let nb := Z.of_nat (length b') in
                let '(s, k) := gallop_left a9 b' (nb - 1) s in
                let bcount := nb - k in
                let dest := drop (Z.to_nat k) b' ++ dest in
                let b := take (Z.to_nat k) b' in
                if bool_decide (bcount ≠ 0) && bool_decide (length b = 1%nat)
                then (s, (min_gallop, b ++ a ++ dest))
                else if bool_decide (bcount ≠ 0) && bool_decide (length b = 0%nat)
                then (s, (min_gallop, a ++ b ++ dest))
                else
                  let dest := a9 :: dest in
                  if bool_decide (length a' = 0%nat)
                  then (s, (min_gallop, a' ++ b ++ dest))
                  else if bool_decide (acount >= MIN_GALLOP) || bool_decide (bcount >= MIN_GALLOP)
                  then merge_hi_gallop fuel a' b dest min_gallop s
                  else merge_hi_straight fuel a' b dest 0 0 (min_gallop + 1) s
            end
      end
  end.

Definition merge_hi (a b : list A) (min_gallop : Z) (s : S) : S * (Z * list A) :=
  match unsnoc a with
  | None => (s, (min_gallop, b))
  | Some (a', a9) =>
      let dest := [a9] in
      match a' with
      | [] => (s, (min_gallop, b ++ dest))
      | _ :: _ =>
          if bool_decide (length b = 1%nat) then (s, (min_gallop, b ++ a' ++ dest))
          else merge_hi_straight (Datatypes.S (length a + length b)) a' b dest 0 0 min_gallop s
      end
  end.

(** *** [merge_at]: merge two neighbouring runs, [a] before [b]. *)
Definition merge_runs (a b : list A) (min_gallop : Z) (s : S) : S * (Z * list A) :=
  match b with
  | [] => (s, (min_gallop, a))
  | b0 :: _ =>
      let '(s, k) := gallop_right b0 a 0 s in
      let front := take (Z.to_nat k) a in
      let a := drop (Z.to_nat k) a in
      match unsnoc a with
      | None => (s, (min_gallop, front ++ b))
      | Some (_, a9) =>
          let '(s, nb) := gallop_left a9 b (Z.of_nat (length b) - 1) s in
          let back := drop (Z.to_nat nb) b in
          let b := take (Z.to_nat nb) b in
          if decide (nb <= 0) then (s, (min_gallop, front ++ a ++ back))
          else
            let '(s, (min_gallop, merged)) :=
              if decide (length a ≤ length b)%nat
              then merge_lo a b min_gallop s
              else merge_hi a b min_gallop s in
            (s, (min_gallop, front ++ merged ++ back))
      end
  end.

(** *** The stack of pending runs

    The most recent run comes first.  Each run carries the "power"
    of the boundary between it and the next run. *)

Definition pending : Type := list (list A * Z).

(** [powerloop(s1, n1, n2, n)] *)
Fixpoint powerloop_go (fuel : nat) (a b n : Z) (result : Z) : Z :=
  match fuel with
  | O => result
  | Datatypes.S fuel =>
      let result := result + 1 in
      if decide (a >= n) then powerloop_go fuel ((a - n) * 2) ((b - n) * 2) n result
      else if decide (b >= n) then result
      else powerloop_go fuel (a * 2) (b * 2) n result
  end.
Definition powerloop (s1 n1 n2 n : Z) : Z :=
  let a := 2 * s1 + n1 in
  let b := a + n1 + n2 in
  powerloop_go (Datatypes.S (Z.to_nat n)) a b n 0.

(** The [while] loop of [found_new_run]: merge the two topmost runs
    as long as the run below the top has a greater power. *)
Fixpoint merge_while_power (fuel : nat) (power : Z) (p : pending)
    (min_gallop : Z) (s : S) : S * (Z * pending) :=
  match fuel with
  | O => (s, (min_gallop, p))
  | Datatypes.S fuel =>
      match p with
      | (z, _) :: (y, ypower) :: rest =>
          if decide (ypower > power) then
            let '(s, (min_gallop, yz)) := merge_runs y z min_gallop s in
            merge_while_power fuel power ((yz, ypower) :: rest) min_gallop s
          else (s, (min_gallop, p))
      | _ => (s, (min_gallop, p))
      end
  end.

(** [found_new_run(ms, n2)]; [start] is the index at which the
    topmost run begins. *)
Definition found_new_run (listlen : Z) (start : Z) (n2 : Z) (p : pending)
    (min_gallop : Z) (s : S) : S * (Z * pending) :=
  match p with
  | [] => (s, (min_gallop, p))
  | (top, _) :: _ =>
      let power := powerloop start (Z.of_nat (length top)) n2 listlen in
      let '(s, (min_gallop, p)) :=
        merge_while_power (length p) power p min_gallop s in
      match p with
      | (top, _) :: rest => (s, (min_gallop, (top, power) :: rest))
      | [] => (s, (min_gallop, p))
      end
  end.

(** [merge_force_collapse] *)
Fixpoint merge_force_collapse (fuel : nat) (p : pending) (min_gallop : Z) (s : S)
    : S * (Z * pending) :=
  match fuel with
  | O => (s, (min_gallop, p))
  | Datatypes.S fuel =>
      match p with
      | (z, zpower) :: (y, ypower) :: rest =>
          match rest with
          | (x, xpower) :: rest' =>
              if decide (length x < length z)%nat then
                let '(s, (min_gallop, xy)) := merge_runs x y min_gallop s in
                merge_force_collapse fuel ((z, zpower) :: (xy, xpower) :: rest') min_gallop s
              else
                let '(s, (min_gallop, yz)) := merge_runs y z min_gallop s in
                merge_force_collapse fuel ((yz, ypower) :: rest) min_gallop s
          | [] =>
              let '(s, (min_gallop, yz)) := merge_runs y z min_gallop s in
              merge_force_collapse fuel ((yz, ypower) :: rest) min_gallop s
          end
      | _ => (s, (min_gallop, p))
      end
  end.

(** *** [list.sort] *)

(** The [do ... while (nremaining)] loop.  The first [lo] elements have
    been turned into pending runs, [remaining] are still to be
    looked at. *)
Fixpoint sort_loop (fuel : nat) (listlen : Z) (minrun : nat) (lo : Z)
    (remaining : list A) (p : pending) (min_gallop : Z) (s : S)
    : S * (Z * pending) :=
  match fuel with
  | O => (s, (min_gallop, (remaining, 0) :: p))
  | Datatypes.S fuel =>
      let '(s, (n, descending)) := count_run remaining s in
      let run := take n remaining in
      let run := if descending then reverse run else run in
      let '(s, (n, run)) :=
        if decide (n < minrun)%nat then
          let force := if decide (length remaining ≤ minrun)%nat
                       then length remaining else minrun in
          let '(s, run) := binarysort run (take (force - n) (drop n remaining)) s in
          (s, (force, run))
        else (s, (n, run)) in
      let '(s, (min_gallop, p)) :=
        found_new_run listlen (lo - match p with
                                       | (top, _) :: _ => Z.of_nat (length top)
                                       | [] => 0
                                       end)
          (Z.of_nat n) p min_gallop s in
      let p := (run, 0) :: p in
      let remaining := drop n remaining in
      match remaining with
      | [] => (s, (min_gallop, p))
      | _ :: _ => sort_loop fuel listlen minrun (lo + Z.of_nat n) remaining p min_gallop s
      end
  end.

Definition list_sort (l : list A) (s : S) : S * list A :=
  if decide (length l < 2)%nat then (s, l)
  else
    let minrun := merge_compute_minrun (length l) in
    let '(s, (min_gallop, p)) :=
      sort_loop (length l) (Z.of_nat (length l)) minrun 0 l [] MIN_GALLOP s in
    let '(s, (_, p)) := merge_force_collapse (length p) p min_gallop s in
    (s, concat (reverse (fst <$> p))).

(** The elements held in the pending runs. *)
Definition held (p : pending) : list A := concat (fst <$> p).

End ListSort.

(** *** What the sort is measured against *)

Section Order.
Context {A : Type}.

(** [x < y] as a function of the two elements alone. *)
Variable ltb : A → A → bool.

(** The comparison that answers by [ltb] and has no state. *)
Definition pure_lt (x y : A) (s : unit) : unit * bool := (s, ltb x y).

(** [ltb] is a strict weak order: the [<] of elements that fall into
    ranked classes. *)
Definition strict_weak_order : Prop :=
  (∀ x, ltb x x = false) ∧
  (∀ x y z, ltb x y = true → ltb y z = true → ltb x z = true) ∧
  (∀ x y z, ltb x z = true → ltb x y = true ∨ ltb y z = true).

(** [x] may stand before [y]: [y < x] does not hold. *)
Definition may_precede (x y : A) : Prop := ltb y x = false.

Definition ordered (l : list A) : Prop := StronglySorted may_precede l.

Definition below (l1 l2 : list A) : Prop :=
  ∀ x y, x ∈ l1 → y ∈ l2 → may_precede x y.

Definition strictly_below (l1 l2 : list A) : Prop :=
  ∀ x y, x ∈ l1 → y ∈ l2 → ltb x y = true.

End Order.

(** Two state-passing results agree: the states are related by [R]
    and the values are equal. *)
Definition agree {S1 S2 B : Type} (R : S1 → S2 → Prop)
    (r1 : S1 * B) (r2 : S2 * B) : Prop :=
  R r1.1 r2.1 ∧ r1.2 = r2.2.

End ListSort.


(** ** core/vlm_analyzer.py *)

Module VLMAnalyzer.

(** What lies outside the analyzer: the image files and the vision
    model.  Both may answer differently from one try to the next, so
    they are indexed by the number of tries made before. *)
Record World : Type := mkWorld {
  (** [self._image_to_data_uri(path)]; [None] when it raises. *)
  image_to_data_uri : nat → string → option string;
  (** [self.llm.create_chat_completion(...)] on two data URIs, read
      up to [response['choices'][0]['message']['content']]; [None]
      when the call, or reading the response, raises. *)
  chat_completion : nat → string → string → option string
}.

(** A call of the model: the two image paths and what came back. *)
Definition oracle_call : Type := string * string * option string.

(** The analyzer.  [comparison_cache] is the attribute of that name;
    [tries] and [oracle_log] are bookkeeping of the model: how often
    the [try] block was entered, and every call made to the model. *)
Record analyzer : Type := mkAnalyzer {
  comparison_cache : gmap (string * string) Z;
  tries : nat;
  oracle_log : list oracle_call
}.

Definition new_analyzer : analyzer :=
  {| comparison_cache := ∅; tries := 0; oracle_log := [] |}.

(** [clear_cache] and [get_cache_size]. *)
Definition clear_cache (self : analyzer) : analyzer :=
  {| comparison_cache := ∅; tries := tries self; oracle_log := oracle_log self |}.
Definition get_cache_size (self : analyzer) : nat := size (comparison_cache self).

(** The [if '-1' in content ... elif '1' in content ... else] chain. *)
Definition parse_verdict (content : string) : Z :=
  if PyStr.contains "-1" content then -1
  else if PyStr.contains "1" content && negb (PyStr.contains "-1" content) then 1
  else 0.

Section Analyzer.
(** [Config.ENABLE_COMPARISON_CACHE] *)
Variable enable_cache : bool.
Variable world : World.

(** The two cache look-ups at the top of [compare_images_order]. *)
Definition cache_lookup (self : analyzer) (img1_path img2_path : string) : option Z :=
  let cache_key := (img1_path, img2_path) in
  let reverse_cache_key := (img2_path, img1_path) in
  if enable_cache then
    match comparison_cache self !! cache_key with
    | Some result => Some result
    | None =>
        match comparison_cache self !! reverse_cache_key with
        | Some result => Some (- result)
        | None => None
        end
    end
  else None.

(** The [try] block of [compare_images_order], with its [except]. *)
Definition ask_oracle (self : analyzer) (img1_path img2_path : string) : analyzer * Z :=
  let t := tries self in
  let self := {| comparison_cache := comparison_cache self;
                 tries := Datatypes.S t;
                 oracle_log := oracle_log self |} in
  match image_to_data_uri world t img1_path with
  | None => (self, 0)
  | Some img1_uri =>
      match image_to_data_uri world t img2_path with
      | None => (self, 0)
      | Some img2_uri =>
          let response := chat_completion world t img1_uri img2_uri in
          let self := {| comparison_cache := comparison_cache self;
                         tries := tries self;
                         oracle_log := oracle_log self
                                         ++ [(img1_path, img2_path, response)] |} in
          match response with
          | None => (self, 0)
          | Some content =>
              let content := PyStr.strip content in
              let result := parse_verdict content in
              let self :=
                if enable_cache then
                  {| comparison_cache :=
                       <[(img1_path, img2_path) := result]> (comparison_cache self);
                     tries := tries self;
                     oracle_log := oracle_log self |}
                else self in
              (self, result)
          end
      end
  end.

Definition compare_images_order (img1_path img2_path : string) (self : analyzer)
    : analyzer * Z :=
  match cache_lookup self img1_path img2_path with
  | Some result => (self, result)
  | None => ask_oracle self img1_path img2_path
  end.

(** *** [sort_images_by_content] *)

Section Sorting.
(** The host of the progress callback, and the callback itself:
    it is handed [current] and [total] and does not raise. *)
Context {H : Type}.
Variable progress_callback : option (Z → Z → H → H).

(** What the comparisons of one sort act on: the analyzer, the
    counter [current_comparison[0]] and the host. *)
Record session : Type := mkSession {
  self : analyzer;
  current_comparison : Z;
  host : H
}.

Definition compare_func (total_comparisons : Z) (img1 img2 : string) (ss : session)
    : session * Z :=
  let current := current_comparison ss + 1 in
  let host :=
    match progress_callback with
    | Some callback => callback current total_comparisons (host ss)
    | None => host ss
    end in
  let '(self, result) := compare_images_order img1 img2 (self ss) in
  ({| self := self; current_comparison := current; host := host |}, result).

(** [K.__lt__] of [cmp_to_key(compare_func)]. *)
Definition key_lt (total_comparisons : Z) (img1 img2 : string) (ss : session)
    : session * bool :=
  let '(ss, result) := compare_func total_comparisons img1 img2 ss in
  (ss, bool_decide (result < 0)).

Definition sort_images_by_content (image_paths : list string)
    (self : analyzer) (host : H) : session * list string :=
  let start := {| self := self; current_comparison := 0; host := host |} in
  if decide (length image_paths ≤ 1)%nat then (start, image_paths)
  else
    let n := Z.of_nat (length image_paths) in
    let total_comparisons := (n * (n - 1)) `div` 2 in
    ListSort.list_sort (key_lt total_comparisons) image_paths start.

End Sorting.

(** A sequence of calls of [compare_images_order], one after the
    other on the same analyzer. *)
Fixpoint run_queries (queries : list (string * string)) (self : analyzer)
    : analyzer * list Z :=
  match queries with
  | [] => (self, [])
  | (img1, img2) :: rest =>
      let '(self, result) := compare_images_order img1 img2 self in
      let '(self, results) := run_queries rest self in
      (self, result :: results)
  end.

End Analyzer.

(** Whether a call of the model came back with an answer. *)
Definition answered (c : oracle_call) : Prop := is_Some c.2.
Global Instance answered_dec (c : oracle_call) : Decision (answered c) := _.

(** What the world does with the query [q] at try [t].  The try fails
    when an image cannot be read or the call of the model raises;
    otherwise the model answers with [content]. *)
Definition try_fails (world : World) (t : nat) (q : string * string) : Prop :=
  match image_to_data_uri world t q.1, image_to_data_uri world t q.2 with
  | Some img1_uri, Some img2_uri => chat_completion world t img1_uri img2_uri = None
  | _, _ => True
  end.
Definition try_answers (world : World) (t : nat) (q : string * string)
    (content : string) : Prop :=
  ∃ img1_uri img2_uri,
    image_to_data_uri world t q.1 = Some img1_uri ∧
    image_to_data_uri world t q.2 = Some img2_uri ∧
    chat_completion world t img1_uri img2_uri = Some content.

(** The calls of the model that [queries] make when each of them is
    tried, from try [t] on, and none is answered: one call for every
    query whose two images could be read. *)
Fixpoint calls_in_vain (world : World) (t : nat) (queries : list (string * string))
    : list oracle_call :=
  match queries with
  | [] => []
  | q :: rest =>
      match image_to_data_uri world t q.1, image_to_data_uri world t q.2 with
      | Some _, Some _ => [(q.1, q.2, None)]
      | _, _ => []
      end ++ calls_in_vain world (Datatypes.S t) rest
  end.

(** *** Worlds to run the analyzer in *)

Definition plain_uri (t : nat) (path : string) : option string := Some ("data:" +:+ path).

(** The model is down: every call raises. *)
Definition world_down : World :=
  {| image_to_data_uri := plain_uri; chat_completion := λ _ _ _, None |}.

(** The model cannot tell: every answer is ["0"]. *)
Definition world_unsure : World :=
  {| image_to_data_uri := plain_uri; chat_completion := λ _ _ _, Some " 0 " |}.

(** The model orders pages by name, but its third call raises. *)
Definition world_hiccup : World :=
  {| image_to_data_uri := plain_uri;
     chat_completion := λ t u1 u2,
       if decide (t = 2%nat) then None
       else if String.ltb u1 u2 then Some "-1" else Some "1" |}.

(** The model orders pages by name, but its first call raises. *)
Definition world_waking : World :=
  {| image_to_data_uri := plain_uri;
     chat_completion := λ t u1 u2,
       if decide (t = 0%nat) then None
       else if String.ltb u1 u2 then Some "-1" else Some "1" |}.

(** *** Pages that have a rank *)

(** One of the three verdicts of [compare_images_order]. *)
Definition is_verdict (r : Z) : Prop := r = -1 ∨ r = 0 ∨ r = 1.

(** The verdict of a model that knows the rank of every page. *)
Definition verdict_by (rank : string → Z) (a b : string) : Z :=
  if decide (rank a < rank b) then -1
  else if decide (rank b < rank a) then 1
  else 0.

(** The number in the name of a page, [0] if there is none. *)
Definition page_number (path : string) : Z :=
  default 0 (SequenceDetector.default_number_in path).

(** The model orders the pages by the number in their names. *)
Definition world_numbered : World :=
  {| image_to_data_uri := plain_uri;
     chat_completion := λ _ u1 u2,
       Some (PyStr.of_int (verdict_by page_number u1 u2)) |}.

(** A progress callback that writes down what it is handed. *)
Definition note_progress (current total : Z) (seen : list (Z * Z)) : list (Z * Z) :=
  seen ++ [(current, total)].

End VLMAnalyzer.

(** ** core/image_scanner.py *)

Module ImageScanner.
Import Renamer.

Definition SUPPORTED_EXTENSIONS : gset string :=
  {[ ".jpg"; ".jpeg"; ".png"; ".webp"; ".gif"; ".bmp" ]}.

(** What the scanner asks of the file system; nothing of it changes
    the file system.  A call that raises is [inr] of [str(e)]. *)
Class Listing (FS : Type) : Type := {
  (** [p.exists()], [p.is_dir()], [p.is_file()] *)
  ls_exists : FS → Path → bool;
  ls_is_dir : FS → Path → bool;
  ls_is_file : FS → Path → bool;
  (** [list(p.iterdir())] and [list(p.rglob('*'))] *)
  ls_iterdir : FS → Path → list Path + string;
  ls_rglob : FS → Path → list Path + string;
  (** [p.stat().st_size] *)
  ls_size : FS → Path → Z + string
}.

(** The set comprehension at the top of [scan_folder]. *)
Definition normalize_extension (ext : string) : string :=
  if PyStr.startswith "." ext then PyStr.lower ext else "." +:+ PyStr.lower ext.

Definition wanted_extensions (extensions : option (list string)) : gset string :=
  match extensions with
  | None => SUPPORTED_EXTENSIONS
  | Some extensions => list_to_set (normalize_extension <$> extensions)
  end.

(** Two spellings of one extension: alike up to case and a leading
    dot. *)
Definition undot (ext : string) : string :=
  match ext with
  | String a e => if decide (a = "."%char) then e else ext
  | EmptyString => ext
  end.
Definition same_extension (a b : string) : Prop :=
  PyStr.lower (undot a) = PyStr.lower (undot b).

(** [lambda x: x.name.lower()], and [<] on the keys. *)
Definition sort_key (x : Path) : string := PyStr.lower (name x).
Definition key_before (x y : Path) : bool := PyStr.lt (sort_key x) (sort_key y).

Section WithListing.
Context {FS : Type} `{!Listing FS}.

(** [file.is_file() and file.suffix.lower() in extensions] *)
Definition is_wanted (fs : FS) (extensions : gset string) (file : Path) : bool :=
  ls_is_file fs file && bool_decide (PyStr.lower (suffix file) ∈ extensions).

Definition scan_folder (fs : FS) (folder_path : string)
    (extensions : option (list string)) (recursive : bool) : outcome (list Path) :=
  let extensions := wanted_extensions extensions in
  let folder := of_str folder_path in
  if negb (ls_exists fs folder)
  then Raised ("Folder not found: " +:+ folder_path)
  else if negb (ls_is_dir fs folder)
  then Raised ("Path is not a directory: " +:+ folder_path)
  else
    match (if recursive then ls_rglob fs folder else ls_iterdir fs folder) with
    | inr e => Raised e
    | inl listing =>
        let image_files := filter (λ file, is_wanted fs extensions file = true) listing in
        Returned (ListSort.list_sort (ListSort.pure_lt key_before) image_files tt).2
    end.

(** [filter_by_size]; [None] stands for a bound that is not given. *)
Fixpoint filter_by_size (fs : FS) (files : list Path) (min_size max_size : option Z)
    : outcome (list Path) :=
  match files with
  | [] => Returned []
  | file :: rest =>
      match ls_size fs file with
      | inr e => Raised e
      | inl size =>
          let skip :=
            match min_size with Some m => bool_decide (size < m) | None => false end
            || match max_size with Some m => bool_decide (size > m) | None => false end in
          match filter_by_size fs rest min_size max_size with
          | Raised e => Raised e
          | Returned filtered => Returned (if skip then filtered else file :: filtered)
          end
      end
  end.

End WithListing.

(** A size within the bounds that are given. *)
Definition size_within (min_size max_size : option Z) (size : Z) : Prop :=
  (∀ m, min_size = Some m → m ≤ size) ∧ (∀ m, max_size = Some m → size ≤ m).

Definition is_supported_format (file_path : Path) : bool :=
  bool_decide (PyStr.lower (suffix file_path) ∈ SUPPORTED_EXTENSIONS).

(** *** A folder to scan: the entries of one directory, each with
    whether it is a regular file and its size. *)
Definition shelf : Type := list (Path * (bool * Z)).

Definition shelf_listing (folder : Path) : Listing shelf :=
  {| ls_exists := λ sh p, bool_decide (p = folder ∨ p ∈ sh.*1);
     ls_is_dir := λ sh p,
       bool_decide (p = folder ∨ Exists (λ e, e.1 = p ∧ e.2.1 = false) sh);
     ls_is_file := λ sh p, bool_decide (Exists (λ e, e.1 = p ∧ e.2.1 = true) sh);
     ls_iterdir := λ sh p,
       if decide (p = folder) then inl sh.*1
       else inr ("[Errno 20] Not a directory: " +:+ PyStr.repr (to_str p));
     ls_rglob := λ sh p,
       if decide (p = folder) then inl sh.*1 else inl [];
     ls_size := λ sh p,
       match list_find (λ e, e.1 = p) sh with
       | Some (_, e) => inl e.2.2
       | None => inr ("[Errno 2] No such file or directory: " +:+ PyStr.repr (to_str p))
       end |}.

Definition scans : shelf :=
  [ (of_str "/s/b.PNG", (true, 30));
    (of_str "/s/notes.txt", (true, 5));
    (of_str "/s/A.jpg", (true, 10));
    (of_str "/s/old", (false, 0)) ].

(** The folder [/m] once its three pages are renamed, listed out of
    order. *)
Definition renamed_shelf : shelf :=
  [ (of_str "/m/page_002.png", (true, 1));
    (of_str "/m/page_003.png", (true, 1));
    (of_str "/m/page_001.jpg", (true, 1)) ].

End ImageScanner.

(** * Properties *)

(** Settle an equation between closed terms by evaluating both sides. *)
Ltac by_evaluation :=
  match goal with
  | |- @eq ?T ?l ?r => vm_cast_no_check (@eq_refl T r)
  end.

(** ** The sequence validator *)

Module SequenceDetectorFacts.
Import SequenceDetector.

(** *** Sorting integers *)

Lemma sort_perm (l : list Z) : sort l ≡ₚ l.
Proof. apply merge_sort_Permutation. Qed.

Lemma sort_sorted (l : list Z) : Sorted Z.le (sort l).
Proof. apply (Sorted_merge_sort Z.le). Qed.

Lemma sorted_le_unique (l1 l2 : list Z) :
  Sorted Z.le l1 → Sorted Z.le l2 → l1 ≡ₚ l2 → l1 = l2.
Proof. apply (Sorted_unique Z.le). Qed.

Lemma sorted_set_elem (s : gset Z) (k : Z) : k ∈ sorted_set s ↔ k ∈ s.
Proof.
  unfold sorted_set. rewrite merge_sort_Permutation. apply elem_of_elements.
Qed.

(** Sorting a set gives the one duplicate-free ascending list of its
    elements. *)
Lemma sorted_set_unique (s : gset Z) (l : list Z) :
  Sorted Z.le l → NoDup l → (∀ k, k ∈ l ↔ k ∈ s) → sorted_set s = l.
Proof.
  intros Hs Hn Hl. apply sorted_le_unique; [apply sort_sorted | done |].
  unfold sorted_set. rewrite merge_sort_Permutation.
  apply NoDup_Permutation; [apply NoDup_elements | done |].
  intros k. rewrite elem_of_elements. by rewrite Hl.
Qed.

Lemma seqZ_sorted (m n : Z) : StronglySorted Z.lt (seqZ m n).
Proof.
  destruct (decide (n ≤ 0)) as [Hn|Hn]; [rewrite seqZ_nil by done; constructor|].
  rewrite <- (Z2Nat.id n) by lia. generalize (Z.to_nat n) as k. clear.
  intros k; revert m. induction k as [|k IH]; intros m.
  - rewrite seqZ_nil by done. constructor.
  - rewrite seqZ_cons by lia. constructor.
    + replace (Z.pred (Z.of_nat (S k))) with (Z.of_nat k) by lia. apply IH.
    + apply Forall_forall. intros x Hx. apply elem_of_seqZ in Hx. lia.
Qed.

Lemma filter_sorted_lt (P : Z → Prop) `{!∀ x, Decision (P x)} (l : list Z) :
  StronglySorted Z.lt l → StronglySorted Z.lt (filter P l).
Proof.
  induction 1 as [|x l Hl IH Hx]; [constructor|].
  rewrite filter_cons. case_decide; [|done].
  constructor; [done|].
  apply Forall_forall. intros y Hy. apply list_elem_of_filter in Hy as [_ Hy].
  by eapply Forall_forall in Hx.
Qed.

Lemma sorted_lt_le (l : list Z) : StronglySorted Z.lt l → Sorted Z.le l.
Proof.
  intros H. apply StronglySorted_Sorted.
  induction H as [|x l Hl IH Hx]; constructor; [done|].
  eapply Forall_impl; [done|]. intros; simpl in *; lia.
Qed.

Lemma sorted_lt_NoDup (l : list Z) : StronglySorted Z.lt l → NoDup l.
Proof.
  induction 1 as [|x l Hl IH Hx]; constructor; [|done].
  intros Hin. eapply Forall_forall in Hx; [|done]. lia.
Qed.

(** *** Minimum and maximum *)

Lemma foldl_min_spec (l : list Z) (x : Z) :
  (foldl Z.min x l = x ∨ foldl Z.min x l ∈ l) ∧
  foldl Z.min x l ≤ x ∧ ∀ y, y ∈ l → foldl Z.min x l ≤ y.
Proof.
  revert x. induction l as [|a l IH]; intros x; simpl.
  - split; [by left|]. split; [lia|]. intros y Hy. by apply elem_of_nil in Hy.
  - destruct (IH (Z.min x a)) as (Hm & Hle & Hall). split; [|split].
    + destruct Hm as [Hm|Hm].
      * rewrite Hm. destruct (Z.min_spec x a) as [[_ ->]|[_ ->]];
          [by left|right; left].
      * right. by right.
    + lia.
    + intros y Hy. apply elem_of_cons in Hy as [->|Hy]; [lia|by apply Hall].
Qed.

Lemma foldl_max_spec (l : list Z) (x : Z) :
  (foldl Z.max x l = x ∨ foldl Z.max x l ∈ l) ∧
  x ≤ foldl Z.max x l ∧ ∀ y, y ∈ l → y ≤ foldl Z.max x l.
Proof.
  revert x. induction l as [|a l IH]; intros x; simpl.
  - split; [by left|]. split; [lia|]. intros y Hy. by apply elem_of_nil in Hy.
  - destruct (IH (Z.max x a)) as (Hm & Hle & Hall). split; [|split].
    + destruct Hm as [Hm|Hm].
      * rewrite Hm. destruct (Z.max_spec x a) as [[_ ->]|[_ ->]];
          [right; left|by left].
      * right. by right.
    + lia.
    + intros y Hy. apply elem_of_cons in Hy as [->|Hy]; [lia|by apply Hall].
Qed.

Lemma py_min_spec (l : list Z) (lo : Z) : py_min l = Some lo ↔ is_min lo l.
Proof.
  destruct l as [|x l]; simpl.
  - split; [done|]. intros [H _]. by apply elem_of_nil in H.
  - destruct (foldl_min_spec l x) as (Hm & Hle & Hall). split.
    + intros [= <-]. split.
      * destruct Hm as [->|Hm]; [left|by right].
      * intros y Hy. apply elem_of_cons in Hy as [->|Hy]; [done|by apply Hall].
    + intros [Hin Hlb]. f_equal. apply Z.le_antisymm.
      * apply elem_of_cons in Hin as [->|Hin]; [done|by apply Hall].
      * apply Hlb. destruct Hm as [->|Hm]; [left|by right].
Qed.

Lemma py_max_spec (l : list Z) (hi : Z) : py_max l = Some hi ↔ is_max hi l.
Proof.
  destruct l as [|x l]; simpl.
  - split; [done|]. intros [H _]. by apply elem_of_nil in H.
  - destruct (foldl_max_spec l x) as (Hm & Hle & Hall). split.
    + intros [= <-]. split.
      * destruct Hm as [->|Hm]; [left|by right].
      * intros y Hy. apply elem_of_cons in Hy as [->|Hy]; [done|by apply Hall].
    + intros [Hin Hub]. f_equal. apply Z.le_antisymm.
      * apply Hub. destruct Hm as [->|Hm]; [left|by right].
      * apply elem_of_cons in Hin as [->|Hin]; [done|by apply Hall].
Qed.

Lemma py_min_is_Some (l : list Z) : l ≠ [] → is_Some (py_min l).
Proof. destruct l; [done|]. by eexists. Qed.
Lemma py_max_is_Some (l : list Z) : l ≠ [] → is_Some (py_max l).
Proof. destruct l; [done|]. by eexists. Qed.

Lemma is_min_perm (lo : Z) (l1 l2 : list Z) : l1 ≡ₚ l2 → is_min lo l1 → is_min lo l2.
Proof. intros Hp [Hin Hlb]. split; [by rewrite <- Hp|]. intros y. rewrite <- Hp. apply Hlb. Qed.
Lemma is_max_perm (hi : Z) (l1 l2 : list Z) : l1 ≡ₚ l2 → is_max hi l1 → is_max hi l2.
Proof. intros Hp [Hin Hlb]. split; [by rewrite <- Hp|]. intros y. rewrite <- Hp. apply Hlb. Qed.

Lemma py_min_perm (l1 l2 : list Z) : l1 ≡ₚ l2 → py_min l1 = py_min l2.
Proof.
  intros Hp. destruct (py_min l1) as [lo|] eqn:H1.
  - symmetry. apply py_min_spec. eapply is_min_perm; [done|]. by apply py_min_spec.
  - destruct l1; [|done]. apply Permutation_nil_l in Hp. by subst.
Qed.
Lemma py_max_perm (l1 l2 : list Z) : l1 ≡ₚ l2 → py_max l1 = py_max l2.
Proof.
  intros Hp. destruct (py_max l1) as [lo|] eqn:H1.
  - symmetry. apply py_max_spec. eapply is_max_perm; [done|]. by apply py_max_spec.
  - destruct l1; [|done]. apply Permutation_nil_l in Hp. by subst.
Qed.

Section Detector.
Variable number_in : string → option Z.

Local Abbreviation collect_numbers := (SequenceDetector.collect_numbers number_in).
Local Abbreviation detect_missing := (SequenceDetector.detect_missing number_in).
Local Abbreviation detect_duplicates := (SequenceDetector.detect_duplicates number_in).
Local Abbreviation validate_sequence := (SequenceDetector.validate_sequence number_in).
Local Abbreviation get_sequence_gaps := (SequenceDetector.get_sequence_gaps number_in).
Local Abbreviation add_file := (SequenceDetector.add_file number_in).
Local Abbreviation names_for := (SequenceDetector.names_for number_in).

Lemma detect_missing_none (file_paths : list Path) :
  collect_numbers file_paths = [] → detect_missing file_paths = [].
Proof. unfold SequenceDetector.detect_missing. by intros ->. Qed.

Lemma detect_missing_between (file_paths : list Path) (lo hi : Z) :
  py_min (collect_numbers file_paths) = Some lo →
  py_max (collect_numbers file_paths) = Some hi →
  detect_missing file_paths = absent_between lo hi (collect_numbers file_paths).
Proof.
  intros Hlo Hhi. unfold SequenceDetector.detect_missing.
  destruct (collect_numbers file_paths) as [|x l] eqn:Hn; [done|].
  rewrite (py_min_perm _ _ (sort_perm (x :: l))), Hlo.
  rewrite (py_max_perm _ _ (sort_perm (x :: l))), Hhi.
  apply sorted_set_unique.
  - apply sorted_lt_le, filter_sorted_lt, seqZ_sorted.
  - apply sorted_lt_NoDup, filter_sorted_lt, seqZ_sorted.
  - intros k. unfold absent_between, range.
    rewrite list_elem_of_filter, elem_of_difference, !elem_of_list_to_set.
    rewrite (sort_perm (x :: l)).
    replace (hi + 1 - lo) with (hi - lo + 1) by lia. tauto.
Qed.

Lemma add_file_lookup (m : gmap Z (list string)) (p : Path) (n : Z) :
  add_file m p !! n =
    if decide (number_in (stem p) = Some n)
    then Some (default [] (m !! n) ++ [name p])
    else m !! n.
Proof.
  unfold SequenceDetector.add_file.
  destruct (number_in (stem p)) as [k|] eqn:Hk; [|by rewrite decide_False].
  destruct (decide (Some k = Some n)) as [[= ->]|Hne].
  - rewrite lookup_insert_eq. destruct (m !! n) eqn:Hm; simpl.
    + by rewrite Hm.
    + by rewrite lookup_insert_eq.
  - assert (k ≠ n) by congruence. rewrite lookup_insert_ne by done.
    destruct (m !! k); [done|]. by rewrite lookup_insert_ne.
Qed.

Lemma foldl_add_file_lookup (file_paths : list Path) (m : gmap Z (list string)) (n : Z) :
  foldl add_file m file_paths !! n =
    match names_for n file_paths with
    | [] => m !! n
    | l => Some (default [] (m !! n) ++ l)
    end.
Proof.
  revert m. induction file_paths as [|p ps IH]; intros m; [done|].
  simpl. rewrite IH, add_file_lookup. unfold names_for.
  rewrite filter_cons. case_decide as Hp; [rewrite fmap_cons|done].
  destruct (name <$> filter _ ps) as [|a l]; [done|].
  simpl. by rewrite <- app_assoc.
Qed.

(** The grouping of [detect_duplicates], read as a mapping. *)
Lemma detect_duplicates_lookup (file_paths : list Path) (n : Z) :
  detect_duplicates file_paths !! n =
    if decide (1 < length (names_for n file_paths))%nat
    then Some (names_for n file_paths)
    else None.
Proof.
  unfold SequenceDetector.detect_duplicates. case_decide as Hlen.
  - apply map_lookup_filter_Some. split; [|done].
    rewrite foldl_add_file_lookup, lookup_empty.
    destruct (names_for n file_paths); [simpl in Hlen; lia|done].
  - apply map_lookup_filter_None. right. intros x Hx. simpl.
    rewrite foldl_add_file_lookup, lookup_empty in Hx.
    destruct (names_for n file_paths); [done|].
    by injection Hx as <-.
Qed.

Lemma names_for_length (n : Z) (file_paths : list Path) :
  length (names_for n file_paths) =
  length (filter (λ k, k = n) (collect_numbers file_paths)).
Proof.
  unfold names_for, SequenceDetector.collect_numbers. rewrite length_fmap.
  induction file_paths as [|p ps IH]; [done|].
  rewrite filter_cons. simpl.
  destruct (number_in (stem p)) as [k|] eqn:Hk.
  - rewrite filter_cons. destruct (decide (k = n)) as [->|Hne].
    + rewrite decide_True by done. simpl. by rewrite IH.
    + rewrite decide_False by congruence. done.
  - rewrite decide_False by done. done.
Qed.

Lemma is_valid_iff (file_paths : list Path) :
  is_valid (validate_sequence file_paths) = true ↔
  missing_numbers (validate_sequence file_paths) = [] ∧
  duplicate_numbers (validate_sequence file_paths) = ∅.
Proof.
  simpl. rewrite andb_true_iff, !bool_decide_eq_true.
  rewrite length_zero_iff_nil, map_size_empty_iff. done.
Qed.

Lemma collect_numbers_none (file_paths : list Path) :
  Forall (λ p, number_in (stem p) = None) file_paths →
  collect_numbers file_paths = [].
Proof.
  induction 1 as [|p ps Hp _ IH]; [done|].
  unfold SequenceDetector.collect_numbers in *. simpl. by rewrite Hp.
Qed.

Lemma detect_duplicates_none (file_paths : list Path) :
  collect_numbers file_paths = [] → detect_duplicates file_paths = ∅.
Proof.
  intros Hn. apply map_empty. intros n.
  rewrite detect_duplicates_lookup, names_for_length, Hn.
  by rewrite decide_False by (simpl; lia).
Qed.

(** *** Gaps *)

Lemma squash_head (b : Z) (t : list Z) : ∃ t', squash (b :: t) = b :: t'.
Proof.
  revert b. induction t as [|c t IH]; intros b; [by eexists|].
  simpl. case_decide as Hbc.
  - subst. apply IH.
  - by eexists.
Qed.

Lemma squash_elem (l : list Z) (k : Z) : k ∈ squash l ↔ k ∈ l.
Proof.
  induction l as [|a [|b t] IH]; [done..|].
  change (squash (a :: b :: t)) with
    (if decide (a = b) then squash (b :: t) else a :: squash (b :: t)).
  case_decide as Hab.
  - subst. rewrite IH. rewrite (elem_of_cons (b :: t)). rewrite elem_of_cons. tauto.
  - rewrite elem_of_cons, IH. by rewrite (elem_of_cons (b :: t)).
Qed.

Lemma squash_gaps (l : list Z) : adjacent_gaps (squash l) = adjacent_gaps l.
Proof.
  induction l as [|a [|b t] IH]; [done..|].
  change (squash (a :: b :: t)) with
    (if decide (a = b) then squash (b :: t) else a :: squash (b :: t)).
  change (adjacent_gaps (a :: b :: t)) with
    (if decide (b - a > 1) then (a, b) :: adjacent_gaps (b :: t)
     else adjacent_gaps (b :: t)).
  case_decide as Hab.
  - subst. rewrite decide_False by lia. done.
  - destruct (squash_head b t) as [t' Ht']. rewrite Ht' in *.
    change (adjacent_gaps (a :: b :: t')) with
      (if decide (b - a > 1) then (a, b) :: adjacent_gaps (b :: t')
       else adjacent_gaps (b :: t')).
    by rewrite IH.
Qed.

Lemma squash_sorted (l : list Z) : Sorted Z.le l → Sorted Z.lt (squash l).
Proof.
  induction l as [|a [|b t] IH]; intros Hs; [constructor|repeat constructor|].
  change (squash (a :: b :: t)) with
    (if decide (a = b) then squash (b :: t) else a :: squash (b :: t)).
  apply Sorted_inv in Hs as [Hs Hd]. apply HdRel_inv in Hd.
  case_decide as Hab; [by apply IH|].
  constructor; [by apply IH|].
  destruct (squash_head b t) as [t' ->]. constructor. lia.
Qed.

Lemma squash_sort_distinct (numbers : list Z) :
  squash (sort numbers) = distinct_sorted numbers.
Proof.
  symmetry. apply sorted_set_unique.
  - apply sorted_lt_le, Sorted_StronglySorted; [apply _|].
    apply squash_sorted, sort_sorted.
  - apply sorted_lt_NoDup, Sorted_StronglySorted; [apply _|].
    apply squash_sorted, sort_sorted.
  - intros k. rewrite squash_elem, elem_of_list_to_set. by rewrite sort_perm.
Qed.

Lemma adjacent_gaps_zip (l : list Z) :
  adjacent_gaps l = filter (λ ab, ab.2 - ab.1 > 1) (zip l (tail l)).
Proof.
  induction l as [|a [|b t] IH]; [done..|].
  change (adjacent_gaps (a :: b :: t)) with
    (if decide (b - a > 1) then (a, b) :: adjacent_gaps (b :: t)
     else adjacent_gaps (b :: t)).
  change (zip (a :: b :: t) (tail (a :: b :: t))) with
    ((a, b) :: zip (b :: t) (tail (b :: t))).
  rewrite filter_cons, IH. simpl. by case_decide.
Qed.

End Detector.

(** **** C7.  When at least one number is extracted, the report gives
    the minimum and maximum of the extracted numbers; [missing_numbers]
    is ascending and holds exactly the integers between them that no
    file carries; [duplicate_numbers] maps exactly the numbers carried
    by more than one file to the names of those files; [is_valid] holds
    exactly when both are empty.  In particular files that yield the
    numbers 1, 2, 4, 5 are reported with [missing = [3]], no
    duplicates, [is_valid = false], [min = 1] and [max = 5]. *)
Theorem validate_sequence_report (number_in : string → option Z) (file_paths : list Path) :
  collect_numbers number_in file_paths ≠ [] →
  let numbers := collect_numbers number_in file_paths in
  let r := validate_sequence number_in file_paths in
  (∃ lo hi,
      min_number r = Some lo ∧ is_min lo numbers ∧
      max_number r = Some hi ∧ is_max hi numbers ∧
      StronglySorted Z.lt (missing_numbers r) ∧
      ∀ k, k ∈ missing_numbers r ↔ lo ≤ k ≤ hi ∧ k ∉ numbers) ∧
  (∀ n names,
      duplicate_numbers r !! n = Some names ↔
      names = SequenceDetector.names_for number_in n file_paths ∧ (1 < length names)%nat) ∧
  (is_valid r = true ↔ missing_numbers r = [] ∧ duplicate_numbers r = ∅) ∧
  (numbers ≡ₚ [1; 2; 4; 5] →
      missing_numbers r = [3] ∧ duplicate_numbers r = ∅ ∧
      is_valid r = false ∧ min_number r = Some 1 ∧ max_number r = Some 5).
Proof.
  intros Hne numbers r.
  destruct (py_min_is_Some _ Hne) as [lo Hlo].
  destruct (py_max_is_Some _ Hne) as [hi Hhi].
  assert (Hmiss : missing_numbers r = absent_between lo hi numbers)
    by by apply detect_missing_between.
  assert (Hdup : ∀ n, duplicate_numbers r !! n =
            if decide (1 < length (SequenceDetector.names_for number_in n file_paths))%nat
            then Some (SequenceDetector.names_for number_in n file_paths) else None)
    by apply detect_duplicates_lookup.
  split; [|split; [|split]].
  - exists lo, hi. split; [exact Hlo|]. split; [by apply py_min_spec|].
    split; [exact Hhi|]. split; [by apply py_max_spec|].
    rewrite Hmiss. split; [apply filter_sorted_lt, seqZ_sorted|].
    intros k. unfold absent_between. rewrite list_elem_of_filter, elem_of_seqZ.
    split; intros [? ?]; split; done || lia.
  - intros n names. rewrite Hdup. case_decide as Hlen.
    + split; [by intros [= <-]|by intros [-> _]].
    + split; [done|]. intros [-> ?]. lia.
  - apply is_valid_iff.
  - intros Hp.
    assert (Hlo1 : lo = 1).
    { apply py_min_spec in Hlo. apply (is_min_perm _ _ _ Hp) in Hlo.
      apply py_min_spec in Hlo. by injection Hlo. }
    assert (Hhi5 : hi = 5).
    { apply py_max_spec in Hhi. apply (is_max_perm _ _ _ Hp) in Hhi.
      apply py_max_spec in Hhi. by injection Hhi. }
    subst lo hi.
    assert (Hm3 : missing_numbers r = [3]).
    { rewrite Hmiss. unfold absent_between.
      rewrite (list_filter_iff _ (λ k, k ∉ [1; 2; 4; 5]))
        by (intros k; by rewrite Hp).
      done. }
    assert (Hd0 : duplicate_numbers r = ∅).
    { apply map_empty. intros n. rewrite Hdup, names_for_length.
      assert (Hlen : length (filter (λ k, k = n) numbers) =
                     length (filter (λ k, k = n) [1; 2; 4; 5]))
        by by rewrite Hp.
      rewrite decide_False; [done|]. fold numbers. rewrite Hlen.
      rewrite !filter_cons, filter_nil. repeat case_decide; simpl; lia. }
    split; [done|]. split; [done|]. split; [|done].
    apply not_true_is_false. intros Hv. apply is_valid_iff in Hv as [Hv _].
    fold r in Hv. by rewrite Hm3 in Hv.
Qed.

(** **** C10.  When no stem matches the pattern (the empty list
    included) the report is a valid one: nothing missing, nothing
    duplicated, every file counted, no minimum and no maximum. *)
Theorem validate_sequence_no_numbers (number_in : string → option Z) (file_paths : list Path) :
  Forall (λ p, number_in (stem p) = None) file_paths →
  validate_sequence number_in file_paths =
    {| is_valid := true;
       missing_numbers := [];
       duplicate_numbers := ∅;
       total_files := length file_paths;
       min_number := None;
       max_number := None |}.
Proof.
  intros Hnone. apply collect_numbers_none in Hnone.
  unfold validate_sequence.
  rewrite (detect_missing_none _ _ Hnone), (detect_duplicates_none _ _ Hnone), Hnone.
  done.
Qed.

(** **** C9.  [get_sequence_gaps], which walks the sorted list of all
    extracted numbers with repetitions, returns the gaps between
    neighbours of the distinct sorted numbers. *)
Theorem get_sequence_gaps_distinct (number_in : string → option Z) (file_paths : list Path) :
  get_sequence_gaps number_in file_paths =
  gaps_of_distinct (collect_numbers number_in file_paths).
Proof.
  unfold get_sequence_gaps, gaps_of_distinct.
  rewrite <- adjacent_gaps_zip, <- squash_sort_distinct, squash_gaps.
  destruct (collect_numbers number_in file_paths); [|done].
  done.
Qed.

Lemma validate_sequence_report_witness :
  collect_numbers default_number_in scan_1245 = [1; 2; 4; 5] ∧
  missing_numbers (validate_sequence default_number_in scan_1245) = [3] ∧
  duplicate_numbers (validate_sequence default_number_in scan_1245) = ∅ ∧
  is_valid (validate_sequence default_number_in scan_1245) = false ∧
  min_number (validate_sequence default_number_in scan_1245) = Some 1 ∧
  max_number (validate_sequence default_number_in scan_1245) = Some 5.
Proof.
  assert (Hn : collect_numbers default_number_in scan_1245 = [1; 2; 4; 5])
    by (by vm_compute).
  split; [exact Hn|].
  assert (Hne : collect_numbers default_number_in scan_1245 ≠ [])
    by (rewrite Hn; discriminate).
  destruct (validate_sequence_report default_number_in scan_1245 Hne)
    as (_ & _ & _ & H1245).
  apply H1245. by rewrite Hn.
Defined.

Lemma validate_sequence_no_numbers_witness :
  validate_sequence default_number_in scan_unnumbered =
    {| is_valid := true; missing_numbers := []; duplicate_numbers := ∅;
       total_files := 2; min_number := None; max_number := None |}.
Proof.
  apply (validate_sequence_no_numbers default_number_in scan_unnumbered).
  repeat constructor.
Defined.

End SequenceDetectorFacts.

(** ** The rename transaction *)

Module RenamerFacts.
Import Renamer.

Section WithFileSystem.
Context {FS : Type} `{!FileSystem FS}.

Lemma rename_one_records (dry_run : bool) (fs : FS) (info : rename_info) :
  records info (rename_one dry_run fs info).2.
Proof.
  unfold rename_one, records.
  destruct dry_run; [|destruct (try_rename fs info) as [fs' [e|]]]; simpl;
    repeat split; first [done | by intros [? ?] | by eexists].
Qed.

(** A raising [rename] ends the [try] of the item and is logged. *)
Lemma rename_one_raises (fs fs' : FS) (info : rename_info) (msg : string) :
  rename_raises fs info msg fs' →
  rename_one false fs info = (fs', failure_entry info msg).
Proof.
  intros [Hne Hr]. unfold rename_one, try_rename. cbv zeta in Hr.
  rewrite decide_False by done.
  destruct (fs_exists fs (final_path info)).
  - destruct Hr as [[-> ->]|(fs1 & -> & -> & ->)]; done.
  - by destruct Hr as [-> ->].
Qed.

Lemma rename_one_passes (fs : FS) (info : rename_info) :
  (∀ msg fs', ¬ rename_raises fs info msg fs') →
  success (rename_one false fs info).2 = true ∧
  error (rename_one false fs info).2 = None.
Proof.
  intros Hno. unfold rename_one, try_rename.
  destruct (decide (original_path info = final_path info)) as [Heq|Hne]; [done|].
  assert (Hno' : ∀ msg fs',
    ¬ (if fs_exists fs (final_path info)
       then (fs_rename fs (original_path info)
               (parent (final_path info) // (".tmp_" +:+ name (final_path info)))
             = inr msg ∧ fs' = fs) ∨
            (∃ fs1, fs_rename fs (original_path info)
                      (parent (final_path info) // (".tmp_" +:+ name (final_path info)))
                    = inl fs1 ∧
                    fs_rename fs1
                      (parent (final_path info) // (".tmp_" +:+ name (final_path info)))
                      (final_path info) = inr msg ∧ fs' = fs1)
       else fs_rename fs (original_path info) (final_path info) = inr msg ∧ fs' = fs)).
  { intros msg fs' H. by apply (Hno msg fs'). }
  destruct (fs_exists fs (final_path info)).
  - destruct (fs_rename fs (original_path info) _) as [fs1|e] eqn:H1.
    + destruct (fs_rename fs1 _ (final_path info)) as [fs2|e] eqn:H2; [done|].
      destruct (Hno' e fs1). right. by exists fs1.
    + destruct (Hno' e fs). by left.
  - destruct (fs_rename fs (original_path info) (final_path info)) as [fs1|e] eqn:H1;
      [done|]. by destruct (Hno' e fs).
Qed.

Lemma run_renames_records (dry_run : bool) (plan : list rename_info) (fs : FS) :
  Forall2 records plan (run_renames dry_run fs plan).2.
Proof.
  revert fs. induction plan as [|info rest IH]; intros fs; simpl; [constructor|].
  pose proof (rename_one_records dry_run fs info) as Hr.
  destruct (rename_one dry_run fs info) as [fs1 e].
  specialize (IH fs1). destruct (run_renames dry_run fs1 rest) as [fs2 log].
  by constructor.
Qed.

Lemma run_renames_app (dry_run : bool) (before after : list rename_info) (fs : FS) :
  run_renames dry_run fs (before ++ after) =
    let '(fs1, log1) := run_renames dry_run fs before in
    let '(fs2, log2) := run_renames dry_run fs1 after in
    (fs2, log1 ++ log2).
Proof.
  revert fs. induction before as [|info rest IH]; intros fs; simpl.
  - by destruct (run_renames dry_run fs after).
  - destruct (rename_one dry_run fs info) as [fs1 e]. rewrite IH.
    destruct (run_renames dry_run fs1 rest) as [fs2 log1].
    by destruct (run_renames dry_run fs2 after).
Qed.

Lemma plan_renames_lookup (target_dir : Path) (prefix : string) (digits : Z)
    (file_paths : list Path) (idx : Z) (i : nat) (f : Path) :
  file_paths !! i = Some f →
  plan_renames target_dir prefix digits idx file_paths !! i =
    Some {| original_path := f;
            final_path := target_dir // new_name prefix digits (idx + Z.of_nat i) f;
            info_number := idx + Z.of_nat i |}.
Proof.
  revert idx i. induction file_paths as [|g rest IH]; intros idx i Hi; [done|].
  destruct i as [|i]; simpl in *.
  - injection Hi as ->. by rewrite Z.add_0_r.
  - replace (idx + Z.of_nat (S i)) with (idx + 1 + Z.of_nat i) by lia.
    by apply IH.
Qed.

Lemma plan_renames_length (target_dir : Path) (prefix : string) (digits idx : Z)
    (file_paths : list Path) :
  length (plan_renames target_dir prefix digits idx file_paths) = length file_paths.
Proof. revert idx. induction file_paths; intros idx; simpl; [done|]. by rewrite IHfile_paths. Qed.

Lemma returned_pair (p : FS * list log_entry) :
  (let '(fs2, rename_log) := p in (fs2, Returned rename_log)) = (p.1, Returned p.2).
Proof. by destruct p. Qed.

(** [rename_files] either stops on the uncaught [mkdir] of the
    backup, or runs the execution loop on the whole plan. *)
Lemma rename_files_unfold (dry_run : bool) (timestamp : string) (fs : FS)
    (file_paths : list Path) (target_dir : option string) (prefix : string)
    (digits start_number : Z) (backup : bool) :
  file_paths ≠ [] →
  let tdir := resolve_target_dir target_dir file_paths in
  let plan := plan_renames tdir prefix digits start_number file_paths in
  (∃ msg, backup = true ∧ dry_run = false ∧
      fs_mkdir fs (tdir // (".backup_" +:+ timestamp)) = inr msg ∧
      rename_files dry_run timestamp fs file_paths target_dir prefix digits
        start_number backup = (fs, Raised msg)) ∨
  (let fs1 := state_after_backup dry_run timestamp fs file_paths tdir backup in
   rename_files dry_run timestamp fs file_paths target_dir prefix digits
     start_number backup =
   ((run_renames dry_run fs1 plan).1, Returned (run_renames dry_run fs1 plan).2)).
Proof.
  intros Hne tdir plan. destruct file_paths as [|f rest]; [done|].
  unfold rename_files, state_after_backup. fold tdir. fold plan.
  destruct (backup && negb dry_run) eqn:Hb.
  - apply andb_true_iff in Hb as [-> Hd]. apply negb_true_iff in Hd as ->.
    unfold _create_backup.
    destruct (fs_mkdir fs (tdir // (".backup_" +:+ timestamp))) as [fs1|msg] eqn:Hm.
    + right. cbv zeta. cbn [fst]. apply returned_pair.
    + left. by exists msg.
  - right. cbv zeta. apply returned_pair.
Qed.

Lemma run_renames_length (dry_run : bool) (plan : list rename_info) (fs : FS) :
  length (run_renames dry_run fs plan).2 = length plan.
Proof. symmetry. eapply Forall2_length, run_renames_records. Qed.

Lemma run_renames_error_iff (dry_run : bool) (plan : list rename_info) (fs : FS) :
  Forall (λ e, is_Some (error e) ↔ success e = false) (run_renames dry_run fs plan).2.
Proof.
  pose proof (run_renames_records dry_run plan fs) as Hr.
  induction Hr as [|info e plan' log' (_ & _ & _ & He) _ IH]; by constructor.
Qed.

(** **** C5 (as amended).  For a non-empty list, [target_dir] is the
    parent of the first file unless one is given; the plan is computed
    from the arguments alone and pairs the file at position [i] with
    [target_dir / (prefix + zfill(start_number + i) + suffix)].  The
    plan is computed after the optional backup: with no backup asked,
    or in a dry run, the file system is then still untouched; otherwise
    it is in the state [_create_backup] left, unless the [mkdir] of the
    backup raised, which ends the call.  Every rename comes after the
    whole plan: the execution loop runs on it and the call returns one
    log entry per file, in input order, numbered [start_number + i]. *)
Theorem rename_files_plans_then_logs (dry_run : bool) (timestamp : string) (fs : FS)
    (file_paths : list Path) (target_dir : option string) (prefix : string)
    (digits start_number : Z) (backup : bool) :
  file_paths ≠ [] →
  let tdir := resolve_target_dir target_dir file_paths in
  let planned (i : nat) (f : Path) :=
    tdir // (prefix +:+ PyStr.zfill digits (PyStr.of_int (start_number + Z.of_nat i))
                    +:+ suffix f) in
  let plan := plan_renames tdir prefix digits start_number file_paths in
  let result :=
    rename_files dry_run timestamp fs file_paths target_dir prefix digits
      start_number backup in
  let fs1 := state_after_backup dry_run timestamp fs file_paths tdir backup in
  (match target_dir with
   | None => ∃ f rest, file_paths = f :: rest ∧ tdir = parent f
   | Some d => tdir = of_str d
   end) ∧
  (∀ i f, file_paths !! i = Some f →
     plan !! i = Some {| original_path := f;
                         final_path := planned i f;
                         info_number := start_number + Z.of_nat i |}) ∧
  length plan = length file_paths ∧
  (backup && negb dry_run = false → fs1 = fs) ∧
  ((∃ msg, result = (fs, Raised msg) ∧ backup = true ∧ dry_run = false ∧
           fs_mkdir fs (tdir // (".backup_" +:+ timestamp)) = inr msg) ∨
   (∃ rename_log,
      result = ((run_renames dry_run fs1 plan).1, Returned rename_log) ∧
      rename_log = (run_renames dry_run fs1 plan).2 ∧
      length rename_log = length file_paths ∧
      ∀ i f, file_paths !! i = Some f →
        ∃ e, rename_log !! i = Some e ∧
             original e = to_str f ∧
             new e = to_str (planned i f) ∧
             number e = start_number + Z.of_nat i)).
Proof.
  intros Hne tdir planned plan result fs1.
  assert (Hplan : ∀ i f, file_paths !! i = Some f →
     plan !! i = Some {| original_path := f;
                         final_path := planned i f;
                         info_number := start_number + Z.of_nat i |})
    by (intros i f Hi; by apply plan_renames_lookup).
  split; [|split; [done|split; [apply plan_renames_length|split]]].
  - destruct target_dir; [done|].
    destruct file_paths as [|f rest]; [done|]. by exists f, rest.
  - intros Hb. unfold fs1, state_after_backup. by rewrite Hb.
  - destruct (rename_files_unfold dry_run timestamp fs file_paths target_dir
                prefix digits start_number backup Hne)
      as [(msg & -> & -> & Hm & Hr)|Hr].
    + left. by exists msg.
    + right. eexists. split; [exact Hr|]. split; [done|].
      split; [by rewrite run_renames_length, plan_renames_length|].
      intros i f Hi.
      pose proof (run_renames_records dry_run plan
        (state_after_backup dry_run timestamp fs file_paths tdir backup)) as Hrec.
      destruct (Forall2_lookup_l _ _ _ _ _ Hrec (Hplan i f Hi))
        as (e & He & Ho & Hn & Hk & _).
      exists e. by repeat split.
Qed.


(** **** C8 (as amended).  On an empty list [rename_files] returns
    the empty log at once: it raises nothing, and the file system is
    left as it was.  The one way the call raises at all is the [mkdir]
    of the backup, on a non-empty list, outside a dry run; nothing has
    been changed by then. *)
Theorem rename_files_empty (dry_run : bool) (timestamp : string) (fs : FS)
    (target_dir : option string) (prefix : string) (digits start_number : Z)
    (backup : bool) :
  rename_files dry_run timestamp fs [] target_dir prefix digits start_number backup
  = (fs, Returned []) ∧
  (∀ file_paths fs' msg,
     rename_files dry_run timestamp fs file_paths target_dir prefix digits
       start_number backup = (fs', Raised msg) →
     file_paths ≠ [] ∧ backup = true ∧ dry_run = false ∧ fs' = fs ∧
     fs_mkdir fs (resolve_target_dir target_dir file_paths // (".backup_" +:+ timestamp))
       = inr msg).
Proof.
  split; [reflexivity|].
  intros file_paths fs' msg Hr.
  assert (Hne : file_paths ≠ []) by (intros ->; discriminate Hr).
  split; [exact Hne|].
  destruct (rename_files_unfold dry_run timestamp fs file_paths target_dir
              prefix digits start_number backup Hne)
    as [(msg' & Hb & Hd & Hm & Hr')|Hr'].
  - rewrite Hr' in Hr. injection Hr as <- <-. by repeat split.
  - cbv zeta in Hr'. rewrite Hr' in Hr. discriminate Hr.
Qed.

End WithFileSystem.

(** **** C1.  On the three-cycle the two-step rename does not protect
    the files.  Where [rename] replaces an existing destination (POSIX)
    every item reports success, yet a single file is left, the first
    page back under its old name, and the bytes of the two others are
    gone.  Where [rename] refuses an existing destination (Windows) two
    items fail and their files are left under the temporary names. *)
Theorem rename_three_cycle_loses_data :
  rename_files (FileSystem0 := posix_fs) false "" cycle_disk cycle_files
    None "" 3 1 false
  = ({[ of_str "/m/003.jpg" := "X" ]},
     Returned
       [ mkEntry "/m/003.jpg" "/m/001.jpg" 1 true None;
         mkEntry "/m/001.jpg" "/m/002.jpg" 2 true None;
         mkEntry "/m/002.jpg" "/m/003.jpg" 3 true None ]) ∧
  ¬ contents_follow_plan cycle_disk
      (rename_files (FileSystem0 := posix_fs) false "" cycle_disk cycle_files
         None "" 3 1 false).1
      (plan_renames (of_str "/m") "" 3 1 cycle_files) ∧
  rename_files (FileSystem0 := windows_fs) false "" cycle_disk cycle_files
    None "" 3 1 false
  = (<[of_str "/m/.tmp_001.jpg" := "X"]>
       (<[of_str "/m/.tmp_002.jpg" := "Y"]>
          (<[of_str "/m/003.jpg" := "Z"]> ∅)),
     Returned
       [ mkEntry "/m/003.jpg" "/m/001.jpg" 1 false
           (Some "[WinError 183] Cannot create a file when that file already exists: /m/001.jpg");
         mkEntry "/m/001.jpg" "/m/002.jpg" 2 false
           (Some "[WinError 183] Cannot create a file when that file already exists: /m/002.jpg");
         mkEntry "/m/002.jpg" "/m/003.jpg" 3 true None ]) ∧
  ¬ contents_follow_plan cycle_disk
      (rename_files (FileSystem0 := windows_fs) false "" cycle_disk cycle_files
         None "" 3 1 false).1
      (plan_renames (of_str "/m") "" 3 1 cycle_files).
Proof.
  split; [by_evaluation|]. split.
  { intros H. apply Forall_cons_1 in H as [[_ H] _]. vm_compute in H. discriminate H. }
  split; [by_evaluation|].
  intros H. apply Forall_cons_1 in H as [[_ H] _]. vm_compute in H. discriminate H.
Qed.

(** C5 as stated fails: with a backup asked for outside a dry run,
    the copies are on the disk before the plan is computed. *)
Lemma backup_precedes_planning :
  state_after_backup (FileSystem0 := posix_fs) false "20260101_000000"
    cycle_disk cycle_files (of_str "/m") true
  !! of_str "/m/.backup_20260101_000000/001.jpg" = Some "Y" ∧
  cycle_disk !! of_str "/m/.backup_20260101_000000/001.jpg" = None ∧
  state_after_backup (FileSystem0 := posix_fs) false "20260101_000000"
    cycle_disk cycle_files (of_str "/m") true
  ≠ cycle_disk.
Proof.
  split; [by vm_compute|]. split; [by vm_compute|].
  intros Heq.
  apply (f_equal (λ d : disk, d !! of_str "/m/.backup_20260101_000000/001.jpg")) in Heq.
  vm_compute in Heq. discriminate Heq.
Qed.

(** C8 as stated fails: the call on an empty list does not raise. *)
Lemma empty_batch_does_not_raise :
  ¬ ∃ msg, (rename_files (FileSystem0 := posix_fs) false "" cycle_disk []
              None "page_" 3 1 true).2 = Raised msg.
Proof. intros [msg H]. discriminate H. Qed.

Lemma rename_files_empty_witness :
  rename_files (FileSystem0 := posix_fs) false "t" blocked_disk cycle_files
    None "" 3 1 true
  = (blocked_disk, Raised "[Errno 17] File exists: '/m/.backup_t'") ∧
  cycle_files ≠ [] ∧
  disk_mkdir blocked_disk (of_str "/m/.backup_t")
  = inr "[Errno 17] File exists: '/m/.backup_t'".
Proof.
  assert (Hr : rename_files (FileSystem0 := posix_fs) false "t" blocked_disk
                 cycle_files None "" 3 1 true
               = (blocked_disk, Raised "[Errno 17] File exists: '/m/.backup_t'"))
    by by_evaluation.
  split; [exact Hr|].
  destruct (rename_files_empty (FileSystem0 := posix_fs) false "t" blocked_disk
              None "" 3 1 true) as [_ Hraise].
  destruct (Hraise _ _ _ Hr) as (Hne & _ & _ & _ & Hm).
  split; [exact Hne|exact Hm].
Defined.

Lemma rename_files_plans_then_logs_witness :
  cycle_files ≠ [] ∧
  plan_renames (of_str "/m") "" 3 1 cycle_files !! 1%nat =
    Some {| original_path := of_str "/m/001.jpg";
            final_path := of_str "/m/002.jpg";
            info_number := 2 |}.
Proof.
  assert (Hne : cycle_files ≠ []) by discriminate.
  split; [exact Hne|].
  destruct (rename_files_plans_then_logs (FileSystem0 := posix_fs) false ""
              cycle_disk cycle_files None "" 3 1 false Hne) as (_ & H & _).
  exact (H 1%nat (of_str "/m/001.jpg") eq_refl).
Defined.


End RenamerFacts.

(** ** The built-in sort *)

Module ListSortFacts.
Import ListSort.

(** Name the result of the next state-passing call. *)
Ltac next_call :=
  match goal with
  | |- context [match ?e with (_, _) => _ end] => destruct e as [? ?] eqn:?
  end.

Section ListSort.
Context {A S : Type}.
Variable lt : A → A → S → S * bool.

Lemma unsnoc_Some (l l' : list A) (x : A) :
  unsnoc l = Some (l', x) → l = l' ++ [x].
Proof.
  unfold unsnoc. destruct (last l) as [y|] eqn:Hl; [|done].
  intros [= <- <-]. apply last_Some in Hl as [l' ->].
  by rewrite removelast_last.
Qed.

Lemma unsnoc_None (l : list A) : unsnoc l = None → l = [].
Proof.
  unfold unsnoc. destruct (last l) eqn:Hl; [done|]. intros _.
  by apply last_None.
Qed.

(** Wherever a list is cut in two, forget where. *)
Ltac forget_cuts :=
  repeat match goal with
  | |- context [take ?k ?l] =>
      let H := fresh in
      pose proof (take_drop k l) as H;
      generalize dependent (take k l); generalize dependent (drop k l);
      intros;
      first [subst l
            | apply app_eq_nil in H as [-> ->]
            | rewrite <- H]
  end.

(** Likewise where a list is taken from its end. *)
Ltac forget_ends :=
  repeat match goal with
  | H : unsnoc ?l = Some _ |- _ => apply unsnoc_Some in H; try subst l
  | H : unsnoc ?l = None |- _ => apply unsnoc_None in H; try subst l
  end.

Lemma binarysort_perm (rest sorted : list A) (s : S) :
  (binarysort lt sorted rest s).2 ≡ₚ sorted ++ rest.
Proof.
  revert sorted s. induction rest as [|pivot rest IH]; intros sorted s; simpl.
  - by rewrite app_nil_r.
  - destruct sorted as [|x sorted]; [by rewrite IH|].
    next_call. rewrite IH.
    rewrite <- (take_drop n (x :: sorted)) at 3. solve_Permutation.
Qed.

Lemma merge_lo_loops_perm (fuel : nat) :
  (∀ dest a b acount bcount mg s,
     (merge_lo_straight lt fuel dest a b acount bcount mg s).2.2 ≡ₚ dest ++ a ++ b) ∧
  (∀ dest a b mg s,
     (merge_lo_gallop lt fuel dest a b mg s).2.2 ≡ₚ dest ++ a ++ b).
Proof.
  induction fuel as [|fuel [IHs IHg]]; [done|]. split.
  - intros dest a b acount bcount mg s. cbn [merge_lo_straight].
    destruct a as [|a0 a]; [done|]. destruct b as [|b0 b]; [done|].
    next_call. destruct b1.
    + destruct b as [|b1 b]; [simpl; solve_Permutation|].
      case_decide; [rewrite IHg|rewrite IHs]; solve_Permutation.
    + destruct a as [|a1 [|a2 a]]; try (simpl; solve_Permutation);
        (case_decide; [rewrite IHg|rewrite IHs]; solve_Permutation).
  - intros dest a b mg s. cbn [merge_lo_gallop].
    destruct b as [|b0 b]; [simpl; by rewrite app_nil_r|].
    next_call. forget_cuts.
    repeat case_match; simpl; subst;
      try rewrite IHg; try rewrite IHs; forget_cuts; solve_Permutation.
Qed.

Lemma merge_hi_loops_perm (fuel : nat) :
  (∀ a b dest acount bcount mg s,
     (merge_hi_straight lt fuel a b dest acount bcount mg s).2.2 ≡ₚ a ++ b ++ dest) ∧
  (∀ a b dest mg s,
     (merge_hi_gallop lt fuel a b dest mg s).2.2 ≡ₚ a ++ b ++ dest).
Proof.
  induction fuel as [|fuel [IHs IHg]]; [done|]. split.
  - intros a b dest acount bcount mg s. cbn [merge_hi_straight].
    repeat case_match; simpl; subst; forget_ends;
      try rewrite IHg; try rewrite IHs; solve_Permutation.
  - intros a b dest mg s. cbn [merge_hi_gallop].
    destruct (unsnoc b) as [[b' b9]|] eqn:Hb; forget_ends; [|done].
    next_call. forget_cuts.
    repeat case_match; cbn [fst snd]; subst; forget_ends;
      try rewrite IHg; try rewrite IHs; forget_cuts; solve_Permutation.
Qed.

Lemma merge_lo_perm (a b : list A) (mg : Z) (s : S) :
  (merge_lo lt a b mg s).2.2 ≡ₚ a ++ b.
Proof.
  unfold merge_lo. repeat case_match; cbn [fst snd]; subst;
    try rewrite (proj1 (merge_lo_loops_perm _)); solve_Permutation.
Qed.

Lemma merge_hi_perm (a b : list A) (mg : Z) (s : S) :
  (merge_hi lt a b mg s).2.2 ≡ₚ a ++ b.
Proof.
  unfold merge_hi. repeat case_match; cbn [fst snd]; subst; forget_ends;
    try rewrite (proj1 (merge_hi_loops_perm _)); solve_Permutation.
Qed.

Lemma merge_either_perm {P Q : Prop} (c : {P} + {Q}) (a b : list A) (mg : Z) (s : S) :
  (if c then merge_lo lt a b mg s else merge_hi lt a b mg s).2.2 ≡ₚ a ++ b.
Proof. destruct c; [apply merge_lo_perm|apply merge_hi_perm]. Qed.

Lemma merge_runs_perm (a b : list A) (mg : Z) (s : S) :
  (merge_runs lt a b mg s).2.2 ≡ₚ a ++ b.
Proof.
  unfold merge_runs. destruct b as [|b0 b]; [simpl; by rewrite app_nil_r|].
  next_call. forget_cuts.
  match goal with |- context [unsnoc ?l] =>
    destruct (unsnoc l) as [[a' a9]|] eqn:Hu end;
    forget_ends; [|simpl; solve_Permutation].
  next_call. case_decide.
  { replace (Z.to_nat z0) with 0%nat by lia. simpl. solve_Permutation. }
  forget_cuts.
  match goal with |- context [if ?c then merge_lo lt ?a ?b ?mg ?s else _] =>
    pose proof (merge_either_perm c a b mg s) as Hm;
    destruct (if c then merge_lo lt a b mg s else merge_hi lt a b mg s)
      as [s9 [mg9 merged]]
  end.
  simpl in *. rewrite Hm. solve_Permutation.
Qed.

Lemma merge_while_power_perm (fuel : nat) (power : Z) (p : pending (A:=A)) (mg : Z) (s : S) :
  held (merge_while_power lt fuel power p mg s).2.2 ≡ₚ held p.
Proof.
  revert p mg s. induction fuel as [|fuel IH]; intros p mg s; [done|].
  cbn [merge_while_power]. destruct p as [|[z zp] [|[y yp] rest]]; [done..|].
  case_decide; [|done].
  pose proof (merge_runs_perm y z mg s) as Hm.
  destruct (merge_runs lt y z mg s) as [s1 [mg1 yz]]. rewrite IH.
  unfold held. simpl in *. rewrite Hm. solve_Permutation.
Qed.

Lemma found_new_run_perm (listlen start n2 : Z) (p : pending (A:=A)) (mg : Z) (s : S) :
  held (found_new_run lt listlen start n2 p mg s).2.2 ≡ₚ held p.
Proof.
  unfold found_new_run. destruct p as [|[top tp] rest]; [done|].
  pose proof (merge_while_power_perm (length ((top, tp) :: rest))
    (powerloop start (Z.of_nat (length top)) n2 listlen) ((top, tp) :: rest) mg s) as Hm.
  destruct (merge_while_power _ _ _ _ _ _) as [s1 [mg1 p1]].
  rewrite <- Hm. by destruct p1 as [|[? ?] ?].
Qed.

Lemma merge_force_collapse_perm (fuel : nat) (p : pending (A:=A)) (mg : Z) (s : S) :
  held (merge_force_collapse lt fuel p mg s).2.2 ≡ₚ held p.
Proof.
  revert p mg s. induction fuel as [|fuel IH]; intros p mg s; [done|].
  cbn [merge_force_collapse]. destruct p as [|[z zp] [|[y yp] rest]]; [done..|].
  destruct rest as [|[x xp] rest].
  - pose proof (merge_runs_perm y z mg s) as Hm.
    destruct (merge_runs lt y z mg s) as [s1 [mg1 yz]]. rewrite IH.
    unfold held. simpl in *. rewrite Hm. solve_Permutation.
  - case_decide.
    + pose proof (merge_runs_perm x y mg s) as Hm.
      destruct (merge_runs lt x y mg s) as [s1 [mg1 xy]]. rewrite IH.
      unfold held. simpl in *. rewrite Hm. solve_Permutation.
    + pose proof (merge_runs_perm y z mg s) as Hm.
      destruct (merge_runs lt y z mg s) as [s1 [mg1 yz]]. rewrite IH.
      unfold held. simpl in *. rewrite Hm. solve_Permutation.
Qed.

Lemma descending_tail_le (l : list A) (prev : A) (s : S) :
  ((descending_tail lt prev l s).2 ≤ length l)%nat.
Proof.
  revert prev s. induction l as [|x l IH]; intros prev s; simpl; [done|].
  destruct (lt x prev s) as [s1 [|]]; simpl; [|lia].
  specialize (IH x s1). destruct (descending_tail lt x l s1). simpl in *. lia.
Qed.

Lemma ascending_tail_le (l : list A) (prev : A) (s : S) :
  ((ascending_tail lt prev l s).2 ≤ length l)%nat.
Proof.
  revert prev s. induction l as [|x l IH]; intros prev s; simpl; [done|].
  destruct (lt x prev s) as [s1 [|]]; simpl; [lia|].
  specialize (IH x s1). destruct (ascending_tail lt x l s1). simpl in *. lia.
Qed.

Lemma count_run_le (l : list A) (s : S) :
  ((count_run lt l s).2.1 ≤ length l)%nat.
Proof.
  destruct l as [|x0 [|x1 l]]; simpl; [done..|].
  destruct (lt x1 x0 s) as [s1 [|]].
  - pose proof (descending_tail_le l x1 s1).
    destruct (descending_tail lt x1 l s1). simpl in *. lia.
  - pose proof (ascending_tail_le l x1 s1).
    destruct (ascending_tail lt x1 l s1). simpl in *. lia.
Qed.

Lemma sort_loop_perm (fuel : nat) (listlen : Z) (minrun : nat) (lo : Z)
    (remaining : list A) (p : pending (A:=A)) (mg : Z) (s : S) :
  held (sort_loop lt fuel listlen minrun lo remaining p mg s).2.2
  ≡ₚ remaining ++ held p.
Proof.
  revert lo remaining p mg s.
  induction fuel as [|fuel IH]; intros lo remaining p mg s; [done|].
  cbn [sort_loop]. pose proof (count_run_le remaining s) as Hn.
  destruct (count_run lt remaining s) as [s1 [n descending]]. simpl in Hn.
  set (run := if descending then reverse (take n remaining) else take n remaining).
  assert (Hrun : run ≡ₚ take n remaining).
  { unfold run. destruct descending; [apply reverse_Permutation|done]. }
  clearbody run.
  match goal with |- context [match ?e with (_, _) => _ end] =>
    assert (∃ m, e.2.1 = m ∧ e.2.2 ++ drop m remaining ≡ₚ remaining) as Hext end.
  { case_decide.
    - pose proof (binarysort_perm
        (take ((if decide (length remaining ≤ minrun)%nat
                then length remaining else minrun) - n) (drop n remaining)) run s1) as Hb.
      set (force := if decide (length remaining ≤ minrun)%nat
                    then length remaining else minrun) in *.
      assert (n ≤ force)%nat by (unfold force; case_decide; lia).
      destruct (binarysort lt run _ s1) as [s2 run']. simpl in Hb |- *.
      eexists; split; [done|]. rewrite Hb, Hrun.
      rewrite <- (take_drop n remaining) at 4.
      rewrite <- app_assoc. f_equiv.
      replace (drop force remaining)
        with (drop (force - n) (drop n remaining))
        by (rewrite drop_drop; f_equal; lia).
      by rewrite take_drop.
    - simpl. eexists; split; [done|]. by rewrite Hrun, take_drop. }
  destruct Hext as (m & Hm & Hperm).
  destruct (if decide (n < minrun)%nat then _ else _) as [s2 [m' run']].
  simpl in Hm, Hperm. subst m'.
  match goal with |- context [found_new_run lt ?a ?b ?c ?d ?e ?f] =>
    pose proof (found_new_run_perm a b c d e f) as Hf;
    destruct (found_new_run lt a b c d e f) as [s3 [mg3 p3]] end.
  simpl in Hf.
  destruct (drop m remaining) as [|x rest] eqn:Hd.
  - simpl. unfold held in *. simpl. rewrite Hf, <- Hperm. solve_Permutation.
  - rewrite IH. unfold held in *. simpl. rewrite Hf, <- Hperm. solve_Permutation.
Qed.

(** Whatever the comparison answers, [list.sort] rearranges. *)
Lemma list_sort_perm (l : list A) (s : S) : (list_sort lt l s).2 ≡ₚ l.
Proof.
  unfold list_sort. case_decide; [done|].
  pose proof (sort_loop_perm (length l) (Z.of_nat (length l))
    (merge_compute_minrun (length l)) 0 l [] MIN_GALLOP s) as Hl.
  destruct (sort_loop _ _ _ _ _ _ _ _ _) as [s1 [mg1 p1]].
  pose proof (merge_force_collapse_perm (length p1) p1 mg1 s1) as Hc.
  destruct (merge_force_collapse _ _ _ _ _) as [s2 [mg2 p2]].
  simpl in *. rewrite <- fmap_reverse.
  change (held (reverse p2) ≡ₚ l). unfold held in *.
  rewrite reverse_Permutation, Hc, Hl. by rewrite app_nil_r.
Qed.


Lemma minrun_go_le (fuel n r : nat) :
  (n ≤ fuel)%nat → (r ≤ 1)%nat →
  (minrun_go fuel n r ≤ if decide (64 ≤ n)%nat then n else n + r)%nat.
Proof.
  revert n r. induction fuel as [|fuel IH]; intros n r Hn Hr; cbn [minrun_go].
  - by rewrite decide_False by lia.
  - case_decide as H64; [|done].
    assert (n / 2 ≤ fuel)%nat as Hf.
    { pose proof (Nat.div_mod_eq n 2). lia. }
    assert ((if decide (n mod 2 = 1)%nat then 1 else r) ≤ 1)%nat as Hr'
      by (case_decide; lia).
    specialize (IH _ _ Hf Hr').
    assert (n / 2 + 1 ≤ n)%nat.
    { pose proof (Nat.div_mod_eq n 2). lia. }
    repeat case_decide; lia.
Qed.

Lemma merge_compute_minrun_le (n : nat) : (merge_compute_minrun n ≤ n)%nat.
Proof.
  unfold merge_compute_minrun.
  pose proof (minrun_go_le n n 0 (le_n _) (Nat.le_0_l _)) as H.
  case_decide; lia.
Qed.

(** *** A comparison that never says "less" *)

Section Ties.
(** [I] holds of the states met on the way. *)
Variable I : S → Prop.
Hypothesis lt_ties : ∀ x y s, I s → I (lt x y s).1 ∧ (lt x y s).2 = false.

Lemma ascending_tail_ties (l : list A) (prev : A) (s : S) :
  I s →
  I (ascending_tail lt prev l s).1 ∧ (ascending_tail lt prev l s).2 = length l.
Proof.
  revert prev s. induction l as [|x l IH]; intros prev s Hs; simpl; [done|].
  destruct (lt_ties x prev s Hs) as [Hs1 Hb].
  destruct (lt x prev s) as [s1 b]. simpl in *. subst b.
  destruct (IH x s1 Hs1) as [Hs2 Hn].
  destruct (ascending_tail lt x l s1) as [s2 n]. simpl in *. by subst n.
Qed.

Lemma count_run_ties (l : list A) (s : S) :
  I s → I (count_run lt l s).1 ∧ (count_run lt l s).2 = (length l, false).
Proof.
  intros Hs. destruct l as [|x0 [|x1 l]]; simpl; [done..|].
  destruct (lt_ties x1 x0 s Hs) as [Hs1 Hb].
  destruct (lt x1 x0 s) as [s1 b]. simpl in *. subst b.
  destruct (ascending_tail_ties l x1 s1 Hs1) as [Hs2 Hn].
  destruct (ascending_tail lt x1 l s1) as [s2 n]. simpl in *. by subst n.
Qed.

(** The whole list is one ascending run: nothing moves. *)
Lemma list_sort_ties (l : list A) (s : S) :
  I s → I (list_sort lt l s).1 ∧ (list_sort lt l s).2 = l.
Proof.
  intros Hs. unfold list_sort. case_decide as Hlen; [done|].
  destruct (length l) as [|fuel] eqn:Hl; [lia|].
  cbn [sort_loop].
  destruct (count_run_ties l s Hs) as [Hs1 Hrun].
  destruct (count_run lt l s) as [s1 [n descending]]. simpl in Hs1, Hrun.
  injection Hrun as -> ->.
  pose proof (merge_compute_minrun_le (Datatypes.S fuel)) as Hmin.
  rewrite Hl. rewrite decide_False by lia.
  rewrite <- Hl, firstn_all, skipn_all. simpl.
  by rewrite app_nil_r.
Qed.

End Ties.

End ListSort.
End ListSortFacts.

(** ** The comparison cache and the content sort *)

Module VLMAnalyzerFacts.
Import VLMAnalyzer.

Section Analyzer.
Variable enable_cache : bool.
Variable world : World.

Lemma compare_hit (self : analyzer) (img1 img2 : string) (r : Z) :
  comparison_cache self !! (img1, img2) = Some r →
  compare_images_order true world img1 img2 self = (self, r).
Proof.
  intros Hc. unfold compare_images_order, cache_lookup. by rewrite Hc.
Qed.

Lemma compare_hit_reversed (self : analyzer) (img1 img2 : string) (r : Z) :
  comparison_cache self !! (img1, img2) = None →
  comparison_cache self !! (img2, img1) = Some r →
  compare_images_order true world img1 img2 self = (self, - r).
Proof.
  intros Hc Hr. unfold compare_images_order, cache_lookup. by rewrite Hc, Hr.
Qed.

(** The three ways the [try] block can end: an image could not be
    read, the model raised, or the model answered. *)
Lemma ask_oracle_cases (self : analyzer) (img1 img2 : string) :
  let self' := (ask_oracle enable_cache world self img1 img2).1 in
  let result := (ask_oracle enable_cache world self img1 img2).2 in
  tries self' = Datatypes.S (tries self) ∧
  ((oracle_log self' = oracle_log self ∧
    comparison_cache self' = comparison_cache self ∧ result = 0 ∧
    (image_to_data_uri world (tries self) img1 = None ∨
     image_to_data_uri world (tries self) img2 = None)) ∨
   (oracle_log self' = oracle_log self ++ [(img1, img2, None)] ∧
    comparison_cache self' = comparison_cache self ∧ result = 0 ∧
    ∃ u1 u2, chat_completion world (tries self) u1 u2 = None) ∨
   (∃ content,
      oracle_log self' = oracle_log self ++ [(img1, img2, Some content)] ∧
      comparison_cache self' =
        (if enable_cache then <[(img1, img2) := result]> (comparison_cache self)
         else comparison_cache self) ∧
      result = parse_verdict (PyStr.strip content) ∧
      ∃ u1 u2, chat_completion world (tries self) u1 u2 = Some content)).
Proof.
  unfold ask_oracle.
  destruct (image_to_data_uri world (tries self) img1) as [u1|] eqn:H1; simpl;
    [|split; [done|]; left; auto].
  destruct (image_to_data_uri world (tries self) img2) as [u2|] eqn:H2; simpl;
    [|split; [done|]; left; auto].
  destruct (chat_completion world (tries self) u1 u2) as [content|] eqn:Hc; simpl.
  - destruct enable_cache; simpl; (split; [done|]); right; right;
      exists content; eauto 10.
  - split; [done|]. right; left. eauto 10.
Qed.

End Analyzer.

Section Cache.
Variable world : World.
Variables a b : string.

(** Some verdict for the pair is in the cache, under either order. *)
Local Abbreviation known self :=
  (is_Some (comparison_cache self !! (a, b)) ∨ is_Some (comparison_cache self !! (b, a))).

Lemma compare_known (self : analyzer) (q : string * string) :
  known self → q = (a, b) ∨ q = (b, a) →
  (compare_images_order true world q.1 q.2 self).1 = self.
Proof.
  intros Hk Hq. unfold compare_images_order, cache_lookup.
  destruct Hq as [-> | ->]; simpl;
    destruct (comparison_cache self !! (a, b)) as [r1|] eqn:H1;
    destruct (comparison_cache self !! (b, a)) as [r2|] eqn:H2; try done;
    destruct Hk as [[? [=]]|[? [=]]].
Qed.

Lemma run_queries_known (queries : list (string * string)) (self : analyzer) :
  known self → Forall (λ q, q = (a, b) ∨ q = (b, a)) queries →
  (run_queries true world queries self).1 = self.
Proof.
  intros Hk Hq. induction Hq as [|[x y] qs Hq _ IH]; [done|].
  simpl. pose proof (compare_known self (x, y) Hk Hq) as Hc. simpl in Hc.
  destruct (compare_images_order true world x y self) as [self1 r]. simpl in Hc. subst self1.
  by destruct (run_queries true world qs self).
Qed.

Lemma run_queries_log (queries : list (string * string)) (self : analyzer) :
  Forall (λ q, q = (a, b) ∨ q = (b, a)) queries →
  ∃ failures rest,
    oracle_log (run_queries true world queries self).1
      = oracle_log self ++ failures ++ rest ∧
    Forall (λ c, ¬ answered c) failures ∧
    (length rest ≤ 1)%nat ∧
    ((∀ t u1 u2, is_Some (chat_completion world t u1 u2)) → failures = []).
Proof.
  intros Hq. revert self. induction Hq as [|[x y] qs Hq Hqs IH]; intros self.
  { exists [], []. simpl. rewrite app_nil_r. repeat split; auto. }
  destruct (decide (known self)) as [Hk|Hk].
  { rewrite (run_queries_known _ _ Hk) by by constructor.
    exists [], []. simpl. rewrite app_nil_r. repeat split; auto. }
  assert (cache_lookup true self x y = None) as Hmiss.
  { unfold cache_lookup.
    destruct (comparison_cache self !! (a, b)) as [r1|] eqn:H1; [destruct Hk; eauto|].
    destruct (comparison_cache self !! (b, a)) as [r2|] eqn:H2; [destruct Hk; eauto|].
    destruct Hq as [[= -> ->]|[= -> ->]]; by rewrite ?H1, ?H2. }
  simpl. unfold compare_images_order. rewrite Hmiss.
  destruct (ask_oracle_cases true world self x y) as [_ Hcases].
  destruct (ask_oracle true world self x y) as [self1 r]. simpl in Hcases.
  destruct Hcases as [(Hl & Hc & _)|[(Hl & Hc & _ & u1 & u2 & Hu)|(content & Hl & Hc & _)]].
  - destruct (IH self1) as (failures & rest & Hlog & Hf & Hr & Hn).
    destruct (run_queries true world qs self1) as [self2 rs]. simpl in *.
    exists failures, rest. by rewrite Hlog, Hl.
  - destruct (IH self1) as (failures & rest & Hlog & Hf & Hr & Hn).
    destruct (run_queries true world qs self1) as [self2 rs]. simpl in *.
    exists ((x, y, None) :: failures), rest. rewrite Hlog, Hl.
    split; [by rewrite <- !app_assoc|]. split.
    { constructor; [|done]. unfold answered. simpl. by intros [? ?]. }
    split; [done|]. intros Hup. specialize (Hup (tries self) u1 u2).
    rewrite Hu in Hup. by destruct Hup.
  - assert (known self1) as Hk1.
    { rewrite Hc. destruct Hq as [[= -> ->]|[= -> ->]];
        [left|right]; rewrite lookup_insert_eq; eauto. }
    pose proof (run_queries_known qs self1 Hk1 Hqs) as Hsame.
    destruct (run_queries true world qs self1) as [self2 rs]. simpl in *. subst self2.
    exists [], [(x, y, Some content)]. rewrite Hl. simpl. repeat split; auto.
Qed.

End Cache.

Section Retry.
Variable world : World.
Variables a b : string.

(** No verdict for the pair is in the cache, under either order. *)
Local Abbreviation unknown self :=
  (comparison_cache self !! (a, b) = None ∧ comparison_cache self !! (b, a) = None).
Local Abbreviation of_pair q := (q = (a, b) ∨ q = (b, a)).

Lemma unknown_miss (self : analyzer) (q : string * string) :
  unknown self → of_pair q → cache_lookup true self q.1 q.2 = None.
Proof.
  intros [H1 H2] [-> | ->]; unfold cache_lookup; simpl; by rewrite ?H1, ?H2.
Qed.

(** A try that fails: nothing is stored and the answer is [0]. *)
Lemma compare_fails (self : analyzer) (q : string * string) :
  unknown self → of_pair q → try_fails world (tries self) q →
  compare_images_order true world q.1 q.2 self
  = ({| comparison_cache := comparison_cache self;
        tries := Datatypes.S (tries self);
        oracle_log := oracle_log self ++ calls_in_vain world (tries self) [q] |}, 0).
Proof.
  intros Hu Hq Hf. unfold compare_images_order. rewrite (unknown_miss _ _ Hu Hq).
  unfold ask_oracle, try_fails in *. simpl.
  destruct (image_to_data_uri world (tries self) q.1) as [u1|]; simpl;
    [|by rewrite app_nil_r].
  destruct (image_to_data_uri world (tries self) q.2) as [u2|]; simpl;
    [|by rewrite app_nil_r].
  by rewrite Hf.
Qed.

(** A try that is answered: the verdict is stored under the key of
    the query. *)
Lemma compare_answers (self : analyzer) (q : string * string) (content : string) :
  unknown self → of_pair q → try_answers world (tries self) q content →
  compare_images_order true world q.1 q.2 self
  = ({| comparison_cache :=
          <[q := parse_verdict (PyStr.strip content)]> (comparison_cache self);
        tries := Datatypes.S (tries self);
        oracle_log := oracle_log self ++ [(q.1, q.2, Some content)] |},
     parse_verdict (PyStr.strip content)).
Proof.
  intros Hu Hq (u1 & u2 & H1 & H2 & Hc). unfold compare_images_order.
  rewrite (unknown_miss _ _ Hu Hq). unfold ask_oracle. rewrite H1, H2, Hc. simpl.
  by destruct q.
Qed.

Lemma run_queries_app (enable_cache : bool) (qs1 qs2 : list (string * string))
    (self : analyzer) :
  run_queries enable_cache world (qs1 ++ qs2) self
  = let '(self1, r1) := run_queries enable_cache world qs1 self in
    let '(self2, r2) := run_queries enable_cache world qs2 self1 in
    (self2, r1 ++ r2).
Proof.
  revert self. induction qs1 as [|[x y] qs1 IH]; intros self; simpl.
  - by destruct (run_queries enable_cache world qs2 self).
  - destruct (compare_images_order enable_cache world x y self) as [self1 r].
    rewrite IH. destruct (run_queries enable_cache world qs1 self1) as [self2 r1].
    by destruct (run_queries enable_cache world qs2 self2).
Qed.

Lemma calls_in_vain_cons (t : nat) (q : string * string) (rest : list (string * string)) :
  calls_in_vain world t (q :: rest)
  = calls_in_vain world t [q] ++ calls_in_vain world (S t) rest.
Proof. cbn [calls_in_vain]. by rewrite app_nil_r. Qed.

(** While the tries fail, every query is tried again. *)
Lemma run_queries_in_vain (pre : list (string * string)) (self : analyzer) :
  unknown self → Forall (λ q, of_pair q) pre →
  (∀ i q, pre !! i = Some q → try_fails world (tries self + i) q) →
  run_queries true world pre self
  = ({| comparison_cache := comparison_cache self;
        tries := tries self + length pre;
        oracle_log := oracle_log self ++ calls_in_vain world (tries self) pre |},
     replicate (length pre) 0).
Proof.
  intros Hu Hq. revert self Hu. induction Hq as [|[x y] pre Hq Hpre IH]; intros self Hu Hf.
  { simpl. rewrite app_nil_r, Nat.add_0_r. by destruct self. }
  cbn [run_queries].
  pose proof (compare_fails self (x, y) Hu Hq) as Hc. simpl in Hc.
  rewrite Hc by (specialize (Hf 0%nat (x, y) eq_refl); by rewrite Nat.add_0_r in Hf).
  rewrite IH; [|done|].
  - cbn [tries comparison_cache oracle_log length replicate].
    rewrite (calls_in_vain_cons (tries self) (x, y) pre), <- !app_assoc,
      Nat.add_succ_comm. simpl. by rewrite ?app_nil_r.
  - intros i q Hi. cbn [tries]. specialize (Hf (S i) q Hi).
    by replace (S (tries self) + i)%nat with (tries self + S i)%nat by lia.
Qed.

(** Once a verdict is stored under the key [q], every query of the
    pair is answered from the cache. *)
Lemma run_queries_stored (post : list (string * string)) (self : analyzer)
    (q : string * string) (v : Z) :
  of_pair q → Forall (λ q, of_pair q) post →
  comparison_cache self !! q = Some v →
  (∀ q', of_pair q' → q' ≠ q → comparison_cache self !! q' = None) →
  run_queries true world post self
  = (self, (λ q', if decide (q' = q) then v else - v) <$> post).
Proof.
  intros Hq Hpost Hv Hother. induction Hpost as [|[x y] post Hxy Hpost IH]; [done|].
  cbn [run_queries fmap list_fmap].
  assert (compare_images_order true world x y self
          = (self, if decide ((x, y) = q) then v else - v)) as ->.
  { case_decide as Heq.
    - subst q. by apply compare_hit.
    - apply compare_hit_reversed; [by apply Hother|].
      destruct Hq as [-> | ->], Hxy as [[= -> ->]|[= -> ->]]; done. }
  by rewrite IH.
Qed.

Lemma run_queries_answered (pre post : list (string * string)) (self : analyzer)
    (q : string * string) (content : string) :
  unknown self → Forall (λ q, of_pair q) pre → of_pair q → Forall (λ q, of_pair q) post →
  (∀ i q, pre !! i = Some q → try_fails world (tries self + i) q) →
  try_answers world (tries self + length pre) q content →
  let v := parse_verdict (PyStr.strip content) in
  run_queries true world (pre ++ q :: post) self
  = ({| comparison_cache := <[q := v]> (comparison_cache self);
        tries := Datatypes.S (tries self + length pre);
        oracle_log := oracle_log self ++ calls_in_vain world (tries self) pre
                        ++ [(q.1, q.2, Some content)] |},
     replicate (length pre) 0
       ++ v :: ((λ q', if decide (q' = q) then v else - v) <$> post)).
Proof.
  intros Hu Hpre Hq Hpost Hf Ha v.
  rewrite run_queries_app, (run_queries_in_vain pre self Hu Hpre Hf).
  destruct q as [x y]. cbn [run_queries].
  set (self1 := {| comparison_cache := comparison_cache self;
                   tries := tries self + length pre;
                   oracle_log := oracle_log self ++ calls_in_vain world (tries self) pre |}).
  pose proof (compare_answers self1 (x, y) content Hu Hq Ha) as Hc. simpl in Hc.
  rewrite Hc. fold v.
  rewrite (run_queries_stored post _ (x, y) v Hq Hpost).
  - simpl. by rewrite <- app_assoc.
  - simpl. apply lookup_insert_eq.
  - intros q' Hq' Hne. simpl. rewrite lookup_insert_ne by done.
    destruct Hu as [H1 H2]. by destruct Hq' as [-> | ->].
Qed.

Lemma calls_in_vain_readable (t : nat) (queries : list (string * string)) :
  (∀ t p, is_Some (image_to_data_uri world t p)) →
  calls_in_vain world t queries = (λ q, (q.1, q.2, None)) <$> queries.
Proof.
  intros Hr. revert t. induction queries as [|q rest IH]; intros t; [done|].
  cbn [calls_in_vain fmap list_fmap].
  destruct (Hr t q.1) as [u1 ->]. destruct (Hr t q.2) as [u2 ->]. simpl.
  by rewrite IH.
Qed.

End Retry.

(** **** C2 (as amended).  With the cache enabled, take any sequence of
    queries of one pair, in either order.  The calls made to the model
    are some calls that raised, followed by at most one further call;
    when the model never raises there is at most one call in all.
    While no verdict for the pair is stored and the tries fail, a query
    answers [0], stores nothing, and the next query tries again: when
    the images can be read, every one of these queries calls the model.
    The first try that is answered stores its verdict under the key of
    its query, and no later query of the sequence calls the model: a
    query with that key returns the verdict, a query of the reversed
    pair its negation.  In general a query whose key is stored returns
    the stored verdict, and a query whose reversed key alone is stored
    returns its negation; neither calls the model nor changes the
    analyzer. *)
Theorem cache_one_verdict_per_pair (world : World) (a b : string)
    (queries : list (string * string)) (self : analyzer) :
  Forall (λ q, q = (a, b) ∨ q = (b, a)) queries →
  (∃ failures rest,
     oracle_log (run_queries true world queries self).1
       = oracle_log self ++ failures ++ rest ∧
     Forall (λ c, ¬ answered c) failures ∧
     (length rest ≤ 1)%nat ∧
     ((∀ t u1 u2, is_Some (chat_completion world t u1 u2)) → failures = [])) ∧
  (comparison_cache self !! (a, b) = None →
   comparison_cache self !! (b, a) = None →
   (∀ i q, queries !! i = Some q → try_fails world (tries self + i) q) →
   run_queries true world queries self
   = ({| comparison_cache := comparison_cache self;
         tries := tries self + length queries;
         oracle_log := oracle_log self ++ calls_in_vain world (tries self) queries |},
      replicate (length queries) 0)) ∧
  (∀ pre q content post,
     queries = pre ++ q :: post →
     comparison_cache self !! (a, b) = None →
     comparison_cache self !! (b, a) = None →
     (∀ i q, pre !! i = Some q → try_fails world (tries self + i) q) →
     try_answers world (tries self + length pre) q content →
     let v := parse_verdict (PyStr.strip content) in
     run_queries true world queries self
     = ({| comparison_cache := <[q := v]> (comparison_cache self);
           tries := Datatypes.S (tries self + length pre);
           oracle_log := oracle_log self ++ calls_in_vain world (tries self) pre
                           ++ [(q.1, q.2, Some content)] |},
        replicate (length pre) 0
          ++ v :: ((λ q', if decide (q' = q) then v else - v) <$> post))) ∧
  ((∀ t p, is_Some (image_to_data_uri world t p)) →
   ∀ t, calls_in_vain world t queries = (λ q, (q.1, q.2, None)) <$> queries) ∧
  (∀ self r,
     comparison_cache self !! (a, b) = Some r →
     compare_images_order true world a b self = (self, r)) ∧
  (∀ self r,
     comparison_cache self !! (a, b) = None →
     comparison_cache self !! (b, a) = Some r →
     compare_images_order true world a b self = (self, - r)).
Proof.
  intros Hq. split; [by apply (run_queries_log world a b)|].
  split; [|split; [|split; [|split]]].
  - intros H1 H2 Hf. by apply (run_queries_in_vain world a b).
  - intros pre q content post -> H1 H2 Hf Ha.
    apply Forall_app in Hq as [Hpre Hq]. apply Forall_cons in Hq as [Hq Hpost].
    by apply (run_queries_answered world a b).
  - intros Hr t. by apply calls_in_vain_readable.
  - intros. by apply compare_hit.
  - intros. by apply compare_hit_reversed.
Qed.

(** C2 as stated fails: while the model raises, every query of the
    pair calls it again. *)
Lemma cache_retries_failed_oracle :
  ¬ (length (oracle_log
       (run_queries true world_down [("a.png", "b.png"); ("b.png", "a.png")]
          new_analyzer).1) ≤ 1)%nat.
Proof. vm_compute. lia. Qed.

Lemma cache_one_verdict_per_pair_witness :
  run_queries true world_waking
    [("a.png", "b.png"); ("b.png", "a.png"); ("a.png", "b.png")] new_analyzer
  = ({| comparison_cache := {[ ("b.png", "a.png") := 1 ]};
        tries := 2;
        oracle_log := [("a.png", "b.png", None); ("b.png", "a.png", Some "1")] |},
     [0; 1; -1]).
Proof.
  assert (Forall (λ q, q = ("a.png", "b.png") ∨ q = ("b.png", "a.png"))
            [("a.png", "b.png"); ("b.png", "a.png"); ("a.png", "b.png")]) as Hq
    by (repeat constructor; auto).
  destruct (cache_one_verdict_per_pair world_waking "a.png" "b.png" _ new_analyzer Hq)
    as (_ & _ & Hans & _).
  rewrite (Hans [("a.png", "b.png")] ("b.png", "a.png") "1" [("a.png", "b.png")]).
  - reflexivity.
  - reflexivity.
  - reflexivity.
  - reflexivity.
  - intros [|i] q [= <-]. reflexivity.
  - exists "data:b.png", "data:a.png". by vm_compute.
Defined.

(** A comparison that finds nothing in the cache and whose try fails
    answers [0] and stores nothing. *)
Lemma compare_failure_is_unknown (enable_cache : bool) (world : World)
    (self : analyzer) (img1 img2 : string) :
  cache_lookup enable_cache self img1 img2 = None →
  (image_to_data_uri world (tries self) img1 = None ∨
   image_to_data_uri world (tries self) img2 = None ∨
   ∃ u1 u2, image_to_data_uri world (tries self) img1 = Some u1 ∧
            image_to_data_uri world (tries self) img2 = Some u2 ∧
            chat_completion world (tries self) u1 u2 = None) →
  (compare_images_order enable_cache world img1 img2 self).2 = 0 ∧
  comparison_cache (compare_images_order enable_cache world img1 img2 self).1
    = comparison_cache self.
Proof.
  intros Hmiss Hfail. unfold compare_images_order. rewrite Hmiss.
  unfold ask_oracle.
  destruct Hfail as [H1|[H2|(u1 & u2 & H1 & H2 & Hc)]].
  - by rewrite H1.
  - rewrite H2. by destruct (image_to_data_uri world (tries self) img1).
  - by rewrite H1, H2, Hc.
Qed.

(** While every stored verdict and every answer of the model is [0],
    so is every comparison, and the cache stays that way. *)
Lemma compare_all_unknown (enable_cache : bool) (world : World)
    (self : analyzer) (img1 img2 : string) :
  (∀ t u1 u2 content,
     chat_completion world t u1 u2 = Some content →
     parse_verdict (PyStr.strip content) = 0) →
  (∀ key r, comparison_cache self !! key = Some r → r = 0) →
  (compare_images_order enable_cache world img1 img2 self).2 = 0 ∧
  (∀ key r,
     comparison_cache (compare_images_order enable_cache world img1 img2 self).1 !! key
       = Some r → r = 0).
Proof.
  intros Hworld Hcache. unfold compare_images_order.
  destruct (cache_lookup enable_cache self img1 img2) as [r|] eqn:Hl.
  - simpl. split; [|done]. unfold cache_lookup in Hl.
    destruct enable_cache; [|done].
    destruct (comparison_cache self !! (img1, img2)) as [r1|] eqn:H1.
    { injection Hl as <-. by eapply Hcache. }
    destruct (comparison_cache self !! (img2, img1)) as [r2|] eqn:H2; [|done].
    injection Hl as <-. by rewrite (Hcache _ _ H2).
  - destruct (ask_oracle_cases enable_cache world self img1 img2) as [_ Hcases].
    destruct (ask_oracle enable_cache world self img1 img2) as [self1 r].
    simpl in *.
    destruct Hcases as [(_ & Hc & -> & _)|[(_ & Hc & -> & _)|(content & _ & Hc & -> & u1 & u2 & Hu)]];
      rewrite Hc.
    + done.
    + done.
    + rewrite (Hworld _ _ _ _ Hu). split; [done|].
      destruct enable_cache; [|done].
      intros key r. rewrite lookup_insert. case_decide; [by intros [= <-]|by apply Hcache].
Qed.

(** **** C3.  A comparison whose try fails, because an image cannot be
    read or because the model raises, answers [0] and stores nothing;
    and whatever the model does, answering, contradicting itself or
    raising, the sort returns a rearrangement of its input: every path
    as often as it came in. *)
Theorem sort_survives_oracle_failure (enable_cache : bool) (world : World) :
  (∀ self img1 img2,
     cache_lookup enable_cache self img1 img2 = None →
     (image_to_data_uri world (tries self) img1 = None ∨
      image_to_data_uri world (tries self) img2 = None ∨
      ∃ u1 u2, image_to_data_uri world (tries self) img1 = Some u1 ∧
               image_to_data_uri world (tries self) img2 = Some u2 ∧
               chat_completion world (tries self) u1 u2 = None) →
     (compare_images_order enable_cache world img1 img2 self).2 = 0 ∧
     comparison_cache (compare_images_order enable_cache world img1 img2 self).1
       = comparison_cache self) ∧
  (∀ (H : Type) (progress_callback : option (Z → Z → H → H))
     (image_paths : list string) (self : analyzer) (host : H),
     (sort_images_by_content enable_cache world progress_callback image_paths self host).2
     ≡ₚ image_paths).
Proof.
  split; [intros; by apply compare_failure_is_unknown|].
  intros H progress_callback image_paths self host.
  unfold sort_images_by_content. case_decide; [done|].
  apply ListSortFacts.list_sort_perm.
Qed.

(** **** C4.  When every answer of the model reads as [0] and the cache
    holds no other verdict, the sort returns its input as it is. *)
Theorem sort_all_unknown_keeps_order (enable_cache : bool) (world : World)
    (H : Type) (progress_callback : option (Z → Z → H → H))
    (image_paths : list string) (self : analyzer) (host : H) :
  (∀ t u1 u2 content,
     chat_completion world t u1 u2 = Some content →
     parse_verdict (PyStr.strip content) = 0) →
  (∀ key r, comparison_cache self !! key = Some r → r = 0) →
  (sort_images_by_content enable_cache world progress_callback image_paths self host).2
  = image_paths.
Proof.
  intros Hworld Hcache. unfold sort_images_by_content. case_decide; [done|].
  apply (ListSortFacts.list_sort_ties _
    (λ ss, ∀ key r, comparison_cache (VLMAnalyzer.self ss) !! key = Some r → r = 0));
    [|done].
  intros x y ss Hss. unfold key_lt, compare_func.
  destruct (compare_all_unknown enable_cache world (VLMAnalyzer.self ss) x y Hworld Hss)
    as [Hr Hc].
  destruct (compare_images_order enable_cache world x y (VLMAnalyzer.self ss)) as [self1 r].
  simpl in *. subst r. by split.
Qed.

Lemma sort_survives_oracle_failure_witness :
  (compare_images_order true world_hiccup "p3.png" "p1.png"
     {| comparison_cache := ∅; tries := 2; oracle_log := [] |}).2 = 0 ∧
  (sort_images_by_content true world_hiccup (H := unit) None
     ["p4.png"; "p2.png"; "p1.png"; "p3.png"] new_analyzer tt).2
  ≡ₚ ["p4.png"; "p2.png"; "p1.png"; "p3.png"].
Proof.
  destruct (sort_survives_oracle_failure true world_hiccup) as [Hfail Hperm].
  split; [|apply Hperm].
  apply Hfail; [by vm_compute|].
  right; right. exists "data:p3.png", "data:p1.png". by vm_compute.
Defined.

Lemma sort_all_unknown_keeps_order_witness :
  (sort_images_by_content true world_unsure (H := unit) None
     ["p4.png"; "p2.png"; "p1.png"; "p3.png"] new_analyzer tt).2
  = ["p4.png"; "p2.png"; "p1.png"; "p3.png"].
Proof.
  apply sort_all_unknown_keeps_order.
  - intros t u1 u2 content [= <-]. by vm_compute.
  - intros key r Hk. simpl in Hk. by rewrite lookup_empty in Hk.
Defined.

End VLMAnalyzerFacts.

(** ** Strings and paths *)

Module PyStrFacts.
Import PyStr.

Local Arguments String.append !_ _ / : simpl nomatch.

Lemma string_app_nil_r (s : string) : s +:+ "" = s.
Proof. induction s as [|a s IH]; simpl; [done|]. by f_equal. Qed.

Lemma string_app_assoc (s1 s2 s3 : string) : s1 +:+ (s2 +:+ s3) = (s1 +:+ s2) +:+ s3.
Proof. induction s1 as [|a s1 IH]; simpl; [done|]. by f_equal. Qed.

Lemma string_app_length (s1 s2 : string) :
  String.length (s1 +:+ s2) = (String.length s1 + String.length s2)%nat.
Proof. induction s1 as [|a s1 IH]; simpl; [done|]. by f_equal. Qed.

Lemma rev_app_spec (s1 s2 : string) : String.rev_app s1 s2 = String.rev s1 +:+ s2.
Proof.
  unfold String.rev. revert s2. induction s1 as [|a s1 IH]; intros s2; simpl; [done|].
  rewrite (IH (String a s2)), (IH (String a "")). by rewrite <- string_app_assoc.
Qed.

Lemma rev_cons (a : ascii) (s : string) : String.rev (String a s) = String.rev s +:+ String a "".
Proof. unfold String.rev at 1. simpl. apply rev_app_spec. Qed.

(** *** Substrings *)

Lemma substring_all (s : string) : String.substring 0 (String.length s) s = s.
Proof. induction s as [|a s IH]; simpl; [done|]. by rewrite IH. Qed.

Lemma take_app (s1 s2 : string) : take (String.length s1) (s1 +:+ s2) = s1.
Proof.
  unfold take. induction s1 as [|a s1 IH]; simpl; [by destruct s2|]. by rewrite IH.
Qed.

Lemma drop_app (s1 s2 : string) : drop (String.length s1) (s1 +:+ s2) = s2.
Proof.
  unfold drop. induction s1 as [|a s1 IH]; simpl.
  - rewrite Nat.sub_0_r. apply substring_all.
  - done.
Qed.

(** *** [rfind] *)

Lemma rfind_split (c : ascii) (s : string) (i : nat) :
  rfind c s = Some i →
  ∃ e, s = take i s +:+ String c e ∧ drop i s = String c e ∧ rfind c e = None ∧
       String.length (take i s) = i.
Proof.
  revert i. induction s as [|a s IH]; intros i; simpl; [done|].
  destruct (rfind c s) as [j|] eqn:Hr.
  - intros [= <-]. destruct (IH j eq_refl) as (e & Hs & Hd & He & Hl).
    exists e. unfold take, drop in *. simpl. rewrite <- Hs. by rewrite Hl.
  - case_decide as Hac; [|done]. intros [= <-]. subst a.
    exists s. unfold take, drop. simpl. by rewrite substring_all.
Qed.

Lemma rfind_app_found (c : ascii) (s e : string) :
  rfind c e = None → rfind c (s +:+ String c e) = Some (String.length s).
Proof.
  intros He. induction s as [|a s IH]; simpl.
  - rewrite He. by rewrite decide_True.
  - by rewrite IH.
Qed.

Lemma rfind_app_None (c : ascii) (s e : string) :
  rfind c s = None → rfind c e = None → rfind c (s +:+ e) = None.
Proof.
  intros Hs He. induction s as [|a s IH]; simpl in *; [done|].
  destruct (rfind c s); [done|]. case_decide; [done|]. by rewrite IH.
Qed.

(** *** Characters a string does not have *)

Lemma lacks_cons (c a : ascii) (s : string) :
  lacks c (String a s) ↔ a ≠ c ∧ lacks c s.
Proof.
  unfold lacks. simpl. rewrite orb_false_iff, andb_true_r.
  rewrite bool_decide_eq_false. naive_solver.
Qed.

Lemma lacks_nil (c : ascii) : lacks c "".
Proof. done. Qed.

Lemma lacks_app (c : ascii) (s1 s2 : string) :
  lacks c (s1 +:+ s2) ↔ lacks c s1 ∧ lacks c s2.
Proof.
  induction s1 as [|a s1 IH]; simpl.
  - split; [by split|by intros [_ ?]].
  - rewrite !lacks_cons, IH. naive_solver.
Qed.

Lemma lacks_rfind (c : ascii) (s : string) : lacks c s ↔ rfind c s = None.
Proof.
  induction s as [|a s IH]; simpl; [done|]. rewrite lacks_cons, IH.
  destruct (rfind c s); [naive_solver|]. case_decide; naive_solver.
Qed.

Lemma lacks_startswith (c : ascii) (p s : string) :
  lacks c s → startswith (String c p) s = false.
Proof.
  destruct s as [|a s]; [done|]. rewrite lacks_cons. intros [Hac _]. simpl.
  by rewrite bool_decide_eq_false_2.
Qed.

(** *** [split] *)

Lemma split_go_lacks (sep : ascii) (s cur : string) :
  lacks sep cur → Forall (lacks sep) (split_go sep cur s).
Proof.
  revert cur. induction s as [|a s IH]; intros cur Hcur; simpl.
  - constructor; [|done]. clear -Hcur.
    induction cur as [|b cur IH]; [done|].
    apply lacks_cons in Hcur as [? ?]. rewrite rev_cons, lacks_app. split; [auto|].
    by apply lacks_cons.
  - case_decide.
    + constructor; [|by apply IH]. clear -Hcur.
      induction cur as [|b cur IH]; [done|].
      apply lacks_cons in Hcur as [? ?]. rewrite rev_cons, lacks_app. split; [auto|].
      by apply lacks_cons.
    + apply IH. by apply lacks_cons.
Qed.

Lemma split_lacks (sep : ascii) (s : string) : Forall (lacks sep) (split sep s).
Proof. by apply split_go_lacks. Qed.

Lemma split_go_whole (sep : ascii) (s cur : string) :
  lacks sep s → split_go sep cur s = [String.rev cur +:+ s].
Proof.
  revert cur. induction s as [|a s IH]; intros cur Hs; simpl.
  - by rewrite string_app_nil_r.
  - apply lacks_cons in Hs as [? ?]. rewrite decide_False by done.
    rewrite IH by done. by rewrite rev_cons, <- string_app_assoc.
Qed.

Lemma split_whole (sep : ascii) (s : string) : lacks sep s → split sep s = [s].
Proof. intros. unfold split. by rewrite split_go_whole. Qed.

(** *** Digits *)

Lemma is_digit_pretty_N_char (x : N) : is_digit (pretty_N_char x) = true.
Proof. unfold pretty_N_char. by repeat case_match. Qed.

Lemma digit_value_pretty_N_char (x : N) :
  (x < 10)%N → digit_value (pretty_N_char x) = Some (Z.of_N x).
Proof.
  intros Hx.
  assert (x = 0 ∨ x = 1 ∨ x = 2 ∨ x = 3 ∨ x = 4 ∨ x = 5 ∨ x = 6 ∨ x = 7
          ∨ x = 8 ∨ x = 9)%N as Hc by lia.
  repeat destruct Hc as [->|Hc]; try done. by subst.
Qed.

Lemma pretty_N_go_digits (x : N) (s : string) :
  all_digits s → all_digits (pretty_N_go x s).
Proof.
  revert s. induction (N.lt_wf_0 x) as [x _ IH]; intros s Hs.
  assert (x = 0 ∨ 0 < x)%N as [->|?] by lia; [by rewrite pretty_N_go_0|].
  rewrite pretty_N_go_step by done. apply IH; [by apply N.div_lt|].
  unfold all_digits. simpl. rewrite is_digit_pretty_N_char. by rewrite Hs.
Qed.

Lemma pretty_N_go_value (x : N) (s : string) :
  ∃ p, ∀ acc, int_go acc (pretty_N_go x s) = int_go (acc * p + Z.of_N x) s.
Proof.
  revert s. induction (N.lt_wf_0 x) as [x _ IH]; intros s.
  assert (x = 0 ∨ 0 < x)%N as [->|?] by lia.
  { exists 1. intros acc. rewrite pretty_N_go_0. f_equal. lia. }
  rewrite pretty_N_go_step by done.
  destruct (IH (x `div` 10)%N (N.div_lt x 10 ltac:(done) eq_refl)
              (String (pretty_N_char (x `mod` 10)) s)) as [p Hp].
  exists (10 * p). intros acc. rewrite Hp. simpl.
  rewrite digit_value_pretty_N_char by (apply N.mod_lt; lia).
  f_equal. rewrite (N.div_mod x 10) at 3 by done. lia.
Qed.

Lemma pretty_nonneg (n : Z) : 0 ≤ n → pretty n = pretty (Z.to_N n).
Proof. intros Hn. by destruct n. Qed.

Lemma pretty_N_digits (x : N) : all_digits (pretty x) ∧ pretty x ≠ "".
Proof.
  unfold pretty, pretty_N. case_decide as Hx; [done|]. split.
  - by apply pretty_N_go_digits.
  - rewrite pretty_N_go_step by lia. intros Hn.
    assert (Hl : ∀ y s, s ≠ "" → pretty_N_go y s ≠ "").
    { intros y. induction (N.lt_wf_0 y) as [y _ IH]; intros s Hs.
      assert (y = 0 ∨ 0 < y)%N as [->|?] by lia; [by rewrite pretty_N_go_0|].
      rewrite pretty_N_go_step by done. apply IH; [by apply N.div_lt|done]. }
    by apply Hl in Hn.
Qed.

Lemma int_of_digits_pretty_N (x : N) : int_of_digits (pretty x) = Z.of_N x.
Proof.
  unfold pretty, pretty_N, int_of_digits. case_decide as Hx; [by subst|].
  destruct (pretty_N_go_value x "") as [p Hp]. rewrite Hp. simpl. lia.
Qed.

Lemma all_digits_zeros (n : nat) : all_digits (zeros n).
Proof. unfold all_digits. induction n as [|n IH]; simpl; [done|]. by rewrite IH. Qed.

Lemma all_digits_app (s1 s2 : string) :
  all_digits s1 → all_digits s2 → all_digits (s1 +:+ s2).
Proof.
  unfold all_digits. induction s1 as [|a s1 IH]; simpl; [done|].
  destruct (is_digit a); [|done]. intros [= H1] H2. by rewrite IH.
Qed.

Lemma int_go_zeros (n : nat) (s : string) : int_go 0 (zeros n +:+ s) = int_go 0 s.
Proof. induction n as [|n IH]; simpl; [done|]. apply IH. Qed.

(** [str(n).zfill(width)] for [n ≥ 0]: a non-empty run of digits that
    reads back as [n]. *)
Lemma zfill_digits (width n : Z) :
  0 ≤ n →
  let s := zfill width (of_int n) in
  all_digits s ∧ s ≠ "" ∧ int_of_digits s = n.
Proof.
  intros Hn. unfold of_int. rewrite pretty_nonneg by done.
  destruct (pretty_N_digits (Z.to_N n)) as [Hd Hne].
  pose proof (int_of_digits_pretty_N (Z.to_N n)) as Hv.
  generalize dependent (pretty (Z.to_N n)). intros s Hd Hne Hv.
  unfold zfill. case_decide; [split; [done|split; [done|lia]]|].
  destruct s as [|c rest]; [done|].
  rewrite decide_False.
  2:{ unfold all_digits in Hd. simpl in Hd. intros [->| ->]; done. }
  split; [apply all_digits_app; [apply all_digits_zeros|done]|].
  split; [by destruct (zeros _)|].
  unfold int_of_digits in *. rewrite int_go_zeros. lia.
Qed.

Lemma take_digits_all (d s : string) :
  all_digits d → take_digits (d +:+ s) = d +:+ take_digits s.
Proof.
  unfold all_digits. induction d as [|a d IH]; simpl; [done|].
  destruct (is_digit a); [|done]. intros [= Hd]. by rewrite IH.
Qed.

Lemma search_digits_app (p d : string) :
  no_digit p → all_digits d → d ≠ "" → search_digits (p +:+ d) = Some d.
Proof.
  unfold no_digit. intros Hp Hd Hne. induction p as [|a p IH]; simpl in *.
  - destruct d as [|a d]; [done|]. unfold all_digits in Hd. simpl in *.
    destruct (is_digit a); [|done]. by injection Hd as ->.
  - destruct (is_digit a); [done|]. by apply IH.
Qed.

End PyStrFacts.

Module PathLibFacts.
Import PyStr PyStrFacts.

Local Arguments String.append !_ _ / : simpl nomatch.

Lemma is_root_lacks (c : string) : lacks "/" c → is_root c = false.
Proof.
  intros Hc. unfold is_root. apply orb_false_iff.
  split; apply bool_decide_eq_false; intros ->; done.
Qed.

(** The components of [Path(s)] after the root: none is empty, none
    is ["."], none holds a slash. *)
Lemma of_str_parts (s : string) :
  ∃ comps, of_str s = root_of s ++ comps ∧
           Forall (λ c, lacks "/" c ∧ c ≠ "" ∧ c ≠ ".") comps.
Proof.
  eexists. split; [done|]. apply Forall_forall. intros c Hc.
  apply list_elem_of_filter in Hc as [[? ?] Hc].
  split; [|done]. pose proof (split_lacks "/" s) as Hs.
  by eapply Forall_forall in Hs.
Qed.

Lemma root_of_cases (s : string) : root_of s = [] ∨ root_of s = ["/"] ∨ root_of s = ["//"].
Proof. unfold root_of. repeat case_match; auto. Qed.

Lemma name_snoc (p : Path) (c : string) : lacks "/" c → name (p ++ [c]) = c.
Proof. intros Hc. unfold name. by rewrite last_snoc, is_root_lacks. Qed.

Lemma name_of_str_lacks (s : string) : lacks "/" (name (of_str s)).
Proof.
  destruct (of_str_parts s) as (comps & -> & Hc).
  destruct comps as [|c comps _] using rev_ind.
  - rewrite app_nil_r. by destruct (root_of_cases s) as [->|[->| ->]].
  - apply Forall_app in Hc as [_ Hc]. apply Forall_singleton in Hc as [Hc _].
    by rewrite app_assoc, name_snoc.
Qed.

Lemma of_str_single (s : string) :
  lacks "/" s → s ≠ "" → s ≠ "." → of_str s = [s].
Proof.
  intros Hs Hne Hnd. unfold of_str, root_of.
  rewrite !lacks_startswith by done. rewrite split_whole by done.
  simpl. rewrite filter_cons, decide_True by done. done.
Qed.

Lemma joinpath_single (p : Path) (s : string) :
  lacks "/" s → s ≠ "" → s ≠ "." → p // s = p ++ [s].
Proof.
  intros Hs Hne Hnd. unfold joinpath. rewrite of_str_single by done.
  simpl. by rewrite is_root_lacks.
Qed.

Lemma stem_suffix_name (p : Path) : name p = stem p +:+ suffix p.
Proof.
  unfold stem, suffix. destruct (rfind "." (name p)) as [i|] eqn:Hr.
  - case_decide; [|by rewrite string_app_nil_r].
    destruct (rfind_split _ _ _ Hr) as (e & Hs & Hd & He & Hl). by rewrite Hd.
  - by rewrite string_app_nil_r.
Qed.

Lemma suffix_extension_like (p : Path) : extension_like (suffix p).
Proof.
  unfold suffix. destruct (rfind "." (name p)) as [i|] eqn:Hr; [|by left].
  case_decide as Hi; [|by left]. right.
  destruct (rfind_split _ _ _ Hr) as (e & Hs & Hd & He & Hl).
  exists e. split; [done|]. split; [|by apply lacks_rfind].
  intros ->. rewrite Hs, string_app_length, Hl in Hi. simpl in Hi. lia.
Qed.

Lemma suffix_lacks (c : ascii) (p : Path) : lacks c (name p) → lacks c (suffix p).
Proof. rewrite (stem_suffix_name p) at 1. rewrite lacks_app. by intros [_ ?]. Qed.

(** How pathlib takes apart a name put together from a stem and an
    extension. *)
Lemma stem_suffix_built (p : Path) (pre ext : string) :
  name p = pre +:+ ext → pre ≠ "" → lacks "." pre → extension_like ext →
  stem p = pre ∧ suffix p = ext.
Proof.
  intros Hn Hpre Hdot [->|(e & -> & Hne & He)]; unfold stem, suffix; rewrite Hn.
  - rewrite string_app_nil_r. apply lacks_rfind in Hdot. by rewrite Hdot.
  - rewrite rfind_app_found by by apply lacks_rfind.
    assert (0 < String.length pre < String.length (pre +:+ String "." e) - 1)%nat.
    { rewrite string_app_length. simpl.
      destruct pre; [done|]. destruct e; [done|]. simpl. lia. }
    rewrite !decide_True by done. by rewrite take_app, drop_app.
Qed.

End PathLibFacts.

(** ** More on the sequence report *)

Module SequenceReportFacts.
Import SequenceDetector SequenceDetectorFacts.

Section More.
Variable number_in : string → option Z.

Lemma sort_perm_eq (l1 l2 : list Z) : l1 ≡ₚ l2 → sort l1 = sort l2.
Proof.
  intros Hp. apply sorted_le_unique; [apply sort_sorted..|].
  by rewrite !sort_perm.
Qed.

Lemma collect_numbers_perm (fs1 fs2 : list Path) :
  fs1 ≡ₚ fs2 → collect_numbers number_in fs1 ≡ₚ collect_numbers number_in fs2.
Proof. intros Hp. unfold collect_numbers. by rewrite Hp. Qed.

Lemma detect_missing_perm (fs1 fs2 : list Path) :
  fs1 ≡ₚ fs2 → detect_missing number_in fs1 = detect_missing number_in fs2.
Proof.
  intros Hp. pose proof (collect_numbers_perm _ _ Hp) as Hn.
  destruct (collect_numbers number_in fs1) as [|x l] eqn:H1.
  { apply Permutation_nil_l in Hn.
    by rewrite !detect_missing_none. }
  assert (collect_numbers number_in fs2 ≠ []) as H2.
  { intros H2. rewrite H2 in Hn. by apply Permutation_nil_r in Hn. }
  destruct (py_min_is_Some (x :: l)) as [lo Hlo]; [done|].
  destruct (py_max_is_Some (x :: l)) as [hi Hhi]; [done|].
  rewrite (detect_missing_between number_in fs1 lo hi) by by rewrite H1.
  rewrite (detect_missing_between number_in fs2 lo hi)
    by (by rewrite <- ?(py_min_perm _ _ Hn), <- ?(py_max_perm _ _ Hn)).
  rewrite H1. unfold absent_between. apply list_filter_iff.
  intros k. by rewrite Hn.
Qed.

Lemma get_sequence_gaps_perm (fs1 fs2 : list Path) :
  fs1 ≡ₚ fs2 → get_sequence_gaps number_in fs1 = get_sequence_gaps number_in fs2.
Proof.
  intros Hp. rewrite !get_sequence_gaps_distinct.
  unfold gaps_of_distinct, distinct_sorted.
  assert ((list_to_set (collect_numbers number_in fs1) : gset Z)
          = list_to_set (collect_numbers number_in fs2)) as ->; [|done].
  apply set_eq. intros k. rewrite !elem_of_list_to_set.
  by rewrite (collect_numbers_perm _ _ Hp).
Qed.

Lemma names_for_perm (n : Z) (fs1 fs2 : list Path) :
  fs1 ≡ₚ fs2 → names_for number_in n fs1 ≡ₚ names_for number_in n fs2.
Proof. intros Hp. unfold names_for. by rewrite Hp. Qed.

Lemma sorted_head_min (s : list Z) (x : Z) :
  Sorted Z.le s → head s = Some x → is_min x s.
Proof.
  intros Hs Hh. destruct s as [|y s]; [done|]. injection Hh as ->.
  apply Sorted_StronglySorted in Hs; [|apply _].
  apply StronglySorted_inv in Hs as [_ Hall].
  split; [left|]. intros z Hz. apply elem_of_cons in Hz as [->|Hz]; [done|].
  by eapply Forall_forall in Hall.
Qed.

Lemma sorted_last_max (s : list Z) (x : Z) :
  Sorted Z.le s → last s = Some x → is_max x s.
Proof.
  intros Hs Hl. apply Sorted_StronglySorted in Hs; [|apply _].
  apply last_Some in Hl as [s' ->].
  apply StronglySorted_app in Hs as (Hall & _ & _).
  split; [apply elem_of_app; right; left|].
  intros z Hz. apply elem_of_app in Hz as [Hz|Hz].
  - apply Hall; [done|left].
  - apply list_elem_of_singleton in Hz as ->. done.
Qed.

(** In an ascending list the numbers strictly inside a gap are the
    numbers between its ends that it does not hold. *)
Lemma gaps_cover (s : list Z) (k : Z) :
  Sorted Z.le s →
  (∃ a b, (a, b) ∈ adjacent_gaps s ∧ a < k < b) ↔
  (∃ lo hi, head s = Some lo ∧ last s = Some hi ∧ lo ≤ k ≤ hi) ∧ k ∉ s.
Proof.
  induction s as [|x [|y t] IH]; intros Hs.
  - split; [intros (a & b & H & _); by apply elem_of_nil in H|].
    by intros [(lo & hi & ? & _) _].
  - split; [intros (a & b & H & _); by apply elem_of_nil in H|].
    intros [(lo & hi & [= <-] & [= <-] & Hk) Hn].
    destruct Hn. assert (k = x) as -> by lia. left.
  - pose proof Hs as Hs'. apply Sorted_inv in Hs' as [Hyt Hxy].
    apply HdRel_inv in Hxy. specialize (IH Hyt).
    destruct (last (y :: t)) as [hi|] eqn:Hhi; [|by apply last_None in Hhi].
    pose proof (sorted_last_max _ _ Hyt Hhi) as [_ Hmax].
    pose proof (sorted_head_min (y :: t) y Hyt eq_refl) as [_ Hmin].
    rewrite last_cons_cons, Hhi.
    change (adjacent_gaps (x :: y :: t)) with
      (if decide (y - x > 1) then (x, y) :: adjacent_gaps (y :: t)
       else adjacent_gaps (y :: t)).
    split.
    + intros (a & b & Hab & Hk).
      assert ((a = x ∧ b = y) ∨ (a, b) ∈ adjacent_gaps (y :: t)) as [[-> ->]|Hin].
      { case_decide; [|by right]. apply elem_of_cons in Hab as [[= -> ->]|?]; auto. }
      * split; [exists x, hi; repeat split; try done; [lia|]|].
        { specialize (Hmax y ltac:(left)). lia. }
        intros Hin. apply elem_of_cons in Hin as [->|Hin]; [lia|].
        specialize (Hmin k Hin). lia.
      * destruct (proj1 IH) as [(lo' & hi' & [= <-] & [= <-] & Hk') Hn]; [eauto|].
        split; [exists x, hi; repeat split; try done; lia|].
        intros Hin'. apply elem_of_cons in Hin' as [->|Hin']; [|done].
        assert (x = y) as -> by lia. destruct Hn. left.
    + intros [(lo & hi' & [= <-] & [= <-] & Hk) Hn].
      rewrite not_elem_of_cons in Hn. destruct Hn as [Hne Hn].
      destruct (decide (k < y)) as [Hlt|Hge].
      * exists x, y. split; [|lia]. rewrite decide_True by lia. left.
      * destruct (proj2 IH) as (a & b & Hab & Hk'); [split; [|done]; exists y, hi; repeat split; try done; lia|].
        exists a, b. split; [|done]. case_decide; [by right|done].
Qed.

(** **** X1.  The missing numbers are the integers that lie strictly
    inside a reported gap: [detect_missing] and [get_sequence_gaps]
    describe the same holes. *)
Theorem missing_numbers_fill_gaps (file_paths : list Path) (k : Z) :
  k ∈ detect_missing number_in file_paths ↔
  ∃ a b, (a, b) ∈ get_sequence_gaps number_in file_paths ∧ a < k < b.
Proof.
  unfold get_sequence_gaps.
  destruct (collect_numbers number_in file_paths) as [|x l] eqn:Hn.
  { rewrite detect_missing_none by done. split.
    - intros H. by apply elem_of_nil in H.
    - intros (a & b & H & _). by apply elem_of_nil in H. }
  destruct (py_min_is_Some (x :: l)) as [lo Hlo]; [done|].
  destruct (py_max_is_Some (x :: l)) as [hi Hhi]; [done|].
  rewrite (detect_missing_between number_in file_paths lo hi) by by rewrite Hn.
  rewrite Hn. unfold absent_between.
  rewrite list_elem_of_filter, elem_of_seqZ.
  rewrite (gaps_cover (sort (x :: l)) k (sort_sorted _)).
  rewrite (sort_perm (x :: l)).
  assert (∀ lo', head (sort (x :: l)) = Some lo' ↔ lo' = lo) as Hhead.
  { intros lo'. split.
    - intros Hh. apply sorted_head_min in Hh; [|apply sort_sorted].
      apply (is_min_perm _ _ _ (sort_perm _)), py_min_spec in Hh. congruence.
    - intros ->. destruct (sort (x :: l)) as [|z s] eqn:Hs.
      { pose proof (sort_perm (x :: l)) as Hp. rewrite Hs in Hp.
        by apply Permutation_nil_l in Hp. }
      pose proof (sorted_head_min (z :: s) z) as Hz. rewrite <- Hs in Hz.
      specialize (Hz (sort_sorted _)). rewrite Hs in Hz. specialize (Hz eq_refl).
      rewrite <- Hs in Hz.
      apply (is_min_perm _ _ _ (sort_perm _)), py_min_spec in Hz. simpl. congruence. }
  assert (∀ hi', last (sort (x :: l)) = Some hi' ↔ hi' = hi) as Hlast.
  { intros hi'. split.
    - intros Hh. apply sorted_last_max in Hh; [|apply sort_sorted].
      apply (is_max_perm _ _ _ (sort_perm _)), py_max_spec in Hh. congruence.
    - intros ->. destruct (last (sort (x :: l))) as [z|] eqn:Hs.
      + pose proof (sorted_last_max _ _ (sort_sorted _) Hs) as Hz.
        apply (is_max_perm _ _ _ (sort_perm _)), py_max_spec in Hz. congruence.
      + apply last_None in Hs. pose proof (sort_perm (x :: l)) as Hp. rewrite Hs in Hp.
        by apply Permutation_nil_l in Hp. }
  split.
  - intros [Hnot Hk]. split; [|done]. exists lo, hi.
    split; [by apply Hhead|]. split; [by apply Hlast|]. lia.
  - intros [(lo' & hi' & Hl & Hh & Hk) Hnot].
    apply Hhead in Hl as ->. apply Hlast in Hh as ->. split; [done|lia].
Qed.

Lemma NoDup_count (l : list Z) :
  NoDup l ↔ ∀ n, (length (filter (λ k, k = n) l) ≤ 1)%nat.
Proof.
  induction l as [|x l IH].
  - split; [intros _ n; simpl; lia|constructor].
  - rewrite NoDup_cons, IH. split.
    + intros [Hx Hl] n. rewrite filter_cons. case_decide as Hxn; [|apply Hl].
      subst. simpl. destruct (filter (λ k, k = n) l) as [|y f] eqn:Hf; [simpl; lia|].
      assert (y ∈ filter (λ k, k = n) l) as Hy by (rewrite Hf; left).
      apply list_elem_of_filter in Hy as [-> Hy]. done.
    + intros Hc. split.
      * intros Hx. specialize (Hc x). rewrite filter_cons, decide_True in Hc by done.
        simpl in Hc.
        assert (x ∈ filter (λ k, k = x) l) as Hy by by apply list_elem_of_filter.
        destruct (filter (λ k, k = x) l); [by apply elem_of_nil in Hy|simpl in Hc; lia].
      * intros n. specialize (Hc n). rewrite filter_cons in Hc.
        case_decide; simpl in Hc; lia.
Qed.

Lemma no_duplicates_NoDup (file_paths : list Path) :
  detect_duplicates number_in file_paths = ∅ ↔
  NoDup (collect_numbers number_in file_paths).
Proof.
  rewrite NoDup_count, map_empty. split.
  - intros He n. specialize (He n).
    rewrite detect_duplicates_lookup, names_for_length in He.
    case_decide; [done|lia].
  - intros Hc n. rewrite detect_duplicates_lookup, names_for_length.
    specialize (Hc n). rewrite decide_False; [done|lia].
Qed.

Lemma clean_consecutive (file_paths : list Path) :
  detect_missing number_in file_paths = [] →
  detect_duplicates number_in file_paths = ∅ →
  ∃ lo, collect_numbers number_in file_paths
        ≡ₚ seqZ lo (Z.of_nat (length (collect_numbers number_in file_paths))).
Proof.
  rewrite no_duplicates_NoDup.
  destruct (collect_numbers number_in file_paths) as [|x l] eqn:Hn.
  { intros _ _. exists 0. by rewrite seqZ_nil. }
  destruct (py_min_is_Some (x :: l)) as [lo Hlo]; [done|].
  destruct (py_max_is_Some (x :: l)) as [hi Hhi]; [done|].
  rewrite (detect_missing_between number_in file_paths lo hi) by by rewrite Hn.
  rewrite Hn. unfold absent_between.
  pose proof (proj1 (py_min_spec _ _) Hlo) as [Hlo_in Hlo_le].
  pose proof (proj1 (py_max_spec _ _) Hhi) as [Hhi_in Hhi_ge].
  intros Hmiss Hnd. exists lo.
  assert (x :: l ≡ₚ seqZ lo (hi - lo + 1)) as Hp.
  { apply NoDup_Permutation; [done|apply NoDup_seqZ|].
    intros k. rewrite elem_of_seqZ. split.
    - intros Hk. specialize (Hlo_le k Hk). specialize (Hhi_ge k Hk). lia.
    - intros Hk. destruct (decide (k ∈ x :: l)) as [|Hnot]; [done|].
      assert (k ∈ filter (λ k, k ∉ x :: l) (seqZ lo (hi - lo + 1))) as Hin
        by (apply list_elem_of_filter; split; [done|apply elem_of_seqZ; lia]).
      rewrite Hmiss in Hin. by apply elem_of_nil in Hin. }
  assert (Z.of_nat (length (x :: l)) = hi - lo + 1) as ->; [|done].
  rewrite Hp, length_seqZ. specialize (Hlo_le hi Hhi_in). lia.
Qed.

Lemma consecutive_clean (file_paths : list Path) (lo : Z) :
  collect_numbers number_in file_paths
  ≡ₚ seqZ lo (Z.of_nat (length (collect_numbers number_in file_paths))) →
  detect_missing number_in file_paths = [] ∧
  detect_duplicates number_in file_paths = ∅.
Proof.
  rewrite no_duplicates_NoDup.
  destruct (collect_numbers number_in file_paths) as [|x l] eqn:Hn.
  { rewrite detect_missing_none by done. intros _. split; [done|constructor]. }
  destruct (py_min_is_Some (x :: l)) as [lo0 Hlo]; [done|].
  destruct (py_max_is_Some (x :: l)) as [hi Hhi]; [done|].
  rewrite (detect_missing_between number_in file_paths lo0 hi) by by rewrite Hn.
  rewrite Hn. unfold absent_between.
  intros Hp. split; [|rewrite Hp; apply NoDup_seqZ].
  assert (lo0 = lo) as ->.
  { apply py_min_spec in Hlo. apply (is_min_perm _ _ _ Hp) in Hlo as [Hin Hle].
    apply elem_of_seqZ in Hin.
    assert (lo ∈ seqZ lo (Z.of_nat (length (x :: l)))) as Hin'
      by (apply elem_of_seqZ; simpl; lia).
    specialize (Hle _ Hin'). lia. }
  assert (hi = lo + Z.of_nat (length (x :: l)) - 1) as ->.
  { apply py_max_spec in Hhi. apply (is_max_perm _ _ _ Hp) in Hhi as [Hin Hge].
    apply elem_of_seqZ in Hin.
    assert (lo + Z.of_nat (length (x :: l)) - 1 ∈ seqZ lo (Z.of_nat (length (x :: l)))) as Hin'
      by (apply elem_of_seqZ; simpl; lia).
    specialize (Hge _ Hin'). lia. }
  replace (lo + Z.of_nat (length (x :: l)) - 1 - lo + 1)
    with (Z.of_nat (length (x :: l))) by lia.
  destruct (filter _ _) as [|k ks] eqn:Hf; [done|].
  assert (k ∈ filter (λ k, k ∉ x :: l) (seqZ lo (Z.of_nat (length (x :: l))))) as Hk
    by (rewrite Hf; left).
  apply list_elem_of_filter in Hk as [Hnot Hk]. destruct Hnot. by rewrite Hp.
Qed.

(** **** X2.  A sequence is reported valid exactly when the extracted
    numbers are consecutive integers, each carried by one file. *)
Theorem is_valid_consecutive (file_paths : list Path) :
  is_valid (validate_sequence number_in file_paths) = true ↔
  ∃ lo, collect_numbers number_in file_paths
        ≡ₚ seqZ lo (Z.of_nat (length (collect_numbers number_in file_paths))).
Proof.
  rewrite is_valid_iff. simpl. split.
  - intros [Hm Hd]. by apply clean_consecutive.
  - intros [lo Hp]. by apply (consecutive_clean _ lo).
Qed.

(** **** X3.  The report does not depend on the order in which the
    files are given, up to the order of the names listed under a
    duplicated number; nor do the gaps. *)
Theorem validate_sequence_order_free (fs1 fs2 : list Path) :
  fs1 ≡ₚ fs2 →
  let r1 := validate_sequence number_in fs1 in
  let r2 := validate_sequence number_in fs2 in
  is_valid r1 = is_valid r2 ∧
  missing_numbers r1 = missing_numbers r2 ∧
  total_files r1 = total_files r2 ∧
  min_number r1 = min_number r2 ∧
  max_number r1 = max_number r2 ∧
  dom (duplicate_numbers r1) = dom (duplicate_numbers r2) ∧
  (∀ n names1, duplicate_numbers r1 !! n = Some names1 →
     ∃ names2, duplicate_numbers r2 !! n = Some names2 ∧ names1 ≡ₚ names2) ∧
  get_sequence_gaps number_in fs1 = get_sequence_gaps number_in fs2.
Proof.
  intros Hp r1 r2.
  pose proof (collect_numbers_perm _ _ Hp) as Hn.
  assert (Hdup : ∀ n names1, duplicate_numbers r1 !! n = Some names1 →
     ∃ names2, duplicate_numbers r2 !! n = Some names2 ∧ names1 ≡ₚ names2).
  { intros n names1. simpl. rewrite !detect_duplicates_lookup.
    pose proof (names_for_perm n _ _ Hp) as Hnames.
    case_decide as H1; [|done]. intros [= <-].
    rewrite decide_True by by rewrite <- Hnames. eauto. }
  assert (Hdup' : ∀ n names2, duplicate_numbers r2 !! n = Some names2 →
     ∃ names1, duplicate_numbers r1 !! n = Some names1).
  { intros n names2. simpl. rewrite !detect_duplicates_lookup.
    pose proof (names_for_perm n _ _ Hp) as Hnames.
    case_decide as H1; [|done]. intros _.
    rewrite decide_True by by rewrite Hnames. eauto. }
  assert (Hmiss : missing_numbers r1 = missing_numbers r2)
    by by apply detect_missing_perm.
  assert (Hdom : dom (duplicate_numbers r1) = dom (duplicate_numbers r2)).
  { apply set_eq. intros n. rewrite !elem_of_dom. split.
    - intros [names1 H1]. destruct (Hdup _ _ H1) as (? & ? & _). eauto.
    - intros [names2 H2]. destruct (Hdup' _ _ H2). eauto. }
  split; [|split; [done|split; [|split; [|split; [|split; [done|split; [done|]]]]]]].
  - simpl in *. rewrite Hmiss. f_equal. apply bool_decide_ext.
    rewrite !map_size_empty_iff, <- !dom_empty_iff_L. by rewrite Hdom.
  - simpl. by rewrite Hp.
  - simpl. by apply py_min_perm.
  - simpl. by apply py_max_perm.
  - by apply get_sequence_gaps_perm.
Qed.

End More.

Lemma validate_sequence_order_free_witness :
  missing_numbers (validate_sequence default_number_in (reverse scan_1245)) = [3] ∧
  get_sequence_gaps default_number_in (reverse scan_1245) = [(2, 4)].
Proof.
  destruct (validate_sequence_order_free default_number_in (reverse scan_1245) scan_1245)
    as (_ & Hm & _ & _ & _ & _ & _ & Hg); [apply reverse_Permutation|].
  split; [rewrite Hm|rewrite Hg]; by vm_compute.
Defined.

Lemma py_min_seqZ (lo : Z) (n : nat) : py_min (seqZ lo (Z.of_nat (S n))) = Some lo.
Proof.
  apply py_min_spec. split.
  - apply elem_of_seqZ. lia.
  - intros y Hy. apply elem_of_seqZ in Hy. lia.
Qed.

Lemma py_max_seqZ (lo : Z) (n : nat) :
  py_max (seqZ lo (Z.of_nat (S n))) = Some (lo + Z.of_nat (S n) - 1).
Proof.
  apply py_max_spec. split.
  - apply elem_of_seqZ. lia.
  - intros y Hy. apply elem_of_seqZ in Hy. lia.
Qed.

(** A report on files whose numbers count up from [lo]. *)
Lemma counting_report (number_in : string → option Z) (file_paths : list Path) (lo : Z) :
  file_paths ≠ [] →
  collect_numbers number_in file_paths = seqZ lo (Z.of_nat (length file_paths)) →
  validate_sequence number_in file_paths =
    {| is_valid := true;
       missing_numbers := [];
       duplicate_numbers := ∅;
       total_files := length file_paths;
       min_number := Some lo;
       max_number := Some (lo + Z.of_nat (length file_paths) - 1) |}.
Proof.
  intros Hne Hn.
  destruct (consecutive_clean number_in file_paths lo) as [Hm Hd].
  { rewrite Hn at 1. by rewrite Hn, length_seqZ, Nat2Z.id. }
  unfold validate_sequence. rewrite Hm, Hd, Hn.
  destruct file_paths as [|f rest]; [done|]. cbn [length].
  by rewrite py_min_seqZ, py_max_seqZ.
Qed.

(** *** [extract_numbers] *)

Section Extract.
Variable number_in : string → option Z.

(** **** X4.  [extract_numbers] lists every file, in order; the numbers
    it finds are the ones the other methods work on, and the names it
    lists under a number are the ones [detect_duplicates] groups. *)
Theorem extract_numbers_agrees (file_paths : list Path) :
  let items := extract_numbers number_in file_paths in
  item_path <$> items = file_paths ∧
  Forall (λ it, item_name it = name (item_path it)) items ∧
  total_files (validate_sequence number_in file_paths) = length items ∧
  omap item_number items = collect_numbers number_in file_paths ∧
  ∀ n, detect_duplicates number_in file_paths !! n =
       let names := item_name <$> filter (λ it, item_number it = Some n) items in
       if decide (1 < length names)%nat then Some names else None.
Proof.
  intros items. unfold items, extract_numbers.
  split; [|split; [|split; [|split]]].
  - rewrite <- list_fmap_compose. apply list_fmap_id.
  - apply Forall_fmap, Forall_forall. by intros.
  - simpl. by rewrite length_fmap.
  - unfold collect_numbers. induction file_paths as [|f rest IH]; [done|].
    rewrite fmap_cons. cbn [omap list_omap item_number].
    destruct (number_in (stem f)); by rewrite IH.
  - intros n. rewrite detect_duplicates_lookup. unfold names_for.
    assert (name <$> filter (λ p, number_in (stem p) = Some n) file_paths
            = item_name <$> filter (λ it, item_number it = Some n)
                ((λ file_path, {| item_path := file_path;
                                  item_number := number_in (stem file_path);
                                  item_name := name file_path |}) <$> file_paths)) as ->;
      [|done].
    induction file_paths as [|f rest IH]; [done|].
    rewrite fmap_cons, !filter_cons. cbn [item_number].
    case_decide; rewrite ?fmap_cons; by rewrite IH.
Qed.

End Extract.

End SequenceReportFacts.

(** ** Dry runs, free names and backups *)

Module BatchFacts.
Import Renamer RenamerFacts.

Section Abstract.
Context {FS : Type} `{!FileSystem FS}.

Lemma run_renames_dry (plan : list rename_info) (fs : FS) :
  (run_renames true fs plan).1 = fs ∧
  Forall (λ e, success e = true ∧ error e = None) (run_renames true fs plan).2.
Proof.
  induction plan as [|info rest [IHfs IHlog]]; simpl; [by split|].
  destruct (run_renames true fs rest) as [fs2 log]. simpl in *. subst fs2.
  split; [done|]. by constructor.
Qed.

(** **** X6.  A dry run touches nothing: no backup is made and no file
    is renamed, whatever [backup] says; the call returns one entry per
    file, each reported as a success without an error. *)
Theorem dry_run_changes_nothing (timestamp : string) (fs : FS)
    (file_paths : list Path) (target_dir : option string) (prefix : string)
    (digits start_number : Z) (backup : bool) :
  ∃ rename_log,
    rename_files true timestamp fs file_paths target_dir prefix digits
      start_number backup = (fs, Returned rename_log) ∧
    length rename_log = length file_paths ∧
    Forall (λ e, success e = true ∧ error e = None) rename_log.
Proof.
  destruct file_paths as [|f rest] eqn:Hf.
  { exists []. by repeat split. }
  rewrite <- Hf. assert (Hne : file_paths ≠ []) by by rewrite Hf.
  destruct (rename_files_unfold true timestamp fs file_paths target_dir prefix
              digits start_number backup Hne) as [(msg & _ & [=] & _)|Hr].
  cbv zeta in Hr. rewrite Hr. unfold state_after_backup.
  rewrite andb_false_r.
  match goal with |- context [run_renames true fs ?p] =>
    destruct (run_renames_dry p fs) as [Hfs Hlog];
    pose proof (run_renames_length true p fs) as Hlen end.
  eexists. split; [by rewrite Hfs|]. split; [|done].
  by rewrite Hlen, plan_renames_length.
Qed.

End Abstract.

(** *** Renaming on a disk when no planned name is taken *)

Section FreshNames.
(** Any file system on a disk that lets files be renamed to [names];
    both [posix_fs] and [windows_fs] are such, whatever the names. *)
Context (I : FileSystem disk).
Variable names : list Path.
Hypothesis renames : renames_to I names.

Lemma run_renames_fresh (plan : list rename_info) (d : disk) :
  Forall (λ info, final_path info ∈ names) plan →
  NoDup (original_path <$> plan) →
  NoDup (final_path <$> plan) →
  Forall (λ info, is_Some (d !! original_path info)) plan →
  Forall (λ info, final_path info = original_path info ∨ d !! final_path info = None) plan →
  let d' := (run_renames false d plan).1 in
  let rename_log := (run_renames false d plan).2 in
  Forall (λ e, success e = true ∧ error e = None) rename_log ∧
  Forall (λ info, d' !! final_path info = d !! original_path info) plan ∧
  Forall (λ info, final_path info ≠ original_path info →
                  d' !! original_path info = None) plan ∧
  (∀ p, p ∉ original_path <$> plan → p ∉ final_path <$> plan → d' !! p = d !! p).
Proof.
  destruct renames as [exists_is_lookup rename_to_free].
  unfold disk in *.
  revert d. induction plan as [|info rest IH]; intros d Hnames Ho Hf Hex Hfree.
  { simpl. repeat split; constructor. }
  rewrite fmap_cons in Ho, Hf.
  apply Forall_cons in Hnames as [Hname Hnames].
  apply NoDup_cons in Ho as [Ho1 Ho]. apply NoDup_cons in Hf as [Hf1 Hf].
  apply Forall_cons in Hex as [[bytes Hb] Hex].
  apply Forall_cons in Hfree as [Hfree1 Hfree].
  cbn [run_renames]. unfold rename_one, try_rename.
  destruct info as [o f number]. simpl in *.
  destruct (decide (o = f)) as [Heq|Hne].
  - (* the file already has its planned name *)
    specialize (IH d Hnames Ho Hf Hex Hfree).
    destruct (run_renames false d rest) as [d' rename_log]. simpl in *. unfold disk in *.
    destruct IH as (Hs & Hc & Hg & Hframe).
    assert (d' !! o = d !! o) as Hsame.
    { apply Hframe; [done|]. by rewrite Heq. }
    split; [by constructor|]. split; [constructor; [by rewrite <- Heq|done]|].
    split; [constructor; [intros Hfo; by destruct Hfo|done]|].
    intros p Hp1 Hp2. apply Hframe.
    + intros H. apply Hp1. by right.
    + intros H. apply Hp2. by right.
  - destruct Hfree1 as [Hfo|Hnone]; [congruence|].
    rewrite exists_is_lookup by done.
    assert (disk_exists d f = false) as ->.
    { unfold disk_exists, disk. rewrite Hnone. apply bool_decide_eq_false.
      by intros [? ?]. }
    rewrite (rename_to_free d o f bytes Hname Hb Hnone).
    set (d1 := <[f := bytes]> (delete o d)).
    assert (Hex1 : Forall (λ info, is_Some (d1 !! original_path info)) rest).
    { apply Forall_forall. intros j Hj.
      pose proof (proj1 (Forall_forall _ _) Hex j Hj) as [bj Hbj].
      exists bj. unfold d1.
      rewrite lookup_insert_ne by congruence.
      rewrite lookup_delete_ne; [done|].
      intros Hoj. apply Ho1. apply list_elem_of_fmap. eauto. }
    assert (Hfree1 : Forall (λ info, final_path info = original_path info ∨
                                     d1 !! final_path info = None) rest).
    { apply Forall_forall. intros j Hj.
      destruct (proj1 (Forall_forall _ _) Hfree j Hj) as [?|Hn]; [by left|right].
      unfold d1. rewrite lookup_insert_ne.
      - destruct (decide (o = final_path j)) as [<-|?];
          [by rewrite lookup_delete_eq|by rewrite lookup_delete_ne].
      - intros Hfj. apply Hf1. apply list_elem_of_fmap. eauto. }
    specialize (IH d1 Hnames Ho Hf Hex1 Hfree1).
    destruct (run_renames false d1 rest) as [d' rename_log]. simpl in *. unfold disk in *.
    destruct IH as (Hs & Hc & Hg & Hframe).
    assert (f ∉ original_path <$> rest) as Hfo.
    { intros Hin. apply list_elem_of_fmap in Hin as (j & Hfj & Hj).
      pose proof (proj1 (Forall_forall _ _) Hex j Hj) as [bj Hbj]. congruence. }
    split; [by constructor|]. split; [|split].
    + constructor; cbn [final_path original_path].
      * rewrite (Hframe f Hfo Hf1). unfold d1. by rewrite lookup_insert_eq.
      * apply Forall_forall. intros j Hj.
        rewrite (proj1 (Forall_forall _ _) Hc j Hj). unfold d1.
        pose proof (proj1 (Forall_forall _ _) Hex j Hj) as [bj Hbj].
        rewrite lookup_insert_ne by congruence.
        rewrite lookup_delete_ne; [done|].
        intros Hoj. apply Ho1. apply list_elem_of_fmap. eauto.
    + constructor; [|done]. cbn [final_path original_path]. intros _.
      destruct (decide (o ∈ final_path <$> rest)) as [Hin|Hnin].
      * apply list_elem_of_fmap in Hin as (j & Hoj & Hj).
        destruct (proj1 (Forall_forall _ _) Hfree j Hj) as [Heq|Hn]; [|congruence].
        destruct Ho1. apply list_elem_of_fmap. exists j. split; [congruence|done].
      * rewrite (Hframe o Ho1 Hnin). unfold d1.
        rewrite lookup_insert_ne by done. by rewrite lookup_delete_eq.
    + intros p Hp1 Hp2. rewrite not_elem_of_cons in Hp1, Hp2.
      destruct Hp1 as [Hpo Hp1]. destruct Hp2 as [Hpf Hp2].
      rewrite (Hframe p Hp1 Hp2). unfold d1.
      rewrite lookup_insert_ne by done. by rewrite lookup_delete_ne.
Qed.

End FreshNames.

Lemma posix_renames_to (names : list Path) : renames_to posix_fs names.
Proof.
  split; [done|]. intros d src dst bytes _ Hs _. simpl.
  unfold posix_rename, disk in *. by rewrite Hs.
Qed.

Lemma windows_renames_to (names : list Path) : renames_to windows_fs names.
Proof.
  split; [done|]. intros d src dst bytes _ Hs Hd. simpl.
  unfold windows_rename, disk_exists, disk in *. rewrite Hs, Hd.
  rewrite bool_decide_eq_false_2; [done|]. by intros [? ?].
Qed.

Lemma posix_copies_to (names : list Path) : copies_to posix_fs names.
Proof.
  intros d src dst _ Hne. simpl. unfold disk_copy2, disk in *.
  destruct (d !! src); [by rewrite decide_False|by eexists].
Qed.

(** *** The backup on a disk *)

Section Backup.
(** Any file system on a disk that lets files be copied to [names]. *)
Context (I : FileSystem disk).
Variable names : list Path.
Hypothesis copies : copies_to I names.

(** The copies go to [names], and no file is its own copy. *)
Local Abbreviation copied_to_names backup_dir file_paths :=
  (Forall (λ f : Path, backup_dir // name f ∈ names ∧ f ≠ backup_dir // name f) file_paths).

Lemma backup_files_frame (file_paths : list Path) (backup_dir : Path) (d : disk) (p : Path) :
  copied_to_names backup_dir file_paths →
  p ∉ (λ f, backup_dir // name f) <$> file_paths →
  backup_files (FileSystem0 := I) d backup_dir file_paths !! p = d !! p.
Proof.
  unfold disk in *.
  revert d. induction file_paths as [|f rest IH]; intros d Hok Hp; [done|].
  apply Forall_cons in Hok as [[Hin Hne] Hok].
  rewrite fmap_cons, not_elem_of_cons in Hp. destruct Hp as [Hpf Hp].
  cbn [backup_files]. pose proof (copies d f _ Hin Hne) as Hc. unfold disk in *.
  destruct (d !! f) as [bytes|].
  - rewrite Hc, IH by done. by rewrite lookup_insert_ne.
  - destruct Hc as [msg ->]. by apply IH.
Qed.

Lemma backup_files_copies (file_paths : list Path) (backup_dir : Path) (d : disk)
    (f : Path) (bytes : string) :
  copied_to_names backup_dir file_paths →
  NoDup ((λ f, backup_dir // name f) <$> file_paths) →
  (∀ g, g ∈ file_paths → g ∉ (λ f, backup_dir // name f) <$> file_paths) →
  f ∈ file_paths → d !! f = Some bytes →
  backup_files (FileSystem0 := I) d backup_dir file_paths
    !! (backup_dir // name f) = Some bytes.
Proof.
  unfold disk in *.
  revert d. induction file_paths as [|g rest IH]; intros d Hok Hnd Hsrc Hf Hb.
  { by apply elem_of_nil in Hf. }
  apply Forall_cons in Hok as [[Hin Hne] Hok].
  rewrite fmap_cons in Hnd. apply NoDup_cons in Hnd as [Hg Hnd].
  cbn [backup_files]. pose proof (copies d g _ Hin Hne) as Hc. unfold disk in *.
  apply elem_of_cons in Hf as [->|Hf].
  - rewrite Hb in Hc. rewrite Hc, backup_files_frame by done.
    apply lookup_insert_eq.
  - assert (Hsrc' : ∀ h, h ∈ rest → h ∉ (λ f, backup_dir // name f) <$> rest).
    { intros h Hh Hin'. apply (Hsrc h); [by right|]. rewrite fmap_cons. by right. }
    destruct (d !! g) as [gb|] eqn:Hgb; [|destruct Hc as [msg ->]; by apply IH].
    rewrite Hc. apply IH; try done.
    rewrite lookup_insert_ne; [done|].
    intros Heq. apply (Hsrc f); [by right|]. rewrite fmap_cons, <- Heq. left.
Qed.

Lemma backup_files_skips (file_paths : list Path) (backup_dir : Path) (d : disk)
    (f : Path) :
  copied_to_names backup_dir file_paths →
  NoDup ((λ f, backup_dir // name f) <$> file_paths) →
  (∀ g, g ∈ file_paths → g ∉ (λ f, backup_dir // name f) <$> file_paths) →
  f ∈ file_paths → d !! f = None →
  backup_files (FileSystem0 := I) d backup_dir file_paths
    !! (backup_dir // name f) = d !! (backup_dir // name f).
Proof.
  unfold disk in *.
  revert d. induction file_paths as [|g rest IH]; intros d Hok Hnd Hsrc Hf Hb.
  { by apply elem_of_nil in Hf. }
  apply Forall_cons in Hok as [[Hin Hne] Hok].
  rewrite fmap_cons in Hnd. apply NoDup_cons in Hnd as [Hg Hnd].
  assert (Hsrc' : ∀ h, h ∈ rest → h ∉ (λ f, backup_dir // name f) <$> rest).
  { intros h Hh Hin'. apply (Hsrc h); [by right|]. rewrite fmap_cons. by right. }
  cbn [backup_files]. pose proof (copies d g _ Hin Hne) as Hc. unfold disk in *.
  destruct (decide (f ∈ rest)) as [Hfr|Hnin].
  - destruct (d !! g) as [gb|] eqn:Hgb; [|destruct Hc as [msg ->]; by apply IH].
    rewrite Hc. rewrite IH; try done.
    + rewrite lookup_insert_ne; [done|]. intros Heq. apply Hg.
      rewrite Heq. apply list_elem_of_fmap. eauto.
    + rewrite lookup_insert_ne; [done|].
      intros Heq. apply (Hsrc f); [by right|]. rewrite fmap_cons, <- Heq. left.
  - apply elem_of_cons in Hf as [->|Hf]; [|done].
    rewrite Hb in Hc. destruct Hc as [msg ->]. by rewrite backup_files_frame.
Qed.

End Backup.

End BatchFacts.

(** ** The planned names *)

Module PlanFacts.
Import SequenceDetector SequenceDetectorFacts Renamer RenamerFacts.
Import PyStr PyStrFacts PathLibFacts.

Local Arguments String.append !_ _ / : simpl nomatch.

Lemma all_digits_lacks (c : ascii) (d : string) :
  is_digit c = false → all_digits d → lacks c d.
Proof.
  intros Hc. unfold all_digits. induction d as [|a d IH]; simpl; [done|].
  destruct (is_digit a) eqn:Ha; [|done]. intros [= Hd].
  apply lacks_cons. split; [congruence|auto].
Qed.

Lemma extension_like_lacks_digits (ext : string) :
  extension_like ext → take_digits ext = "".
Proof. by intros [->|(e & -> & _)]. Qed.

Section Plan.
Variables (target_dir : Path) (prefix : string) (digits : Z).

Lemma new_name_proper (idx : Z) (f : Path) :
  0 ≤ idx → lacks "/" prefix → lacks "/" (name f) →
  let n := new_name prefix digits idx f in
  lacks "/" n ∧ n ≠ "" ∧ n ≠ ".".
Proof.
  intros Hi Hp Hf. unfold new_name.
  destruct (zfill_digits digits idx Hi) as (Hd & Hne & _).
  set (z := zfill digits (of_int idx)) in *. clearbody z.
  split; [|split].
  - rewrite !lacks_app. split; [done|]. split; [by apply all_digits_lacks|].
    by apply suffix_lacks.
  - destruct prefix; [|done]. by destruct z.
  - intros Hdot. destruct prefix as [|a [|? ?]]; simpl in Hdot.
    + destruct z as [|a [|? ?]]; [done| |done].
      simpl in Hdot. destruct (suffix f); [|done].
      injection Hdot as ->. done.
    + destruct z; [done|]. simpl in Hdot. done.
    + done.
Qed.

Lemma final_path_proper (idx : Z) (f : Path) :
  0 ≤ idx → lacks "/" prefix → lacks "/" (name f) →
  target_dir // new_name prefix digits idx f
  = target_dir ++ [new_name prefix digits idx f].
Proof.
  intros Hi Hp Hf. destruct (new_name_proper idx f Hi Hp Hf) as (? & ? & ?).
  by apply joinpath_single.
Qed.

Lemma new_name_inj (i j : Z) (f g : Path) :
  0 ≤ i → 0 ≤ j →
  new_name prefix digits i f = new_name prefix digits j g → i = j.
Proof.
  intros Hi Hj. unfold new_name. intros Heq. apply (inj (String.append prefix)) in Heq.
  destruct (zfill_digits digits i Hi) as (Hdi & _ & Hvi).
  destruct (zfill_digits digits j Hj) as (Hdj & _ & Hvj).
  apply (f_equal take_digits) in Heq.
  rewrite !take_digits_all in Heq by done.
  rewrite !extension_like_lacks_digits in Heq by apply suffix_extension_like.
  rewrite !string_app_nil_r in Heq. congruence.
Qed.

Lemma plan_renames_elem (idx : Z) (file_paths : list Path) (info : rename_info) :
  info ∈ plan_renames target_dir prefix digits idx file_paths →
  idx ≤ info_number info ∧ original_path info ∈ file_paths ∧
  final_path info
  = target_dir // new_name prefix digits (info_number info) (original_path info).
Proof.
  revert idx. induction file_paths as [|f rest IH]; intros idx; simpl.
  - intros H. by apply elem_of_nil in H.
  - intros H. apply elem_of_cons in H as [->|H]; simpl.
    + split; [lia|]. split; [left|done].
    + destruct (IH _ H) as (? & ? & ?). split; [lia|]. split; [by right|done].
Qed.

Lemma plan_renames_NoDup (idx : Z) (file_paths : list Path) :
  0 ≤ idx → lacks "/" prefix → Forall (λ f, lacks "/" (name f)) file_paths →
  NoDup (final_path <$> plan_renames target_dir prefix digits idx file_paths).
Proof.
  intros Hi Hp. revert idx Hi. induction file_paths as [|f rest IH]; intros idx Hi Hf.
  { constructor. }
  apply Forall_cons in Hf as [Hf Hrest]. simpl. constructor; [|apply IH; [lia|done]].
  intros Hin. apply list_elem_of_fmap in Hin as (info & Heq & Hin).
  apply plan_renames_elem in Hin as (Hn & Ho & Hfin).
  rewrite Hfin in Heq.
  rewrite !final_path_proper in Heq; try done; try lia.
  2:{ by eapply Forall_forall in Hrest. }
  apply app_inv_head in Heq. injection Heq as Heq.
  apply new_name_inj in Heq; lia.
Qed.

(** What the detector reads off a planned name. *)
Lemma planned_number (idx : Z) (f : Path) :
  0 ≤ idx → plain_prefix prefix → lacks "/" (name f) →
  let p := target_dir // new_name prefix digits idx f in
  name p = new_name prefix digits idx f ∧
  stem p = prefix +:+ zfill digits (of_int idx) ∧
  suffix p = suffix f ∧
  default_number_in (stem p) = Some idx.
Proof.
  intros Hi (_ & Hslash & Hdot & Hdig) Hf p.
  destruct (new_name_proper idx f Hi Hslash Hf) as (Hn & _ & _).
  destruct (zfill_digits digits idx Hi) as (Hd & Hne & Hv).
  assert (Hname : name p = new_name prefix digits idx f).
  { unfold p. rewrite final_path_proper by done. by apply name_snoc. }
  destruct (stem_suffix_built p (prefix +:+ zfill digits (of_int idx))
              (suffix f)) as [Hst Hsu].
  - rewrite Hname. unfold new_name. by rewrite string_app_assoc.
  - destruct prefix; [|done]. simpl. done.
  - apply lacks_app. split; [done|]. by apply all_digits_lacks.
  - apply suffix_extension_like.
  - split; [done|]. split; [done|]. split; [done|].
    rewrite Hst. unfold default_number_in. rewrite search_digits_app by done.
    simpl. by rewrite Hv.
Qed.

Lemma planned_numbers (idx : Z) (file_paths : list Path) :
  0 ≤ idx → plain_prefix prefix → Forall (λ f, lacks "/" (name f)) file_paths →
  collect_numbers default_number_in
    (final_path <$> plan_renames target_dir prefix digits idx file_paths)
  = seqZ idx (Z.of_nat (length file_paths)).
Proof.
  intros Hi Hp. revert idx Hi. induction file_paths as [|f rest IH]; intros idx Hi Hf.
  { done. }
  apply Forall_cons in Hf as [Hf Hrest].
  rewrite seqZ_cons by (simpl; lia). simpl.
  destruct (planned_number idx f Hi Hp Hf) as (_ & _ & _ & Hnum).
  unfold collect_numbers in *. simpl. rewrite Hnum. f_equal.
  rewrite IH by (done || lia). f_equal; lia.
Qed.

End Plan.

End PlanFacts.

(** ** Renaming, and what the detector makes of it *)

Module RenamingFacts.
Import SequenceDetector SequenceDetectorFacts SequenceReportFacts.
Import Renamer RenamerFacts BatchFacts PlanFacts.
Import PyStrFacts PathLibFacts.

Lemma plan_renames_originals (target_dir : Path) (prefix : string) (digits idx : Z)
    (file_paths : list Path) :
  original_path <$> plan_renames target_dir prefix digits idx file_paths = file_paths.
Proof.
  revert idx. induction file_paths as [|f rest IH]; intros idx; simpl; [done|].
  by rewrite IH.
Qed.

Lemma of_str_names_lack_slash (ordered_paths : list string) :
  Forall (λ f, PyStr.lacks "/" (name f)) (of_str <$> ordered_paths).
Proof.
  apply Forall_fmap, Forall_forall. intros s _. apply name_of_str_lacks.
Qed.





Local Arguments String.append !_ _ / : simpl nomatch.

Lemma parent_snoc (p : Path) (c : string) : PyStr.lacks "/" c → parent (p ++ [c]) = p.
Proof.
  intros Hc. destruct p as [|a p]; simpl.
  - by rewrite is_root_lacks.
  - destruct p as [|b p]; simpl; [done|].
    f_equal. change (removelast ((b :: p) ++ [c]) = b :: p). apply removelast_last.
Qed.

(** **** X7.  The names planned for a batch are pairwise distinct,
    provided the numbering does not start below zero and the prefix
    holds no slash. *)
Theorem planned_names_distinct (ordered_paths : list string) (target_dir : Path)
    (prefix : string) (digits start_number : Z) :
  0 ≤ start_number → PyStr.lacks "/" prefix →
  NoDup (final_path <$>
           plan_renames target_dir prefix digits start_number (of_str <$> ordered_paths)).
Proof.
  intros Hs Hp. apply plan_renames_NoDup; [done..|apply of_str_names_lack_slash].
Qed.

Lemma planned_names_distinct_witness :
  NoDup (final_path <$> plan_renames (of_str "/m") "page_" 3 1 (of_str <$> shelf_order)).
Proof. apply planned_names_distinct; [lia|by vm_compute]. Defined.





(** *** [suggest_renaming] *)

Lemma suggest_renaming_plan (dir : Path) (file_paths : list Path) (idx : Z) :
  (λ s, dir // suggested_name s) <$> suggest_renaming file_paths idx
  = final_path <$> plan_renames dir "" 3 idx file_paths.
Proof.
  revert idx. induction file_paths as [|f rest IH]; intros idx; simpl; [done|].
  by rewrite IH.
Qed.

Lemma suggest_renaming_old_paths (file_paths : list Path) (idx : Z) :
  old_path <$> suggest_renaming file_paths idx = file_paths.
Proof.
  revert idx. induction file_paths as [|f rest IH]; intros idx; simpl; [done|].
  by rewrite IH.
Qed.

Lemma suggest_renaming_numbers (file_paths : list Path) (idx : Z) :
  suggested_number <$> suggest_renaming file_paths idx
  = seqZ idx (Z.of_nat (length file_paths)).
Proof.
  revert idx. induction file_paths as [|f rest IH]; intros idx; [done|].
  rewrite seqZ_cons by (simpl; lia). simpl. rewrite IH. do 2 f_equal. lia.
Qed.

(** **** X5.  The suggestions keep the files in order and number them
    from [start_number] on; a suggested name keeps the extension of its
    file, and the suggested names, put into any directory, make a valid
    sequence for the detector. *)
Theorem suggest_renaming_is_valid (ordered_paths : list string) (start_number : Z)
    (dir : Path) :
  0 ≤ start_number → ordered_paths ≠ [] →
  let suggestions := suggest_renaming (of_str <$> ordered_paths) start_number in
  old_path <$> suggestions = of_str <$> ordered_paths ∧
  suggested_number <$> suggestions
    = seqZ start_number (Z.of_nat (length ordered_paths)) ∧
  Forall (λ s, suffix (dir // suggested_name s) = suffix (old_path s)) suggestions ∧
  validate_sequence default_number_in ((λ s, dir // suggested_name s) <$> suggestions)
  = {| is_valid := true;
       missing_numbers := [];
       duplicate_numbers := ∅;
       total_files := length ordered_paths;
       min_number := Some start_number;
       max_number := Some (start_number + Z.of_nat (length ordered_paths) - 1) |}.
Proof.
  intros Hs Hne suggestions. unfold suggestions. clear suggestions.
  assert (Hplain : plain_prefix "") by done.
  split; [apply suggest_renaming_old_paths|].
  split; [by rewrite suggest_renaming_numbers, length_fmap|].
  split.
  - generalize (of_str_names_lack_slash ordered_paths).
    generalize (of_str <$> ordered_paths). intros fps Hf. clear Hne.
    revert start_number Hs. induction Hf as [|f rest Hf Hrest IH]; intros idx Hs; simpl.
    { constructor. }
    constructor; [|apply IH; lia]. simpl.
    by destruct (planned_number dir "" 3 idx f Hs Hplain Hf) as (_ & _ & ? & _).
  - rewrite suggest_renaming_plan.
    pose proof (planned_numbers dir "" 3 start_number
                  (of_str <$> ordered_paths) Hs Hplain (of_str_names_lack_slash _)) as Hn.
    rewrite length_fmap in Hn.
    rewrite (counting_report default_number_in _ start_number).
    + by rewrite length_fmap, plan_renames_length, length_fmap.
    + destruct ordered_paths; [done|]. done.
    + by rewrite length_fmap, plan_renames_length, length_fmap.
Qed.

Lemma suggest_renaming_is_valid_witness :
  suggested_name <$> suggest_renaming (of_str <$> shelf_order) 1
  = ["001.jpg"; "002.png"; "003.png"] ∧
  is_valid (validate_sequence default_number_in
    ((λ s, of_str "/out" // suggested_name s)
       <$> suggest_renaming (of_str <$> shelf_order) 1)) = true.
Proof.
  split; [by vm_compute|].
  destruct (suggest_renaming_is_valid shelf_order 1 (of_str "/out"))
    as (_ & _ & _ & Hv); [lia|done|].
  by rewrite Hv.
Defined.

End RenamingFacts.

(** ** The built-in sort, for comparisons that answer alike or by an order *)

Module ListSortOrderFacts.
Import ListSort ListSortFacts.

(** *** Two comparisons that answer alike *)

Section Agreement.
Context {A S1 S2 : Type}.
Variable lt1 : A → A → S1 → S1 * bool.
Variable lt2 : A → A → S2 → S2 * bool.
Variable R : S1 → S2 → Prop.
Hypothesis lt_agree : ∀ x y s1 s2, R s1 s2 → agree R (lt1 x y s1) (lt2 x y s2).

Lemma agree_ret {B : Type} (s1 : S1) (s2 : S2) (b : B) : R s1 s2 → agree R (s1, b) (s2, b).
Proof. by split. Qed.

(** Run the next call on both sides. *)
Ltac both H :=
  match goal with
  | |- agree R (match ?e1 with (_, _) => _ end) (match ?e2 with (_, _) => _ end) =>
      let Hr := fresh "Hr" in
      assert (Hr : agree R e1 e2) by (apply H; done);
      let s1 := fresh "s1" in let s2 := fresh "s2" in
      let v1 := fresh "v" in let v2 := fresh "v" in
      destruct e1 as [s1 v1], e2 as [s2 v2];
      destruct Hr as [? Hr]; cbn [fst snd] in Hr; cbn [fst snd] in *; subst v2
  end.

Lemma descending_tail_agree (l : list A) (prev : A) (s1 : S1) (s2 : S2) :
  R s1 s2 → agree R (descending_tail lt1 prev l s1) (descending_tail lt2 prev l s2).
Proof.
  revert prev s1 s2. induction l as [|x l IH]; intros prev s1 s2 Hs; simpl.
  { by apply agree_ret. }
  both lt_agree. destruct v; [|by apply agree_ret].
  both IH. by apply agree_ret.
Qed.

Lemma ascending_tail_agree (l : list A) (prev : A) (s1 : S1) (s2 : S2) :
  R s1 s2 → agree R (ascending_tail lt1 prev l s1) (ascending_tail lt2 prev l s2).
Proof.
  revert prev s1 s2. induction l as [|x l IH]; intros prev s1 s2 Hs; simpl.
  { by apply agree_ret. }
  both lt_agree. destruct v; [by apply agree_ret|].
  both IH. by apply agree_ret.
Qed.

Lemma count_run_agree (l : list A) (s1 : S1) (s2 : S2) :
  R s1 s2 → agree R (count_run lt1 l s1) (count_run lt2 l s2).
Proof.
  intros Hs. destruct l as [|x0 [|x1 l]]; simpl; try by apply agree_ret.
  both lt_agree. destruct v.
  - both descending_tail_agree. by apply agree_ret.
  - both ascending_tail_agree. by apply agree_ret.
Qed.

Lemma bisect_agree (fuel : nat) (pivot : A) (sorted : list A) (l r : nat)
    (s1 : S1) (s2 : S2) :
  R s1 s2 →
  agree R (bisect lt1 fuel pivot sorted l r s1) (bisect lt2 fuel pivot sorted l r s2).
Proof.
  revert l r s1 s2. induction fuel as [|fuel IH]; intros l r s1 s2 Hs; simpl.
  { by apply agree_ret. }
  destruct (sorted !! _); [|by apply agree_ret].
  both lt_agree. case_decide; [by apply IH|by apply agree_ret].
Qed.

Lemma binarysort_agree (rest sorted : list A) (s1 : S1) (s2 : S2) :
  R s1 s2 → agree R (binarysort lt1 sorted rest s1) (binarysort lt2 sorted rest s2).
Proof.
  revert sorted s1 s2. induction rest as [|pivot rest IH]; intros sorted s1 s2 Hs; simpl.
  { by apply agree_ret. }
  destruct sorted as [|x sorted]; [by apply IH|].
  both bisect_agree. by apply IH.
Qed.

Lemma item_lt_key_agree (key : A) (a : list A) (i : Z) (s1 : S1) (s2 : S2) :
  R s1 s2 → agree R (item_lt_key lt1 key a i s1) (item_lt_key lt2 key a i s2).
Proof.
  intros Hs. unfold item_lt_key. destruct (item a i); [by apply lt_agree|by apply agree_ret].
Qed.

Lemma key_lt_item_agree (key : A) (a : list A) (i : Z) (s1 : S1) (s2 : S2) :
  R s1 s2 → agree R (key_lt_item lt1 key a i s1) (key_lt_item lt2 key a i s2).
Proof.
  intros Hs. unfold key_lt_item. destruct (item a i); [by apply lt_agree|by apply agree_ret].
Qed.

Lemma negated_agree (f1 : Z → S1 → S1 * bool) (f2 : Z → S2 → S2 * bool) :
  (∀ i s1 s2, R s1 s2 → agree R (f1 i s1) (f2 i s2)) →
  ∀ i s1 s2, R s1 s2 → agree R (negated f1 i s1) (negated f2 i s2).
Proof.
  intros Hf i s1 s2 Hs. unfold negated. both Hf. by apply agree_ret.
Qed.

Lemma gallop_go_agree (fuel : nat) (f1 : Z → S1 → S1 * bool) (f2 : Z → S2 → S2 * bool)
    (maxofs lastofs ofs : Z) (s1 : S1) (s2 : S2) :
  (∀ i s1 s2, R s1 s2 → agree R (f1 i s1) (f2 i s2)) →
  R s1 s2 →
  agree R (gallop_go fuel f1 maxofs lastofs ofs s1) (gallop_go fuel f2 maxofs lastofs ofs s2).
Proof.
  intros Hf. revert lastofs ofs s1 s2.
  induction fuel as [|fuel IH]; intros lastofs ofs s1 s2 Hs; simpl.
  { by apply agree_ret. }
  case_decide; [|by apply agree_ret].
  both Hf. destruct v; [by apply IH|by apply agree_ret].
Qed.

Lemma gallop_bisect_agree (fuel : nat) (f1 : Z → S1 → S1 * bool) (f2 : Z → S2 → S2 * bool)
    (lastofs ofs : Z) (s1 : S1) (s2 : S2) :
  (∀ i s1 s2, R s1 s2 → agree R (f1 i s1) (f2 i s2)) →
  R s1 s2 →
  agree R (gallop_bisect fuel f1 lastofs ofs s1) (gallop_bisect fuel f2 lastofs ofs s2).
Proof.
  intros Hf. revert lastofs ofs s1 s2.
  induction fuel as [|fuel IH]; intros lastofs ofs s1 s2 Hs; simpl.
  { by apply agree_ret. }
  case_decide; [|by apply agree_ret].
  both Hf. destruct v; by apply IH.
Qed.

Lemma gallop_left_agree (key : A) (a : list A) (hint : Z) (s1 : S1) (s2 : S2) :
  R s1 s2 → agree R (gallop_left lt1 key a hint s1) (gallop_left lt2 key a hint s2).
Proof.
  intros Hs. unfold gallop_left.
  both item_lt_key_agree.
  assert (Hgo : ∀ f1 f2 maxofs (K : Z → Z → Z * Z),
    (∀ i s1 s2, R s1 s2 → agree R (f1 i s1) (f2 i s2)) →
    agree R
      (let '(s, (lastofs, ofs)) := gallop_go (Datatypes.S (length a)) f1 maxofs 0 1 s0 in
       (s, K lastofs ofs))
      (let '(s, (lastofs, ofs)) := gallop_go (Datatypes.S (length a)) f2 maxofs 0 1 s3 in
       (s, K lastofs ofs))).
  { intros f1 f2 maxofs K Hf.
    pose proof (gallop_go_agree (Datatypes.S (length a)) f1 f2 maxofs 0 1 s0 s3 Hf H) as Hg.
    destruct (gallop_go _ f1 _ _ _ _) as [t1 [lo1 o1]],
             (gallop_go _ f2 _ _ _ _) as [t2 [lo2 o2]].
    destruct Hg as [Ht [= -> ->]]. by apply agree_ret. }
  match goal with
  | |- agree R (match ?e1 with (_, _) => _ end) (match ?e2 with (_, _) => _ end) =>
      assert (Hr : agree R e1 e2)
  end.
  { destruct v.
    - apply (Hgo _ _ _ (λ lastofs ofs, (lastofs + hint, clamp (Z.of_nat (length a) - hint) ofs + hint))).
      intros. by apply item_lt_key_agree.
    - apply (Hgo _ _ _ (λ lastofs ofs, (hint - clamp (hint + 1) ofs, hint - lastofs))).
      apply negated_agree. intros. by apply item_lt_key_agree. }
  destruct (if v then _ else _) as [t1 [lo1 o1]].
  match goal with
  | Hr : agree R _ ?e |- _ => destruct e as [t2 [lo2 o2]]
  end.
  destruct Hr as [Ht [= -> ->]].
  apply gallop_bisect_agree; [|done]. intros. by apply item_lt_key_agree.
Qed.

Lemma gallop_right_agree (key : A) (a : list A) (hint : Z) (s1 : S1) (s2 : S2) :
  R s1 s2 → agree R (gallop_right lt1 key a hint s1) (gallop_right lt2 key a hint s2).
Proof.
  intros Hs. unfold gallop_right.
  both key_lt_item_agree.
  assert (Hgo : ∀ f1 f2 maxofs (K : Z → Z → Z * Z),
    (∀ i s1 s2, R s1 s2 → agree R (f1 i s1) (f2 i s2)) →
    agree R
      (let '(s, (lastofs, ofs)) := gallop_go (Datatypes.S (length a)) f1 maxofs 0 1 s0 in
       (s, K lastofs ofs))
      (let '(s, (lastofs, ofs)) := gallop_go (Datatypes.S (length a)) f2 maxofs 0 1 s3 in
       (s, K lastofs ofs))).
  { intros f1 f2 maxofs K Hf.
    pose proof (gallop_go_agree (Datatypes.S (length a)) f1 f2 maxofs 0 1 s0 s3 Hf H) as Hg.
    destruct (gallop_go _ f1 _ _ _ _) as [t1 [lo1 o1]],
             (gallop_go _ f2 _ _ _ _) as [t2 [lo2 o2]].
    destruct Hg as [Ht [= -> ->]]. by apply agree_ret. }
  match goal with
  | |- agree R (match ?e1 with (_, _) => _ end) (match ?e2 with (_, _) => _ end) =>
      assert (Hr : agree R e1 e2)
  end.
  { destruct v.
    - apply (Hgo _ _ _ (λ lastofs ofs, (hint - clamp (hint + 1) ofs, hint - lastofs))).
      intros. by apply key_lt_item_agree.
    - apply (Hgo _ _ _ (λ lastofs ofs, (lastofs + hint, clamp (Z.of_nat (length a) - hint) ofs + hint))).
      apply negated_agree. intros. by apply key_lt_item_agree. }
  destruct (if v then _ else _) as [t1 [lo1 o1]].
  match goal with
  | Hr : agree R _ ?e |- _ => destruct e as [t2 [lo2 o2]]
  end.
  destruct Hr as [Ht [= -> ->]].
  apply gallop_bisect_agree; [|done].
  apply negated_agree. intros. by apply key_lt_item_agree.
Qed.

(** Split on whatever both sides look at, calls apart. *)
Ltac same_case :=
  match goal with
  | |- context [if ?c then _ else _] =>
      lazymatch c with
      | context [lt1] => fail
      | context [lt2] => fail
      | _ => destruct c eqn:?
      end
  | |- context [match ?x with _ => _ end] =>
      lazymatch x with
      | context [lt1] => fail
      | context [lt2] => fail
      | _ => destruct x eqn:?
      end
  end.

Ltac along :=
  repeat first
    [ by apply agree_ret
    | both lt_agree
    | both gallop_right_agree
    | both gallop_left_agree
    | same_case ].

Lemma merge_lo_loops_agree (fuel : nat) :
  (∀ dest a b acount bcount mg s1 s2, R s1 s2 →
     agree R (merge_lo_straight lt1 fuel dest a b acount bcount mg s1)
             (merge_lo_straight lt2 fuel dest a b acount bcount mg s2)) ∧
  (∀ dest a b mg s1 s2, R s1 s2 →
     agree R (merge_lo_gallop lt1 fuel dest a b mg s1)
             (merge_lo_gallop lt2 fuel dest a b mg s2)).
Proof.
  induction fuel as [|fuel [IHs IHg]].
  { split; intros; by apply agree_ret. }
  split.
  - intros dest a b acount bcount mg s1 s2 Hs. cbn [merge_lo_straight].
    along; first [by apply IHg | by apply IHs].
  - intros dest a b mg s1 s2 Hs. cbn [merge_lo_gallop].
    along; first [by apply IHg | by apply IHs].
Qed.

Lemma merge_lo_agree (a b : list A) (mg : Z) (s1 : S1) (s2 : S2) :
  R s1 s2 → agree R (merge_lo lt1 a b mg s1) (merge_lo lt2 a b mg s2).
Proof.
  intros Hs. unfold merge_lo. along. by apply (proj1 (merge_lo_loops_agree _)).
Qed.

Lemma merge_hi_loops_agree (fuel : nat) :
  (∀ a b dest acount bcount mg s1 s2, R s1 s2 →
     agree R (merge_hi_straight lt1 fuel a b dest acount bcount mg s1)
             (merge_hi_straight lt2 fuel a b dest acount bcount mg s2)) ∧
  (∀ a b dest mg s1 s2, R s1 s2 →
     agree R (merge_hi_gallop lt1 fuel a b dest mg s1)
             (merge_hi_gallop lt2 fuel a b dest mg s2)).
Proof.
  induction fuel as [|fuel [IHs IHg]].
  { split; intros; by apply agree_ret. }
  split.
  - intros a b dest acount bcount mg s1 s2 Hs. cbn [merge_hi_straight].
    along; first [by apply IHg | by apply IHs].
  - intros a b dest mg s1 s2 Hs. cbn [merge_hi_gallop].
    along; first [by apply IHg | by apply IHs].
Qed.

Lemma merge_hi_agree (a b : list A) (mg : Z) (s1 : S1) (s2 : S2) :
  R s1 s2 → agree R (merge_hi lt1 a b mg s1) (merge_hi lt2 a b mg s2).
Proof.
  intros Hs. unfold merge_hi. along. by apply (proj1 (merge_hi_loops_agree _)).
Qed.

Lemma merge_runs_agree (a b : list A) (mg : Z) (s1 : S1) (s2 : S2) :
  R s1 s2 → agree R (merge_runs lt1 a b mg s1) (merge_runs lt2 a b mg s2).
Proof.
  intros Hs. unfold merge_runs.
  repeat first
    [ by apply agree_ret
    | both lt_agree
    | both gallop_right_agree
    | both gallop_left_agree
    | both merge_lo_agree
    | both merge_hi_agree
    | same_case ].
Qed.

Lemma merge_while_power_agree (fuel : nat) (power : Z) (p : pending) (mg : Z)
    (s1 : S1) (s2 : S2) :
  R s1 s2 →
  agree R (merge_while_power lt1 fuel power p mg s1)
          (merge_while_power lt2 fuel power p mg s2).
Proof.
  revert p mg s1 s2. induction fuel as [|fuel IH]; intros p mg s1 s2 Hs.
  { by apply agree_ret. }
  cbn [merge_while_power].
  repeat first [ by apply agree_ret | both merge_runs_agree | same_case ].
  destruct v. by apply IH.
Qed.

Lemma found_new_run_agree (listlen start n2 : Z) (p : pending) (mg : Z)
    (s1 : S1) (s2 : S2) :
  R s1 s2 →
  agree R (found_new_run lt1 listlen start n2 p mg s1)
          (found_new_run lt2 listlen start n2 p mg s2).
Proof.
  intros Hs. unfold found_new_run.
  destruct p as [|[top tp] rest]; [by apply agree_ret|].
  both merge_while_power_agree. destruct v as [mg' p'].
  destruct p' as [|[? ?] ?]; by apply agree_ret.
Qed.

Lemma merge_force_collapse_agree (fuel : nat) (p : pending) (mg : Z)
    (s1 : S1) (s2 : S2) :
  R s1 s2 →
  agree R (merge_force_collapse lt1 fuel p mg s1) (merge_force_collapse lt2 fuel p mg s2).
Proof.
  revert p mg s1 s2. induction fuel as [|fuel IH]; intros p mg s1 s2 Hs.
  { by apply agree_ret. }
  cbn [merge_force_collapse].
  repeat first [ by apply agree_ret | both merge_runs_agree | same_case ];
    destruct v; by apply IH.
Qed.

Lemma sort_loop_agree (fuel : nat) (listlen : Z) (minrun : nat) (lo : Z)
    (remaining : list A) (p : pending) (mg : Z) (s1 : S1) (s2 : S2) :
  R s1 s2 →
  agree R (sort_loop lt1 fuel listlen minrun lo remaining p mg s1)
          (sort_loop lt2 fuel listlen minrun lo remaining p mg s2).
Proof.
  revert lo remaining p mg s1 s2.
  induction fuel as [|fuel IH]; intros lo remaining p mg s1 s2 Hs.
  { by apply agree_ret. }
  cbn [sort_loop].
  both count_run_agree. destruct v as [n descending].
  match goal with
  | |- agree R (match ?e1 with (_, _) => _ end) (match ?e2 with (_, _) => _ end) =>
      assert (Hr : agree R e1 e2)
  end.
  { case_decide; [|by apply agree_ret]. both binarysort_agree. by apply agree_ret. }
  destruct (if decide (n < minrun)%nat then _ else _) as [t1 [n1 run1]].
  match goal with
  | Hr : agree R _ ?e |- _ => destruct e as [t2 [n2 run2]]
  end.
  destruct Hr as [Ht [= -> ->]]. cbn [fst] in Ht.
  both found_new_run_agree. destruct v as [mg' p'].
  destruct (drop n2 remaining); [by apply agree_ret|by apply IH].
Qed.

(** Sorting with two comparisons that answer alike gives the same
    list, and leaves related states. *)
Lemma list_sort_agree (l : list A) (s1 : S1) (s2 : S2) :
  R s1 s2 → agree R (list_sort lt1 l s1) (list_sort lt2 l s2).
Proof.
  intros Hs. unfold list_sort. case_decide; [by apply agree_ret|].
  both sort_loop_agree. destruct v as [mg p].
  both merge_force_collapse_agree. destruct v as [mg' p'].
  by apply agree_ret.
Qed.

End Agreement.

(** *** Sorting by a strict weak order *)

Section Sorts.
Context {A : Type}.
Variable ltb : A → A → bool.
Hypothesis ltb_order : strict_weak_order ltb.

Local Abbreviation lt := (pure_lt ltb).
Local Abbreviation le := (may_precede ltb).
Local Abbreviation ordered := (ListSort.ordered ltb).
Local Abbreviation below := (ListSort.below ltb).

Lemma pure_lt_eq (x y : A) (s : unit) : lt x y s = (s, ltb x y).
Proof. done. Qed.

Lemma ltb_irrefl (x : A) : ltb x x = false.
Proof. by destruct ltb_order as (? & _). Qed.

Lemma ltb_trans (x y z : A) : ltb x y = true → ltb y z = true → ltb x z = true.
Proof. destruct ltb_order as (_ & Ht & _). apply Ht. Qed.

Lemma ltb_le (x y : A) : ltb x y = true → le x y.
Proof.
  intros Hxy. unfold may_precede. destruct (ltb y x) eqn:Hyx; [|done].
  by rewrite <- (ltb_irrefl x), <- (ltb_trans x y x Hxy Hyx).
Qed.

Lemma le_refl (x : A) : le x x.
Proof. apply ltb_irrefl. Qed.

Lemma le_trans (x y z : A) : le x y → le y z → le x z.
Proof.
  unfold may_precede. intros Hxy Hyz. destruct (ltb z x) eqn:Hzx; [|done].
  destruct ltb_order as (_ & _ & Hn). destruct (Hn z y x Hzx); congruence.
Qed.

Lemma ltb_le_trans (x y z : A) : ltb x y = true → le y z → ltb x z = true.
Proof.
  unfold may_precede. intros Hxy Hyz.
  destruct ltb_order as (_ & _ & Hn). destruct (Hn x z y Hxy); congruence.
Qed.

Lemma le_ltb_trans (x y z : A) : le x y → ltb y z = true → ltb x z = true.
Proof.
  unfold may_precede. intros Hxy Hyz.
  destruct ltb_order as (_ & _ & Hn). destruct (Hn y x z Hyz); congruence.
Qed.

Lemma le_total (x y : A) : le x y ∨ le y x.
Proof.
  destruct (ltb y x) eqn:Hyx; [right; by apply ltb_le|by left].
Qed.

Local Instance le_transitive : Transitive le.
Proof. intros x y z. apply le_trans. Qed.

Lemma ordered_nil : ordered [].
Proof. constructor. Qed.

Lemma ordered_singleton (x : A) : ordered [x].
Proof. repeat constructor. Qed.

Lemma ordered_app (l1 l2 : list A) :
  ordered (l1 ++ l2) ↔ ordered l1 ∧ ordered l2 ∧ below l1 l2.
Proof. unfold ListSort.ordered. rewrite StronglySorted_app. unfold ListSort.below. tauto. Qed.

Lemma ordered_cons (x : A) (l : list A) :
  ordered (x :: l) ↔ ordered l ∧ below [x] l.
Proof.
  change (x :: l) with ([x] ++ l). rewrite ordered_app.
  pose proof (ordered_singleton x). tauto.
Qed.

Lemma below_nil_l (l : list A) : below [] l.
Proof. intros x y Hx. by apply elem_of_nil in Hx. Qed.

Lemma below_nil_r (l : list A) : below l [].
Proof. intros x y _ Hy. by apply elem_of_nil in Hy. Qed.

Lemma below_app_l (l1 l2 l : list A) : below (l1 ++ l2) l ↔ below l1 l ∧ below l2 l.
Proof.
  unfold ListSort.below. setoid_rewrite elem_of_app. split.
  - intros H. split; intros x y ? ?; apply H; auto.
  - intros [H1 H2] x y [?|?] ?; [by apply H1|by apply H2].
Qed.

Lemma below_app_r (l l1 l2 : list A) : below l (l1 ++ l2) ↔ below l l1 ∧ below l l2.
Proof.
  unfold ListSort.below. setoid_rewrite elem_of_app. split.
  - intros H. split; intros x y ? ?; apply H; auto.
  - intros [H1 H2] x y ? [?|?]; [by apply H1|by apply H2].
Qed.

Lemma below_cons_l (x : A) (l1 l : list A) : below (x :: l1) l ↔ below [x] l ∧ below l1 l.
Proof. change (x :: l1) with ([x] ++ l1). apply below_app_l. Qed.

Lemma below_cons_r (l : list A) (y : A) (l2 : list A) :
  below l (y :: l2) ↔ below l [y] ∧ below l l2.
Proof. change (y :: l2) with ([y] ++ l2). apply below_app_r. Qed.

Lemma below_singletons (x y : A) : below [x] [y] ↔ le x y.
Proof.
  unfold ListSort.below. setoid_rewrite list_elem_of_singleton. split.
  - intros H. by apply H.
  - by intros H ? ? -> ->.
Qed.

Lemma below_perm_l (l1 l1' l : list A) : l1 ≡ₚ l1' → below l1 l → below l1' l.
Proof. intros Hp H x y Hx. apply H. by rewrite Hp. Qed.

Lemma below_perm_r (l l2 l2' : list A) : l2 ≡ₚ l2' → below l l2 → below l l2'.
Proof. intros Hp H x y Hx Hy. apply H; [done|]. by rewrite Hp. Qed.

(** Everything before [l2]'s head is before all of an ordered [l2]. *)
Lemma below_head (l1 : list A) (y : A) (l2 : list A) :
  ordered (y :: l2) → below l1 [y] → below l1 (y :: l2).
Proof.
  intros Ho H. apply below_cons_r. split; [done|].
  apply ordered_cons in Ho as [_ Hy]. intros x z Hx Hz.
  apply (le_trans x y z); [apply H; [done|left]|apply Hy; [left|done]].
Qed.

(** Everything after [l1]'s last is after all of an ordered [l1]. *)
Lemma below_last (l1 : list A) (x : A) (l2 : list A) :
  ordered (l1 ++ [x]) → below [x] l2 → below (l1 ++ [x]) l2.
Proof.
  intros Ho H. apply below_app_l. split; [|done].
  apply ordered_app in Ho as (_ & _ & Hx). intros z y Hz Hy.
  apply (le_trans z x y); [apply Hx; [done|left]|apply H; [left|done]].
Qed.

Lemma ordered_take (n : nat) (l : list A) : ordered l → ordered (take n l).
Proof. rewrite <- (take_drop n l) at 1. rewrite ordered_app. tauto. Qed.

Lemma ordered_drop (n : nat) (l : list A) : ordered l → ordered (drop n l).
Proof. rewrite <- (take_drop n l) at 1. rewrite ordered_app. tauto. Qed.

Lemma below_take_drop (n : nat) (l : list A) : ordered l → below (take n l) (drop n l).
Proof. rewrite <- (take_drop n l) at 1. rewrite ordered_app. tauto. Qed.

(** **** Runs *)

Lemma descending_tail_spec (l : list A) (prev : A) (s : unit) :
  let n := (descending_tail lt prev l s).2 in
  (n ≤ length l)%nat ∧ Sorted (λ x y, ltb y x = true) (prev :: take n l).
Proof.
  revert prev s. induction l as [|x l IH]; intros prev s; simpl.
  { split; [done|repeat constructor]. }
  destruct (ltb x prev) eqn:Hx; simpl.
  - destruct (IH x s) as [Hn Hs].
    destruct (descending_tail lt x l s) as [s' n]. simpl in *.
    split; [lia|]. constructor; [done|by constructor].
  - split; [lia|repeat constructor].
Qed.

Lemma ascending_tail_spec (l : list A) (prev : A) (s : unit) :
  let n := (ascending_tail lt prev l s).2 in
  (n ≤ length l)%nat ∧ Sorted le (prev :: take n l).
Proof.
  revert prev s. induction l as [|x l IH]; intros prev s; simpl.
  { split; [done|repeat constructor]. }
  destruct (ltb x prev) eqn:Hx; simpl.
  - split; [lia|repeat constructor].
  - destruct (IH x s) as [Hn Hs].
    destruct (ascending_tail lt x l s) as [s' n]. simpl in *.
    split; [lia|]. constructor; [done|by constructor].
Qed.

Lemma descending_ordered (l : list A) :
  Sorted (λ x y, ltb y x = true) l → ordered (reverse l).
Proof.
  intros Hs. apply Sorted_reverse in Hs.
  apply Sorted_StronglySorted; [apply _|].
  induction Hs as [|x l' Hs IH Hhd]; constructor; [done|].
  destruct Hhd; constructor. by apply ltb_le.
Qed.

(** The run [count_run] finds, reversed if it descends, is ordered. *)
Lemma count_run_spec (l : list A) (s : unit) :
  let '(n, descending) := (count_run lt l s).2 in
  (n ≤ length l)%nat ∧ (l ≠ [] → 1 ≤ n)%nat ∧
  ordered (if descending then reverse (take n l) else take n l).
Proof.
  destruct l as [|x0 [|x1 l]]; simpl.
  - split; [done|]. split; [intros H; by destruct H|apply ordered_nil].
  - split; [done|]. split; [lia|apply ordered_singleton].
  - destruct (ltb x1 x0) eqn:Hx.
    + destruct (descending_tail_spec l x1 s) as [Hn Hs].
      destruct (descending_tail lt x1 l s) as [s' n]. simpl in *.
      split; [lia|]. split; [lia|].
      apply descending_ordered. simpl. constructor; [done|]. by constructor.
    + destruct (ascending_tail_spec l x1 s) as [Hn Hs].
      destruct (ascending_tail lt x1 l s) as [s' n]. simpl in *.
      split; [lia|]. split; [lia|].
      apply Sorted_StronglySorted; [apply _|]. simpl. constructor; [done|]. by constructor.
Qed.

(** **** Binary insertion *)

Lemma bisect_spec (fuel : nat) (pivot : A) (sorted : list A) (l r : nat) (s : unit) :
  ordered sorted →
  (l < r ≤ length sorted)%nat → (r - l ≤ fuel)%nat →
  Forall (λ x, le x pivot) (take l sorted) →
  Forall (λ x, ltb pivot x = true) (drop r sorted) →
  let k := (bisect lt fuel pivot sorted l r s).2 in
  Forall (λ x, le x pivot) (take k sorted) ∧
  Forall (λ x, ltb pivot x = true) (drop k sorted).
Proof.
  intros Ho. revert l r s. induction fuel as [|fuel IH]; intros l r s Hlr Hf Hl Hr.
  { lia. }
  cbn [bisect].
  assert (Hp : (l ≤ l + (r - l) / 2 < r)%nat).
  { pose proof (Nat.div_mod_eq (r - l) 2).
    pose proof (Nat.mod_upper_bound (r - l) 2). lia. }
  set (p := (l + (r - l) / 2)%nat) in *. clearbody p.
  destruct (sorted !! p) as [x|] eqn:Hx.
  2:{ apply lookup_ge_None in Hx. lia. }
  pose proof (take_drop_middle _ _ _ Hx) as Hmid.
  assert (Hbefore : below (take p sorted) [x] ∧ below [x] (drop (S p) sorted)).
  { rewrite <- Hmid in Ho. apply ordered_app in Ho as (_ & Ho & Hb).
    apply below_cons_r in Hb as [? _]. apply ordered_cons in Ho as [_ ?]. done. }
  destruct Hbefore as [Hb1 Hb2].
  rewrite !pure_lt_eq.
  destruct (ltb pivot x) eqn:Hpx.
  - (* the pivot goes before [x] *)
    assert (Hr' : Forall (λ y, ltb pivot y = true) (drop p sorted)).
    { rewrite (drop_S _ _ _ Hx). constructor; [done|].
      apply Forall_forall. intros y Hy.
      apply (ltb_le_trans pivot x y Hpx). apply Hb2; [left|done]. }
    case_decide.
    + apply IH; [lia|lia|done|done].
    + simpl. assert (p = l) as -> by lia. done.
  - assert (Hl' : Forall (λ y, le y pivot) (take (S p) sorted)).
    { rewrite (take_S_r _ _ _ Hx). apply Forall_app. split; [|by repeat constructor].
      apply Forall_forall. intros y Hy.
      apply (le_trans y x pivot); [apply Hb1; [done|left]|done]. }
    case_decide.
    + apply IH; [lia|lia|done|done].
    + simpl. assert (r = S p) as -> by lia. done.
Qed.

Lemma binarysort_ordered (rest sorted : list A) (s : unit) :
  ordered sorted → ordered (binarysort lt sorted rest s).2.
Proof.
  revert sorted s. induction rest as [|pivot rest IH]; intros sorted s Ho; simpl.
  { done. }
  destruct sorted as [|x sorted]; [apply IH, ordered_singleton|].
  pose proof (bisect_spec (length (x :: sorted)) pivot (x :: sorted) 0
                (length (x :: sorted)) s Ho) as Hb.
  destruct (bisect lt _ pivot (x :: sorted) 0 _ s) as [s' k].
  destruct Hb as [Hl Hr].
  { simpl. lia. }
  { lia. }
  { constructor. }
  { rewrite drop_all. constructor. }
  cbn [snd] in Hl, Hr.
  apply IH. apply ordered_app. split; [by apply ordered_take|]. split.
  - apply ordered_cons. split; [by apply ordered_drop|].
    intros a b Ha Hb. apply list_elem_of_singleton in Ha as ->.
    apply ltb_le. by eapply Forall_forall in Hr.
  - apply below_cons_r. split.
    + intros a b Ha Hb. apply list_elem_of_singleton in Hb as ->.
      by eapply Forall_forall in Hl.
    + by apply below_take_drop.
Qed.

(** **** Galloping *)

(** The exponential search stops with [lastofs] at a position where
    the test held, or at its start, and [ofs] at a position where the
    test failed, or beyond [maxofs]. *)
Lemma gallop_go_spec (fuel : nat) (onward : Z → unit → unit * bool) (q : Z → bool)
    (maxofs lastofs ofs : Z) (s : unit) :
  (∀ i s, onward i s = (s, q i)) →
  0 ≤ lastofs < ofs → maxofs < ofs + Z.of_nat fuel →
  let '(lastofs', ofs') := (gallop_go fuel onward maxofs lastofs ofs s).2 in
  lastofs ≤ lastofs' < ofs' ∧
  (lastofs' = lastofs ∨ (lastofs' < maxofs ∧ q lastofs' = true)) ∧
  (ofs' < maxofs → q ofs' = false).
Proof.
  intros Hq. revert lastofs ofs s.
  induction fuel as [|fuel IH]; intros lastofs ofs s Hl Hf; cbn [gallop_go].
  { simpl. split; [lia|]. split; [by left|lia]. }
  case_decide as Hm; [|simpl; split; [lia|]; split; [by left|lia]].
  rewrite Hq. destruct (q ofs) eqn:Hqo.
  - specialize (IH ofs (ofs * 2 + 1) s ltac:(lia) ltac:(lia)).
    destruct (gallop_go fuel onward maxofs ofs (ofs * 2 + 1) s) as [s' [lo' o']].
    simpl in *. destruct IH as (? & Hlo & ?). split; [lia|]. split; [|done].
    right. destruct Hlo as [->|?]; [done|done].
  - simpl. split; [lia|]. split; [by left|done].
Qed.

Section Search.
(** A test that holds on a first stretch of [0 .. n) and fails on the
    rest. *)
Variable P : Z → bool.
Variable n : Z.
Hypothesis P_down : ∀ i j, 0 ≤ i ≤ j → j < n → P j = true → P i = true.

Lemma gallop_bisect_spec (fuel : nat) (right_of : Z → unit → unit * bool)
    (lo hi : Z) (s : unit) :
  (∀ i s, right_of i s = (s, P i)) →
  0 ≤ lo ≤ hi → hi ≤ n → hi - lo ≤ Z.of_nat fuel →
  (∀ i, 0 ≤ i < lo → P i = true) →
  (∀ i, hi ≤ i < n → P i = false) →
  let k := (gallop_bisect fuel right_of lo hi s).2 in
  0 ≤ k ≤ n ∧ (∀ i, 0 ≤ i < k → P i = true) ∧ (∀ i, k ≤ i < n → P i = false).
Proof.
  intros Hr. revert lo hi s.
  induction fuel as [|fuel IH]; intros lo hi s Hlo Hhi Hf Hbelow Habove;
    cbn [gallop_bisect].
  { simpl. assert (lo = hi) as -> by lia. split; [lia|done]. }
  case_decide as Hlt.
  2:{ simpl. assert (lo = hi) as -> by lia. split; [lia|done]. }
  assert (Hm : lo ≤ lo + (hi - lo) / 2 < hi).
  { pose proof (Z.div_mod (hi - lo) 2 ltac:(lia)).
    pose proof (Z.mod_pos_bound (hi - lo) 2 ltac:(lia)). lia. }
  set (m := lo + (hi - lo) / 2) in *. clearbody m.
  rewrite Hr. destruct (P m) eqn:Hpm.
  - apply IH; [lia|lia|lia| |done].
    intros i Hi. apply (P_down i m); [lia|lia|done].
  - apply IH; [lia|lia|lia|done|].
    intros i Hi. destruct (P i) eqn:Hpi; [|done].
    rewrite <- Hpm. symmetry. apply (P_down m i); [lia|lia|done].
Qed.

(** What [gallop_left] and [gallop_right] have in common: gallop to
    the right of [hint] if the test holds there, to the left if not,
    then bisect. *)
Lemma gallop_search_spec (fuel : nat) (up down right_of : Z → unit → unit * bool)
    (hint : Z) (b : bool) (s : unit) :
  b = P hint →
  (∀ i s, up i s = (s, P (hint + i))) →
  (∀ i s, down i s = (s, negb (P (hint - i)))) →
  (∀ i s, right_of i s = (s, P i)) →
  0 ≤ hint < n → n < Z.of_nat fuel →
  let k :=
    (let '(s, (lastofs, ofs)) :=
       if b then
         let '(s, (lastofs, ofs)) := gallop_go fuel up (n - hint) 0 1 s in
         (s, (lastofs + hint, clamp (n - hint) ofs + hint))
       else
         let '(s, (lastofs, ofs)) := gallop_go fuel down (hint + 1) 0 1 s in
         (s, (hint - clamp (hint + 1) ofs, hint - lastofs)) in
     gallop_bisect fuel right_of (lastofs + 1) ofs s).2 in
  0 ≤ k ≤ n ∧ (∀ i, 0 ≤ i < k → P i = true) ∧ (∀ i, k ≤ i < n → P i = false).
Proof.
  intros -> Hup Hdown Hr Hh Hf. destruct (P hint) eqn:Hph.
  - pose proof (gallop_go_spec fuel up (λ i, P (hint + i)) (n - hint) 0 1 s Hup
                  ltac:(lia) ltac:(lia)) as Hg.
    destruct (gallop_go fuel up (n - hint) 0 1 s) as [s' [lo' o']].
    cbn [snd] in Hg. destruct Hg as (Hlo & Hlast & Hofs).
    unfold clamp. apply gallop_bisect_spec; [done|case_decide; lia|case_decide; lia
                                            |case_decide; lia| |].
    + intros i Hi. apply (P_down i (hint + lo')); [lia| |].
      * destruct Hlast as [->|[? _]]; lia.
      * destruct Hlast as [->|[_ ?]]; [by rewrite Z.add_0_r|done].
    + intros i Hi. case_decide; [lia|].
      assert (o' < n - hint ∨ o' = n - hint) as [Ho| ->] by lia; [|lia].
      specialize (Hofs Ho). destruct (P i) eqn:Hpi; [|done].
      rewrite <- Hofs. symmetry. apply (P_down (hint + o') i); [lia|lia|done].
  - pose proof (gallop_go_spec fuel down (λ i, negb (P (hint - i))) (hint + 1) 0 1 s Hdown
                  ltac:(lia) ltac:(lia)) as Hg.
    destruct (gallop_go fuel down (hint + 1) 0 1 s) as [s' [lo' o']].
    cbn [snd] in Hg. destruct Hg as (Hlo & Hlast & Hofs).
    unfold clamp. apply gallop_bisect_spec; [done|case_decide; [|destruct Hlast as [->|[? _]]]; lia
                                            |lia|case_decide; lia| |].
    + intros i Hi. case_decide; [lia|].
      assert (o' < hint + 1 ∨ o' = hint + 1) as [Ho| ->] by lia; [|lia].
      specialize (Hofs Ho). apply negb_false_iff in Hofs.
      apply (P_down i (hint - o')); [lia|lia|done].
    + intros i Hi. destruct (P i) eqn:Hpi; [|done].
      assert (P (hint - lo') = false) as <-.
      { destruct Hlast as [->|[_ ?]]; [by rewrite Z.sub_0_r|by apply negb_true_iff]. }
      symmetry. apply (P_down (hint - lo') i); [lia|lia|done].
Qed.

End Search.

Lemma ordered_lookup (a : list A) (i j : nat) (x y : A) :
  ordered a → a !! i = Some x → a !! j = Some y → (i ≤ j)%nat → le x y.
Proof.
  intros Ho Hi Hj Hij. destruct (decide (i = j)) as [->|Hne].
  { assert (x = y) as -> by congruence. apply le_refl. }
  rewrite <- (take_drop_middle _ _ _ Hi) in Ho, Hj.
  apply ordered_app in Ho as (_ & Ho & _). apply ordered_cons in Ho as [_ Hb].
  apply Hb; [left|].
  rewrite lookup_app_r in Hj by (rewrite length_take; lia).
  rewrite length_take in Hj. apply lookup_lt_Some in Hi.
  replace (j - i `min` length a)%nat with (S (j - i - 1)) in Hj by lia.
  simpl in Hj. by eapply list_elem_of_lookup_2.
Qed.

Lemma item_Some (a : list A) (i : Z) (x : A) :
  item a i = Some x ↔ 0 ≤ i ∧ a !! Z.to_nat i = Some x.
Proof. unfold item. case_decide; [tauto|]. split; [done|lia]. Qed.

Lemma item_in_range (a : list A) (i : Z) :
  0 ≤ i < Z.of_nat (length a) → is_Some (item a i).
Proof.
  intros Hi. unfold item. rewrite decide_True by lia.
  apply lookup_lt_is_Some. lia.
Qed.

(** From positions to the two parts of the list. *)
Lemma cut_by_test (P : Z → bool) (Q1 Q2 : A → Prop) (a : list A) (k : Z) :
  0 ≤ k ≤ Z.of_nat (length a) →
  (∀ i x, item a i = Some x → P i = true → Q1 x) →
  (∀ i x, item a i = Some x → P i = false → Q2 x) →
  (∀ i, 0 ≤ i < k → P i = true) →
  (∀ i, k ≤ i < Z.of_nat (length a) → P i = false) →
  Forall Q1 (take (Z.to_nat k) a) ∧ Forall Q2 (drop (Z.to_nat k) a).
Proof.
  intros Hk H1 H2 Hlo Hhi. split; apply Forall_lookup; intros i x Hx.
  - apply lookup_take_Some in Hx as [Hx Hi].
    apply (H1 (Z.of_nat i)); [apply item_Some; split; [lia|by rewrite Nat2Z.id]|]. apply Hlo. lia.
  - rewrite lookup_drop in Hx. pose proof (lookup_lt_Some _ _ _ Hx).
    apply (H2 (Z.of_nat (Z.to_nat k + i))); [apply item_Some; split; [lia|by rewrite Nat2Z.id]|].
    apply Hhi. lia.
Qed.

(** [gallop_left] cuts an ordered list where [key] goes: before the
    cut everything is less than [key], after it nothing is. *)
Lemma gallop_left_spec (key : A) (a : list A) (hint : Z) (s : unit) :
  ordered a → 0 ≤ hint < Z.of_nat (length a) →
  let k := (gallop_left lt key a hint s).2 in
  0 ≤ k ≤ Z.of_nat (length a) ∧
  Forall (λ x, ltb x key = true) (take (Z.to_nat k) a) ∧
  Forall (λ x, ltb x key = false) (drop (Z.to_nat k) a).
Proof.
  intros Ho Hh.
  set (P := λ i, match item a i with Some x => ltb x key | None => false end).
  assert (Hitem : ∀ i s, item_lt_key lt key a i s = (s, P i)).
  { intros i s'. unfold item_lt_key, P. by destruct (item a i). }
  assert (Hdown : ∀ i j, 0 ≤ i ≤ j → j < Z.of_nat (length a) → P j = true → P i = true).
  { intros i j Hij Hj. unfold P.
    destruct (item_in_range a i ltac:(lia)) as [x Hx].
    destruct (item_in_range a j ltac:(lia)) as [y Hy]. rewrite Hx, Hy.
    apply item_Some in Hx as [_ Hx]. apply item_Some in Hy as [_ Hy].
    apply le_ltb_trans. apply (ordered_lookup a _ _ x y Ho Hx Hy). lia. }
  unfold gallop_left. rewrite Hitem.
  pose proof (gallop_search_spec P (Z.of_nat (length a)) Hdown (S (length a))
    (λ ofs, item_lt_key lt key a (hint + ofs))
    (negated (λ ofs, item_lt_key lt key a (hint - ofs)))
    (item_lt_key lt key a) hint (P hint) s eq_refl) as Hg.
  cbv zeta in Hg. destruct Hg as (Hk & Hlo & Hhi).
  { intros. apply Hitem. }
  { intros. unfold negated. by rewrite Hitem. }
  { done. }
  { done. }
  { lia. }
  split; [done|]. apply (cut_by_test P); try done.
  - intros i x Hx. unfold P. by rewrite Hx.
  - intros i x Hx. unfold P. by rewrite Hx.
Qed.

(** [gallop_right] cuts an ordered list where [key] goes, after the
    elements that tie with it: before the cut nothing is greater than
    [key], after it everything is. *)
Lemma gallop_right_spec (key : A) (a : list A) (hint : Z) (s : unit) :
  ordered a → 0 ≤ hint < Z.of_nat (length a) →
  let k := (gallop_right lt key a hint s).2 in
  0 ≤ k ≤ Z.of_nat (length a) ∧
  Forall (λ x, ltb key x = false) (take (Z.to_nat k) a) ∧
  Forall (λ x, ltb key x = true) (drop (Z.to_nat k) a).
Proof.
  intros Ho Hh.
  set (P := λ i, match item a i with Some x => negb (ltb key x) | None => true end).
  assert (Hitem : ∀ i s, key_lt_item lt key a i s = (s, negb (P i))).
  { intros i s'. unfold key_lt_item, P. destruct (item a i); [|done].
    by rewrite pure_lt_eq, negb_involutive. }
  assert (Hdown : ∀ i j, 0 ≤ i ≤ j → j < Z.of_nat (length a) → P j = true → P i = true).
  { intros i j Hij Hj. unfold P.
    destruct (item_in_range a i ltac:(lia)) as [x Hx].
    destruct (item_in_range a j ltac:(lia)) as [y Hy]. rewrite Hx, Hy.
    apply item_Some in Hx as [_ Hx]. apply item_Some in Hy as [_ Hy].
    rewrite !negb_true_iff. intros Hky.
    apply (le_trans x y key); [|done]. apply (ordered_lookup a _ _ x y Ho Hx Hy). lia. }
  unfold gallop_right. rewrite Hitem.
  pose proof (gallop_search_spec P (Z.of_nat (length a)) Hdown (S (length a))
    (negated (λ ofs, key_lt_item lt key a (hint + ofs)))
    (λ ofs, key_lt_item lt key a (hint - ofs))
    (negated (key_lt_item lt key a)) hint (P hint) s eq_refl) as Hg.
  cbv zeta in Hg. destruct Hg as (Hk & Hlo & Hhi).
  { intros. unfold negated. by rewrite Hitem, negb_involutive. }
  { intros. apply Hitem. }
  { intros. unfold negated. by rewrite Hitem, negb_involutive. }
  { done. }
  { lia. }
  assert (Hsame :
    (let '(s0, (lastofs, ofs)) :=
       if negb (P hint)
       then
        let '(s0, (lastofs, ofs)) :=
          gallop_go (S (length a)) (λ ofs, key_lt_item lt key a (hint - ofs))
            (hint + 1) 0 1 s in
        (s0, (hint - clamp (hint + 1) ofs, hint - lastofs))
       else
        let '(s0, (lastofs, ofs)) :=
          gallop_go (S (length a))
            (negated (λ ofs, key_lt_item lt key a (hint + ofs)))
            (Z.of_nat (length a) - hint) 0 1 s in
        (s0, (lastofs + hint, clamp (Z.of_nat (length a) - hint) ofs + hint)) in
     gallop_bisect (S (length a)) (negated (key_lt_item lt key a)) (lastofs + 1) ofs s0) =
    (let '(s0, (lastofs, ofs)) :=
       if P hint
       then
        let '(s0, (lastofs, ofs)) :=
          gallop_go (S (length a))
            (negated (λ ofs, key_lt_item lt key a (hint + ofs)))
            (Z.of_nat (length a) - hint) 0 1 s in
        (s0, (lastofs + hint, clamp (Z.of_nat (length a) - hint) ofs + hint))
       else
        let '(s0, (lastofs, ofs)) :=
          gallop_go (S (length a)) (λ ofs, key_lt_item lt key a (hint - ofs))
            (hint + 1) 0 1 s in
        (s0, (hint - clamp (hint + 1) ofs, hint - lastofs)) in
     gallop_bisect (S (length a)) (negated (key_lt_item lt key a)) (lastofs + 1) ofs s0))
    by by destruct (P hint).
  cbv zeta. rewrite Hsame.
  split; [done|]. apply (cut_by_test P); try done.
  - intros i x Hx. unfold P. rewrite Hx. by rewrite negb_true_iff.
  - intros i x Hx. unfold P. rewrite Hx. by rewrite negb_false_iff.
Qed.

(** **** Merging *)

Lemma Forall_below_key (key : A) (l : list A) :
  Forall (λ x, ltb key x = false) l → below l [key].
Proof.
  intros Hf x y Hx Hy. apply list_elem_of_singleton in Hy as ->.
  by eapply Forall_forall in Hf.
Qed.

Lemma Forall_key_below (key : A) (l : list A) :
  Forall (λ x, ltb x key = false) l → below [key] l.
Proof.
  intros Hf x y Hx Hy. apply list_elem_of_singleton in Hx as ->.
  by eapply Forall_forall in Hf.
Qed.

Lemma Forall_above_key (key : A) (l : list A) :
  Forall (λ x, ltb key x = true) l → below [key] l.
Proof.
  intros Hf x y Hx Hy. apply list_elem_of_singleton in Hx as ->.
  apply ltb_le. by eapply Forall_forall in Hf.
Qed.

Lemma Forall_under_key (key : A) (l : list A) :
  Forall (λ x, ltb x key = true) l → below l [key].
Proof.
  intros Hf x y Hx Hy. apply list_elem_of_singleton in Hy as ->.
  apply ltb_le. by eapply Forall_forall in Hf.
Qed.

Lemma strictly_below_below (l1 l2 : list A) : strictly_below ltb l1 l2 → below l1 l2.
Proof. intros H x y Hx Hy. apply ltb_le. by apply H. Qed.

Lemma below_trans_elem (l1 : list A) (y : A) (l2 : list A) :
  below l1 [y] → below [y] l2 → below l1 l2.
Proof.
  intros H1 H2 x z Hx Hz. apply (le_trans x y z); [apply H1|apply H2]; (done || left).
Qed.

(** Turn [x :: l] into [[x] ++ l] wherever [l] is not empty. *)
Ltac cons_to_app :=
  repeat match goal with
  | |- context [?x :: ?l] =>
      lazymatch l with
      | [] => fail
      | _ => change (x :: l) with ([x] ++ l)
      end
  | H : context [?x :: ?l] |- _ =>
      lazymatch l with
      | [] => fail
      | _ => change (x :: l) with ([x] ++ l) in H
      end
  end.

(** Take lists apart at every [++] and settle what is left from the
    facts at hand. *)
Ltac by_order :=
  cons_to_app;
  rewrite ?ordered_app, ?below_app_l, ?below_app_r in *;
  intuition (eauto using ordered_singleton, ordered_nil, below_nil_l, below_nil_r,
               below_trans_elem).

(** [dest] holds what has been merged: it is ordered and stands
    before what is left of the two runs, which are ordered. *)
Local Abbreviation merging dest a b :=
  (ordered dest ∧ ordered a ∧ ordered b ∧ below dest a ∧ below dest b).

(** The last element of [a] is greater than all of [b]. *)
Local Abbreviation topped a b :=
  (∀ a9 : A, last a = Some a9 → strictly_below ltb b [a9]).

Lemma topped_single (x : A) (b : list A) : topped [x] b → below b [x].
Proof. intros H. apply strictly_below_below. by apply H. Qed.

Lemma topped_drop (k : nat) (a b : list A) :
  topped a b → topped (drop k a) b.
Proof.
  intros H a9 Hl. apply H. rewrite <- (take_drop k a).
  destruct (drop k a) as [|x l] eqn:Hd; [done|].
  rewrite last_app. by rewrite Hl.
Qed.

Lemma topped_tail (x : A) (a b : list A) : topped (x :: a) b → topped a b.
Proof. apply (topped_drop 1 (x :: a)). Qed.

Lemma topped_sub (a b b' : list A) : b' ⊆ b → topped a b → topped a b'.
Proof. intros Hs H a9 Hl x y Hx Hy. apply (H a9 Hl); [by apply Hs|done]. Qed.

Lemma merge_lo_loops_ordered (fuel : nat) :
  (∀ dest a b acount bcount mg s,
     merging dest a b → topped a b → (2 ≤ length a)%nat →
     (length a + length b < fuel)%nat →
     ordered (merge_lo_straight lt fuel dest a b acount bcount mg s).2.2) ∧
  (∀ dest a b mg s,
     merging dest a b → topped a b → (2 ≤ length a)%nat →
     (length a + length b < fuel)%nat →
     ordered (merge_lo_gallop lt fuel dest a b mg s).2.2).
Proof.
  induction fuel as [|fuel [IHs IHg]]; [split; intros; lia|]. split.
  - intros dest a b acount bcount mg s Hm Ht Ha Hf. cbn [merge_lo_straight].
    destruct a as [|a0 a']; [simpl in Ha; lia|].
    destruct b as [|b0 b']; [simpl; by_order|].
    rewrite pure_lt_eq. destruct (ltb b0 a0) eqn:Hk.
    + (* [b0] goes first *)
      assert (below [b0] (a0 :: a')).
      { apply below_head; [tauto|]. apply below_singletons. by apply ltb_le. }
      assert (topped (a0 :: a') b') by (eapply topped_sub; [|done]; set_solver).
      destruct b' as [|b1 b'']; [simpl; by_order|].
      case_decide; [apply IHg|apply IHs]; try done; try (simpl in *; lia); by_order.
    + assert (below [a0] (b0 :: b')).
      { apply below_head; [tauto|]. by apply below_singletons. }
      destruct a' as [|a1 [|a2 a'']].
      * simpl in Ha. lia.
      * pose proof (topped_single a1 (b0 :: b') (topped_tail _ _ _ Ht)).
        simpl. by_order.
      * pose proof (topped_tail _ _ _ Ht).
        case_decide; [apply IHg|apply IHs]; try done; try (simpl in *; lia); by_order.
  - intros dest a b mg s Hm Ht Ha Hf. cbn [merge_lo_gallop].
    destruct b as [|b0 b']; [simpl; by_order|].
    pose proof (gallop_right_spec b0 a 0 s) as Hg.
    destruct (gallop_right lt b0 a 0 s) as [s1 k].
    destruct Hg as (Hk & Hlow & Hhigh); [tauto|lia|]. cbn [snd] in Hk, Hlow, Hhigh.
    apply Forall_below_key in Hlow. apply Forall_above_key in Hhigh.
    pose proof (topped_drop (Z.to_nat k) _ _ Ht) as Ht2.
    assert (Hlen : length (take (Z.to_nat k) a) = Z.to_nat k) by (rewrite length_take; lia).
    assert (Hk0 : k = 0 → drop (Z.to_nat k) a = a) by (by intros ->).
    assert (Hcut : take (Z.to_nat k) a ++ drop (Z.to_nat k) a = a) by apply take_drop.
    assert (Hlen2 : (length (drop (Z.to_nat k) a) ≤ length a)%nat)
      by (rewrite length_drop; lia).
    generalize dependent (take (Z.to_nat k) a). intros a1 Hlow Hlen Hcut.
    generalize dependent (drop (Z.to_nat k) a). intros a2 Hhigh Ht2 Hk0 Hlen2 Hcut.
    assert (Hm2 : merging (dest ++ a1 ++ [b0]) a2 b' ∧ below a1 (b0 :: b')
                  ∧ ordered (dest ++ a1) ∧ below (dest ++ a1) a2
                  ∧ below (dest ++ a1) (b0 :: b')).
    { assert (below a1 (b0 :: b')) by (apply below_head; tauto).
      subst a. by_order. }
    destruct Hm2 as (Hm2 & Hb1 & Hd1 & Hd2 & Hd3).
    destruct (bool_decide (k ≠ 0) && bool_decide (length a2 = 1%nat)) eqn:He1.
    { apply andb_true_iff in He1 as [_ He1]. apply bool_decide_eq_true in He1.
      destruct a2 as [|x [|? ?]]; try done.
      pose proof (topped_single x _ Ht2). simpl. rewrite <- !app_assoc.
      by_order. }
    destruct (bool_decide (k ≠ 0) && bool_decide (length a2 = 0%nat)) eqn:He2.
    { apply andb_true_iff in He2 as [_ He2]. apply bool_decide_eq_true in He2.
      destruct a2; [|done]. simpl. rewrite <- !app_assoc. by_order. }
    assert (Ha2 : (2 ≤ length a2)%nat).
    { destruct (decide (k = 0)) as [Hz|Hz]; [by rewrite Hk0|].
      rewrite bool_decide_eq_true_2 in He1, He2 by done. simpl in *.
      apply bool_decide_eq_false in He1, He2. lia. }
    destruct b' as [|b1 b'']; [simpl; rewrite <- !app_assoc; by_order|].
    destruct a2 as [|a0 a']; [simpl in Ha2; lia|].
    rewrite <- !app_assoc in *.
    pose proof (gallop_left_spec a0 (b1 :: b'') 0 s1) as Hg.
    destruct (gallop_left lt a0 (b1 :: b'') 0 s1) as [s2 k'].
    destruct Hg as (Hk' & Hlow' & Hhigh'); [tauto|simpl; lia|].
    cbn [snd] in Hk', Hlow', Hhigh'.
    apply Forall_under_key in Hlow'. apply Forall_key_below in Hhigh'.
    assert (Ht3 : topped (a0 :: a') (drop (Z.to_nat k') (b1 :: b''))).
    { eapply topped_sub; [|exact Ht2]. intros x Hx. right.
      by apply (subseteq_drop (Z.to_nat k') (b1 :: b'')). }
    assert (Hcut' : take (Z.to_nat k') (b1 :: b'') ++ drop (Z.to_nat k') (b1 :: b'')
                    = b1 :: b'') by apply take_drop.
    assert (Hlen' : (length (drop (Z.to_nat k') (b1 :: b'')) ≤ length (b1 :: b''))%nat)
      by (rewrite length_drop; lia).
    generalize dependent (take (Z.to_nat k') (b1 :: b'')). intros b1' Hlow' Hcut'.
    generalize dependent (drop (Z.to_nat k') (b1 :: b'')). intros b2 Hhigh' Ht3 Hlen' Hcut'.
    assert (Hm3 : merging (dest ++ a1 ++ [b0] ++ b1' ++ [a0]) a' b2
                  ∧ ordered (dest ++ a1 ++ [b0] ++ b1')
                  ∧ below (dest ++ a1 ++ [b0] ++ b1') (a0 :: a')
                  ∧ below (dest ++ a1 ++ [b0] ++ b1') b2).
    { assert (below b1' (a0 :: a')) by (apply below_head; tauto).
      assert (ordered (b1' ++ b2) ∧ below (dest ++ a1 ++ [b0]) (b1' ++ b2))
        by (rewrite Hcut'; tauto).
      by_order. }
    destruct Hm3 as (Hm3 & Hd4 & Hd5 & Hd6).
    destruct (bool_decide (k' ≠ 0) && bool_decide (length b2 = 0%nat)) eqn:He3.
    { apply andb_true_iff in He3 as [_ He3]. apply bool_decide_eq_true in He3.
      destruct b2; [|done]. simpl. rewrite <- !app_assoc. rewrite app_nil_r.
      cbn [app] in *. by_order. }
    pose proof (topped_tail _ _ _ Ht3) as Ht4.
    destruct (bool_decide (length a' = 1%nat)) eqn:He4.
    { apply bool_decide_eq_true in He4. destruct a' as [|x [|? ?]]; try done.
      pose proof (topped_single x _ Ht4). simpl. rewrite <- !app_assoc.
      cbn [app] in *. by_order. }
    apply bool_decide_eq_false in He4.
    assert (Hf2 : (length a' + length b2 < fuel)%nat).
    { subst a. rewrite length_app in Hf. simpl in *. lia. }
    rewrite <- !app_assoc. cbn [app] in *.
    destruct (bool_decide (k >= MIN_GALLOP) || bool_decide (k' >= MIN_GALLOP));
      [apply IHg|apply IHs]; try done; simpl in *; lia.
Qed.

(** [merge_lo] on two ordered runs, the first element of [b] less
    than the first of [a] and the last of [a] greater than all of
    [b], as [merge_at] hands them over. *)
Lemma merge_lo_ordered (a b : list A) (mg : Z) (s : unit) :
  ordered a → ordered b → a ≠ [] →
  (∀ a0 b0, head a = Some a0 → head b = Some b0 → ltb b0 a0 = true) →
  topped a b →
  ordered (merge_lo lt a b mg s).2.2.
Proof.
  intros Ha Hb Hne Hhead Ht. unfold merge_lo.
  destruct b as [|b0 b']; [done|].
  destruct a as [|a0 a']; [done|].
  assert (below [b0] (a0 :: a')).
  { apply below_head; [done|]. apply below_singletons, ltb_le. by apply Hhead. }
  assert (topped (a0 :: a') b') by (eapply topped_sub; [|done]; set_solver).
  destruct b' as [|b1 b'']; [simpl; by_order|].
  case_bool_decide as Hl.
  - destruct a' as [|? ?]; [|done].
    pose proof (topped_single a0 _ Ht). simpl. by_order.
  - apply (proj1 (merge_lo_loops_ordered _)); try done.
    + by_order.
    + destruct a'; [done|simpl; lia].
    + simpl. lia.
Qed.

(** **** The mirror image *)

(** [dest] holds the end of the merge: it is ordered and stands after
    what is left of the two runs. *)
Local Abbreviation merging_hi a b dest :=
  (ordered a ∧ ordered b ∧ ordered dest ∧ below a dest ∧ below b dest).

(** The first element of [b] is less than all of [a]. *)
Local Abbreviation bottomed a b :=
  (∀ b0 : A, head b = Some b0 → strictly_below ltb [b0] a).

Lemma bottomed_single (x : A) (a : list A) : bottomed a [x] → below [x] a.
Proof. intros H. apply strictly_below_below. by apply H. Qed.

Lemma bottomed_take (k : nat) (a b : list A) : bottomed a b → bottomed a (take k b).
Proof.
  intros H b0 Hh. apply H. destruct b; [by rewrite take_nil in Hh|].
  by destruct k.
Qed.

Lemma bottomed_sub (a a' b : list A) : a' ⊆ a → bottomed a b → bottomed a' b.
Proof. intros Hs H b0 Hh x y Hx Hy. apply (H b0 Hh); [done|by apply Hs]. Qed.

Lemma unsnoc_snoc (l : list A) (x : A) : unsnoc (l ++ [x]) = Some (l, x).
Proof. unfold unsnoc. by rewrite last_snoc, removelast_last. Qed.

Lemma unsnoc_cases (l : list A) :
  (l = [] ∧ unsnoc l = None) ∨ ∃ l' x, l = l' ++ [x] ∧ unsnoc l = Some (l', x).
Proof.
  destruct l as [|y l _] using rev_ind; [by left|].
  right. exists l, y. by rewrite unsnoc_snoc.
Qed.

Lemma merge_hi_loops_ordered (fuel : nat) :
  (∀ a b dest acount bcount mg s,
     merging_hi a b dest → bottomed a b → a ≠ [] → (2 ≤ length b)%nat →
     (length a + length b < fuel)%nat →
     ordered (merge_hi_straight lt fuel a b dest acount bcount mg s).2.2) ∧
  (∀ a b dest mg s,
     merging_hi a b dest → bottomed a b → a ≠ [] → (2 ≤ length b)%nat →
     (length a + length b < fuel)%nat →
     ordered (merge_hi_gallop lt fuel a b dest mg s).2.2).
Proof.
  induction fuel as [|fuel [IHs IHg]]; [split; intros; lia|]. split.
  - intros a b dest acount bcount mg s Hm Hb Ha Hlb Hf. cbn [merge_hi_straight].
    destruct (unsnoc_cases a) as [[-> _]|(a' & a9 & -> & ->)]; [done|].
    destruct (unsnoc_cases b) as [[-> _]|(b' & b9 & -> & ->)]; [simpl in Hlb; lia|].
    rewrite length_app in Hf, Hlb. rewrite length_app in Hf. simpl in Hf, Hlb.
    rewrite pure_lt_eq. destruct (ltb b9 a9) eqn:Hk.
    + (* [a9] goes last *)
      assert (below (b' ++ [b9]) [a9]).
      { apply below_last; [tauto|]. apply below_singletons. by apply ltb_le. }
      assert (bottomed a' (b' ++ [b9])) by (eapply bottomed_sub; [|done]; set_solver).
      destruct a' as [|a0 a'']; [simpl; by_order|].
      case_decide; [apply IHg|apply IHs]; try done;
        try (rewrite ?length_app; simpl in *; lia); by_order.
    + assert (below (a' ++ [a9]) [b9]).
      { apply below_last; [tauto|]. by apply below_singletons. }
      pose proof (bottomed_take (length b') _ _ Hb) as Hb2.
      rewrite take_app_length in Hb2.
      destruct b' as [|b0 [|b1 b'']].
      * simpl in Hlb. lia.
      * pose proof (bottomed_single b0 _ Hb2). simpl. by_order.
      * case_decide; [apply IHg|apply IHs]; try done;
          try (rewrite ?length_app; simpl in *; lia); by_order.
  - intros a b dest mg s Hm Hb Ha Hlb Hf. cbn [merge_hi_gallop].
    destruct (unsnoc_cases b) as [[-> _]|(b' & b9 & -> & ->)]; [simpl in Hlb; lia|].
    rewrite length_app in Hf, Hlb. simpl in Hf, Hlb.
    pose proof (gallop_right_spec b9 a (Z.of_nat (length a) - 1) s) as Hg.
    destruct (gallop_right lt b9 a (Z.of_nat (length a) - 1) s) as [s1 k].
    destruct Hg as (Hk & Hlow & Hhigh); [tauto|destruct a; [done|simpl; lia]|].
    cbn [snd] in Hk, Hlow, Hhigh.
    apply Forall_below_key in Hlow. apply Forall_above_key in Hhigh.
    pose proof (bottomed_take (length b') _ _ Hb) as Hb2.
    rewrite take_app_length in Hb2.
    assert (Hb3 : bottomed (take (Z.to_nat k) a) b').
    { eapply bottomed_sub; [|exact Hb2]. apply subseteq_take. }
    assert (Hkn : Z.of_nat (length a) - k = 0 → take (Z.to_nat k) a = a).
    { intros Hz. apply take_ge. lia. }
    assert (Hlen2 : (length (take (Z.to_nat k) a) ≤ length a)%nat)
      by (rewrite length_take; lia).
    assert (Hcut : take (Z.to_nat k) a ++ drop (Z.to_nat k) a = a) by apply take_drop.
    generalize dependent (drop (Z.to_nat k) a). intros a2 Hhigh Hcut.
    generalize dependent (take (Z.to_nat k) a). intros a1 Hlow Hb3 Hkn Hlen2 Hcut.
    assert (Hm2 : merging_hi a1 b' ([b9] ++ a2 ++ dest) ∧ below (b' ++ [b9]) a2
                  ∧ ordered (a2 ++ dest) ∧ below a1 (a2 ++ dest)
                  ∧ below (b' ++ [b9]) (a2 ++ dest)).
    { assert (below (b' ++ [b9]) a2) by (apply below_last; tauto).
      subst a. by_order. }
    destruct Hm2 as (Hm2 & Hb1 & Hd1 & Hd2 & Hd3).
    destruct (bool_decide (Z.of_nat (length a) - k ≠ 0) && bool_decide (length a1 = 0%nat))
      eqn:He1.
    { apply andb_true_iff in He1 as [_ He1]. apply bool_decide_eq_true in He1.
      destruct a1; [|done]. simpl. by_order. }
    assert (Ha1 : a1 ≠ []).
    { destruct (decide (Z.of_nat (length a) - k = 0)) as [Hz|Hz]; [by rewrite Hkn|].
      rewrite bool_decide_eq_true_2 in He1 by done. simpl in *.
      apply bool_decide_eq_false in He1. by destruct a1. }
    destruct b' as [|b0 [|b1 b'']].
    { simpl in Hlb. lia. }
    { pose proof (bottomed_single b0 _ Hb3). simpl. cbn [app] in *. by_order. }
    destruct (unsnoc_cases a1) as [[-> _]|(a' & a9 & -> & ->)]; [done|].
    set (b := b0 :: b1 :: b'') in *.
    pose proof (gallop_left_spec a9 b (Z.of_nat (length b) - 1) s1) as Hg.
    destruct (gallop_left lt a9 b (Z.of_nat (length b) - 1) s1) as [s2 k'].
    destruct Hg as (Hk' & Hlow' & Hhigh'); [tauto|unfold b; simpl; lia|].
    cbn [snd] in Hk', Hlow', Hhigh'.
    apply Forall_under_key in Hlow'. apply Forall_key_below in Hhigh'.
    pose proof (bottomed_take (Z.to_nat k') _ _ Hb3) as Hb4.
    assert (Hkn' : Z.of_nat (length b) - k' = 0 → take (Z.to_nat k') b = b).
    { intros Hz. apply take_ge. lia. }
    assert (Hlen' : (length (take (Z.to_nat k') b) ≤ length b)%nat)
      by (rewrite length_take; lia).
    assert (Hcut' : take (Z.to_nat k') b ++ drop (Z.to_nat k') b = b) by apply take_drop.
    assert (Hlb' : (2 ≤ length b)%nat) by (unfold b; simpl; lia).
    assert (Hfb : (length (a' ++ [a9]) + length b < fuel)%nat)
      by (subst a; rewrite length_app in Hf; unfold b; simpl in *; lia).
    clearbody b.
    generalize dependent (drop (Z.to_nat k') b). intros b2 Hhigh' Hcut'.
    generalize dependent (take (Z.to_nat k') b). intros b1' Hlow' Hb4 Hkn' Hlen' Hcut'.
    assert (Hm3 : merging_hi a' b1' ([a9] ++ b2 ++ [b9] ++ a2 ++ dest)
                  ∧ ordered (b2 ++ [b9] ++ a2 ++ dest)
                  ∧ below (a' ++ [a9]) (b2 ++ [b9] ++ a2 ++ dest)
                  ∧ below b1' (b2 ++ [b9] ++ a2 ++ dest)).
    { assert (below (a' ++ [a9]) b2) by (apply below_last; tauto).
      assert (ordered (b1' ++ b2) ∧ below (b1' ++ b2) ([b9] ++ a2 ++ dest))
        by (rewrite Hcut'; tauto).
      by_order. }
    destruct Hm3 as (Hm3 & Hd4 & Hd5 & Hd6).
    assert (Hb5 : bottomed a' b1').
    { eapply bottomed_sub; [|exact Hb4]. set_solver. }
    destruct (bool_decide (Z.of_nat (length b) - k' ≠ 0) && bool_decide (length b1' = 1%nat))
      eqn:He2.
    { apply andb_true_iff in He2 as [_ He2]. apply bool_decide_eq_true in He2.
      destruct b1' as [|x [|? ?]]; try done.
      pose proof (bottomed_single x _ Hb4). simpl. cbn [app] in *. by_order. }
    destruct (bool_decide (Z.of_nat (length b) - k' ≠ 0) && bool_decide (length b1' = 0%nat))
      eqn:He3.
    { apply andb_true_iff in He3 as [_ He3]. apply bool_decide_eq_true in He3.
      destruct b1'; [|done]. simpl. cbn [app] in *. by_order. }
    assert (Hb1' : (2 ≤ length b1')%nat).
    { destruct (decide (Z.of_nat (length b) - k' = 0)) as [Hz|Hz]; [by rewrite Hkn'|].
      rewrite bool_decide_eq_true_2 in He2, He3 by done. simpl in *.
      apply bool_decide_eq_false in He2, He3. lia. }
    destruct (bool_decide (length a' = 0%nat)) eqn:He4.
    { apply bool_decide_eq_true in He4. destruct a'; [|done].
      simpl. cbn [app] in *. by_order. }
    apply bool_decide_eq_false in He4.
    rewrite length_app in Hfb. simpl in Hfb.
    destruct (bool_decide (Z.of_nat (length a) - k >= MIN_GALLOP)
              || bool_decide (Z.of_nat (length b) - k' >= MIN_GALLOP));
      [apply IHg|apply IHs]; try done; try lia; by destruct a'.
Qed.

Lemma merge_hi_ordered (a b : list A) (mg : Z) (s : unit) :
  ordered a → ordered b → b ≠ [] →
  (∀ a0 b0, head a = Some a0 → head b = Some b0 → ltb b0 a0 = true) →
  topped a b →
  ordered (merge_hi lt a b mg s).2.2.
Proof.
  intros Ha Hb Hne Hhead Ht. unfold merge_hi.
  destruct (unsnoc_cases a) as [[-> ->]|(a' & a9 & -> & ->)]; [done|].
  assert (Hbot : bottomed (a' ++ [a9]) b).
  { intros b0 Hb0 x y Hx Hy. apply list_elem_of_singleton in Hx as ->.
    destruct (a' ++ [a9]) as [|a0 l] eqn:Ha0; [by apply elem_of_nil in Hy|].
    specialize (Hhead a0 b0 eq_refl Hb0).
    apply elem_of_cons in Hy as [->|Hy]; [done|].
    apply (ltb_le_trans b0 a0 y Hhead).
    apply ordered_cons in Ha as [_ Ha]. apply Ha; [left|done]. }
  assert (Hb9 : below b [a9]).
  { apply strictly_below_below, Ht. by rewrite last_snoc. }
  assert (bottomed a' b) by (eapply bottomed_sub; [|done]; set_solver).
  destruct a' as [|a0 a'']; [simpl; by_order|].
  case_bool_decide as Hl.
  - destruct b as [|b0 [|? ?]]; try done.
    pose proof (bottomed_single b0 _ Hbot). simpl. by_order.
  - apply (proj1 (merge_hi_loops_ordered _)); try done.
    + by_order.
    + destruct b as [|? [|? ?]]; try done. simpl. lia.
    + rewrite length_app. simpl. lia.
Qed.

(** **** [merge_at] and the stack of runs *)

Lemma merge_runs_ordered (a b : list A) (mg : Z) (s : unit) :
  ordered a → ordered b → ordered (merge_runs lt a b mg s).2.2.
Proof.
  intros Ha Hb. unfold merge_runs.
  destruct b as [|b0 b'] eqn:Hbeq; [done|]. rewrite <- Hbeq in *.
  assert (Hbne : b ≠ []) by (by rewrite Hbeq).
  assert (Hb0 : head b = Some b0) by (by rewrite Hbeq).
  clear Hbeq.
  destruct a as [|a0 a'] eqn:Haeq; [by destruct s|]. rewrite <- Haeq in *.
  assert (Hane : a ≠ []) by (by rewrite Haeq). clear Haeq a0 a'.
  pose proof (gallop_right_spec b0 a 0 s) as Hg.
  destruct (gallop_right lt b0 a 0 s) as [s1 k].
  destruct Hg as (Hk & Hlow & Hhigh); [done|destruct a; [done|simpl; lia]|].
  cbn [snd] in Hk, Hlow, Hhigh.
  pose proof (take_drop (Z.to_nat k) a) as Hcut.
  generalize dependent (drop (Z.to_nat k) a). intros a2 Hhigh Hcut.
  generalize dependent (take (Z.to_nat k) a). intros front Hlow Hcut.
  assert (Hfront : below front b).
  { destruct b as [|? ?]; [done|]. injection Hb0 as ->.
    apply below_head; [done|]. by apply Forall_below_key. }
  subst a. apply ordered_app in Ha as (Hf1 & Ha2 & Hf2).
  destruct (unsnoc_cases a2) as [[-> ->]|(a' & a9 & Ha2eq & ->)].
  { simpl. by_order. }
  pose proof (gallop_left_spec a9 b (Z.of_nat (length b) - 1) s1) as Hg.
  destruct (gallop_left lt a9 b (Z.of_nat (length b) - 1) s1) as [s2 nb].
  destruct Hg as (Hnb & Hlow' & Hhigh'); [done|destruct b; [done|simpl; lia]|].
  cbn [snd] in Hnb, Hlow', Hhigh'.
  pose proof (take_drop (Z.to_nat nb) b) as Hcut'.
  assert (Hnb0 : 0 < nb → take (Z.to_nat nb) b ≠ [] ∧ head (take (Z.to_nat nb) b) = Some b0).
  { intros Hpos. destruct b as [|? ?]; [done|]. injection Hb0 as ->.
    destruct (Z.to_nat nb) eqn:Hz; [lia|]. done. }
  generalize dependent (drop (Z.to_nat nb) b). intros back Hhigh' Hcut'.
  generalize dependent (take (Z.to_nat nb) b). intros b1 Hlow' Hnb0 Hcut'.
  assert (Hback : below a2 back).
  { rewrite Ha2eq. apply below_last; [by rewrite <- Ha2eq|].
    by apply Forall_key_below. }
  subst b. apply ordered_app in Hb as (Hb1 & Hback1 & Hb2).
  apply below_app_r in Hfront as [Hfb1 Hfback].
  case_decide as Hz.
  { simpl. by_order. }
  destruct (Hnb0 ltac:(lia)) as [Hb1ne Hb1head].
  match goal with
  | |- context [if ?c then merge_lo lt ?x ?y ?mg ?s else _] =>
      pose proof (merge_either_perm lt c x y mg s) as Hperm;
      assert (Hord : ordered (if c then merge_lo lt x y mg s else merge_hi lt x y mg s).2.2);
      [|destruct (if c then merge_lo lt x y mg s else merge_hi lt x y mg s)
          as [s3 [mg3 merged]]]
  end.
  { assert (Hhd : ∀ x0 y0, head a2 = Some x0 → head b1 = Some y0 → ltb y0 x0 = true).
    { intros x0 y0 Hx0 Hy0. assert (y0 = b0) as -> by congruence.
      eapply Forall_forall in Hhigh; [done|]. by apply head_Some_elem_of. }
    assert (Htop : topped a2 b1).
    { intros z Hz9. rewrite Ha2eq, last_snoc in Hz9. injection Hz9 as <-.
      intros x y Hx Hy. apply list_elem_of_singleton in Hy as ->.
      by eapply Forall_forall in Hlow'. }
    case_decide.
    - apply merge_lo_ordered; try done. rewrite Ha2eq. by destruct a'.
    - apply merge_hi_ordered; try done. }
  cbn [snd] in Hperm, Hord. symmetry in Hperm. simpl.
  assert (below front merged)
    by (eapply below_perm_r; [exact Hperm|]; by_order).
  assert (below merged back)
    by (eapply below_perm_l; [exact Hperm|]; by_order).
  by_order.
Qed.

(** Every pending run is ordered. *)
Local Abbreviation runs_ordered p := (Forall (λ r : list A * Z, ordered r.1) p).

Lemma merge_while_power_ordered (fuel : nat) (power : Z) (p : pending) (mg : Z) (s : unit) :
  runs_ordered p → runs_ordered (merge_while_power lt fuel power p mg s).2.2.
Proof.
  revert p mg s. induction fuel as [|fuel IH]; intros p mg s Hp; [done|].
  cbn [merge_while_power]. destruct p as [|[z zp] [|[y yp] rest]]; [done..|].
  case_decide; [|done].
  apply Forall_cons in Hp as [Hz Hp]. apply Forall_cons in Hp as [Hy Hp].
  pose proof (merge_runs_ordered y z mg s Hy Hz) as Hm.
  destruct (merge_runs lt y z mg s) as [s1 [mg1 yz]]. apply IH. by constructor.
Qed.

Lemma found_new_run_ordered (listlen start n2 : Z) (p : pending) (mg : Z) (s : unit) :
  runs_ordered p → runs_ordered (found_new_run lt listlen start n2 p mg s).2.2.
Proof.
  intros Hp. unfold found_new_run. destruct p as [|[top tp] rest]; [done|].
  pose proof (merge_while_power_ordered (length ((top, tp) :: rest))
    (powerloop start (Z.of_nat (length top)) n2 listlen) ((top, tp) :: rest) mg s Hp) as Hm.
  destruct (merge_while_power _ _ _ _ _ _) as [s1 [mg1 p1]].
  destruct p1 as [|[? ?] ?]; [done|]. simpl in *.
  apply Forall_cons in Hm as [? ?]. by constructor.
Qed.

Lemma merge_force_collapse_ordered (fuel : nat) (p : pending) (mg : Z) (s : unit) :
  runs_ordered p → (length p ≤ S fuel)%nat →
  runs_ordered (merge_force_collapse lt fuel p mg s).2.2 ∧
  (length (merge_force_collapse lt fuel p mg s).2.2 ≤ 1)%nat.
Proof.
  revert p mg s. induction fuel as [|fuel IH]; intros p mg s Hp Hl.
  { simpl in *. split; [done|lia]. }
  cbn [merge_force_collapse]. destruct p as [|[z zp] [|[y yp] rest]].
  { simpl. split; [done|lia]. }
  { simpl. split; [done|lia]. }
  apply Forall_cons in Hp as [Hz Hp]. apply Forall_cons in Hp as [Hy Hp].
  simpl in *.
  destruct rest as [|[x xp] rest].
  - pose proof (merge_runs_ordered y z mg s Hy Hz) as Hm.
    destruct (merge_runs lt y z mg s) as [s1 [mg1 yz]].
    apply IH; [by constructor|simpl; lia].
  - apply Forall_cons in Hp as [Hx Hp]. simpl in *. case_decide.
    + pose proof (merge_runs_ordered x y mg s Hx Hy) as Hm.
      destruct (merge_runs lt x y mg s) as [s1 [mg1 xy]].
      apply IH; [by repeat constructor|simpl; lia].
    + pose proof (merge_runs_ordered y z mg s Hy Hz) as Hm.
      destruct (merge_runs lt y z mg s) as [s1 [mg1 yz]].
      apply IH; [by repeat constructor|simpl; lia].
Qed.

Lemma sort_loop_ordered (fuel : nat) (listlen : Z) (minrun : nat) (lo : Z)
    (remaining : list A) (p : pending) (mg : Z) (s : unit) :
  runs_ordered p → (length remaining ≤ fuel)%nat →
  runs_ordered (sort_loop lt fuel listlen minrun lo remaining p mg s).2.2.
Proof.
  revert lo remaining p mg s.
  induction fuel as [|fuel IH]; intros lo remaining p mg s Hp Hl.
  { destruct remaining; [|simpl in Hl; lia]. simpl. constructor; [apply ordered_nil|done]. }
  cbn [sort_loop].
  pose proof (count_run_spec remaining s) as Hc.
  destruct (count_run lt remaining s) as [s1 [n descending]]. cbn [snd] in Hc.
  destruct Hc as (Hn & Hn1 & Hrun).
  set (run := if descending then reverse (take n remaining) else take n remaining) in *.
  clearbody run.
  match goal with |- context [match ?e with (_, _) => _ end] =>
    assert (ordered e.2.2 ∧ (remaining ≠ [] → 1 ≤ e.2.1)%nat) as Hext end.
  { case_decide.
    - match goal with |- context [binarysort lt ?x ?y ?z] =>
        pose proof (binarysort_ordered y x z Hrun) as Hb;
        destruct (binarysort lt x y z) as [s2 run'] end.
      split; [done|]. cbn [fst snd]. intros Hne. specialize (Hn1 Hne).
      case_decide; [destruct remaining; [done|simpl; lia]|lia].
    - done. }
  destruct (if decide (n < minrun)%nat then _ else _) as [s2 [m run']].
  cbn [fst snd] in Hext. destruct Hext as [Hrun' Hm].
  match goal with |- context [found_new_run lt ?a ?b ?c ?d ?e ?f] =>
    pose proof (found_new_run_ordered a b c d e f Hp) as Hf;
    destruct (found_new_run lt a b c d e f) as [s3 [mg3 p3]] end.
  cbn [snd] in Hf.
  destruct (drop m remaining) as [|x rest] eqn:Hd.
  - simpl. by constructor.
  - apply IH; [by constructor|].
    rewrite <- Hd, length_drop.
    assert (remaining ≠ []) as Hne by (intros ->; by rewrite drop_nil in Hd).
    specialize (Hm Hne). lia.
Qed.

(** For a strict weak order, the model of [list.sort] sorts. *)
Lemma list_sort_ordered (l : list A) (s : unit) : ordered (list_sort lt l s).2.
Proof.
  unfold list_sort. case_decide as Hl.
  { destruct l as [|x [|? ?]]; [apply ordered_nil|apply ordered_singleton|simpl in Hl; lia]. }
  pose proof (sort_loop_ordered (length l) (Z.of_nat (length l))
    (merge_compute_minrun (length l)) 0 l [] MIN_GALLOP s) as Hs.
  destruct (sort_loop _ _ _ _ _ _ _ _ _) as [s1 [mg1 p1]].
  specialize (Hs ltac:(constructor) ltac:(lia)). cbn [snd] in Hs.
  pose proof (merge_force_collapse_ordered (length p1) p1 mg1 s1 Hs ltac:(lia)) as Hc.
  destruct (merge_force_collapse _ _ _ _ _) as [s2 [mg2 p2]].
  cbn [snd] in Hc. destruct Hc as [Hc Hlen]. simpl.
  destruct p2 as [|[r rp] [|? ?]]; [apply ordered_nil| |simpl in Hlen; lia].
  apply Forall_cons in Hc as [Hr _]. simpl. by rewrite app_nil_r.
Qed.

End Sorts.

Section Stateful.
Context {A S : Type}.
Variable lt : A → A → S → S * bool.
(** [I] holds of the states met on the way. *)
Variable I : S → Prop.

(** What every comparison keeps, the sort keeps. *)
Lemma list_sort_invariant (l : list A) (s : S) :
  (∀ x y s, I s → I (lt x y s).1) →
  I s → I (list_sort lt l s).1.
Proof.
  intros Hlt Hs.
  destruct (list_sort_agree lt lt (λ s1 s2, s1 = s2 ∧ I s1)) with (l := l) (s1 := s) (s2 := s)
    as [[_ HI] _]; [|done|done].
  intros x y s1 s2 [<- H1]. split; [|done]. split; [done|by apply Hlt].
Qed.

(** A comparison that answers by a strict weak order, whatever it
    does to its state, makes [list.sort] sort. *)
Lemma list_sort_sorts (ltb : A → A → bool) (l : list A) (s : S) :
  strict_weak_order ltb →
  (∀ x y s, I s → I (lt x y s).1 ∧ (lt x y s).2 = ltb x y) →
  I s →
  I (list_sort lt l s).1 ∧ ordered ltb (list_sort lt l s).2.
Proof.
  intros Hswo Hlt Hs.
  destruct (list_sort_agree lt (pure_lt ltb) (λ s1 _, I s1)) with (l := l) (s1 := s) (s2 := tt)
    as [HI Heq]; [|done|].
  { intros x y s1 s2 H1. destruct (Hlt x y s1 H1). by split. }
  split; [done|]. rewrite Heq. by apply list_sort_ordered.
Qed.

End Stateful.

End ListSortOrderFacts.

(** ** The content sort: order, progress and the cache *)

Module ContentSortFacts.
Import ListSort ListSortFacts ListSortOrderFacts VLMAnalyzer VLMAnalyzerFacts.

Section Ranked.
Variable enable_cache : bool.
Variable world : World.
Variable rank : string → Z.

(** The images can be read and the model answers by [rank]. *)
Local Abbreviation answers_by_rank :=
  (∀ t a b, ∃ u1 u2 content,
     image_to_data_uri world t a = Some u1 ∧
     image_to_data_uri world t b = Some u2 ∧
     chat_completion world t u1 u2 = Some content ∧
     parse_verdict (PyStr.strip content) = verdict_by rank a b).

(** Every stored verdict is the one [rank] gives. *)
Local Abbreviation cache_by_rank self :=
  (∀ a b r, comparison_cache self !! (a, b) = Some r → r = verdict_by rank a b).

Lemma verdict_by_flip (a b : string) : - verdict_by rank b a = verdict_by rank a b.
Proof. unfold verdict_by. repeat case_decide; lia. Qed.

Lemma verdict_by_lt (a b : string) :
  bool_decide (verdict_by rank a b < 0) = bool_decide (rank a < rank b).
Proof. unfold verdict_by. apply bool_decide_ext. repeat case_decide; lia. Qed.

Lemma compare_ranked (self : analyzer) (a b : string) :
  answers_by_rank → cache_by_rank self →
  (compare_images_order enable_cache world a b self).2 = verdict_by rank a b ∧
  cache_by_rank (compare_images_order enable_cache world a b self).1.
Proof.
  intros Hworld Hcache. unfold compare_images_order.
  destruct (cache_lookup enable_cache self a b) as [r|] eqn:Hl.
  - simpl. split; [|done]. unfold cache_lookup in Hl.
    destruct enable_cache; [|done].
    destruct (comparison_cache self !! (a, b)) as [r1|] eqn:H1.
    { injection Hl as <-. by apply Hcache. }
    destruct (comparison_cache self !! (b, a)) as [r2|] eqn:H2; [|done].
    injection Hl as <-. rewrite (Hcache _ _ _ H2). apply verdict_by_flip.
  - destruct (Hworld (tries self) a b) as (u1 & u2 & content & Hu1 & Hu2 & Hc & Hv).
    unfold ask_oracle. rewrite Hu1, Hu2, Hc, Hv. simpl. split; [done|].
    destruct enable_cache; simpl; [|done].
    intros x y r. rewrite lookup_insert. case_decide as Hk; [|by apply Hcache].
    injection Hk as <- <-. by intros [= <-].
Qed.

Lemma rank_order : strict_weak_order (λ a b, bool_decide (rank a < rank b)).
Proof.
  split; [|split].
  - intros x. apply bool_decide_eq_false. lia.
  - intros x y z. rewrite !bool_decide_eq_true. lia.
  - intros x y z. rewrite !bool_decide_eq_true. lia.
Qed.

Lemma ordered_by_rank (l : list string) :
  ordered (λ a b, bool_decide (rank a < rank b)) l →
  StronglySorted (λ a b, rank a ≤ rank b) l.
Proof.
  unfold ordered. induction 1 as [|x l Hl IH Hx]; constructor; [done|].
  eapply Forall_impl; [exact Hx|]. intros y Hy. unfold may_precede in Hy.
  apply bool_decide_eq_false in Hy. lia.
Qed.

(** **** X12.  When the images can be read, the model answers by a
    ranking of the pages and the cache holds nothing that contradicts
    it, [sort_images_by_content] returns the pages in that order: a
    rearrangement of its input in which ranks never go down; and the
    cache still agrees with the ranking. *)
Theorem sort_recovers_ranked_order (H : Type) (progress_callback : option (Z → Z → H → H))
    (image_paths : list string) (self : analyzer) (host : H) :
  answers_by_rank → cache_by_rank self →
  let result :=
    sort_images_by_content enable_cache world progress_callback image_paths self host in
  result.2 ≡ₚ image_paths ∧
  StronglySorted (λ a b, rank a ≤ rank b) result.2 ∧
  cache_by_rank (VLMAnalyzer.self result.1).
Proof.
  intros Hworld Hcache result. unfold result, sort_images_by_content.
  case_decide as Hlen.
  { simpl. split; [done|]. split; [|done].
    destruct image_paths as [|x [|? ?]]; [constructor|repeat constructor|simpl in Hlen; lia]. }
  split; [apply list_sort_perm|].
  match goal with |- context [list_sort ?lt ?l ?s] =>
    destruct (list_sort_sorts lt (λ ss, cache_by_rank (VLMAnalyzer.self ss))
                (λ a b, bool_decide (rank a < rank b)) l s rank_order)
      as [Hc Ho] end.
  - intros x y ss Hss. unfold key_lt, compare_func.
    destruct (compare_ranked (VLMAnalyzer.self ss) x y Hworld Hss) as [Hr Hc].
    destruct (compare_images_order enable_cache world x y (VLMAnalyzer.self ss))
      as [self1 r]. simpl in *. subst r. split; [done|apply verdict_by_lt].
  - done.
  - split; [by apply ordered_by_rank|done].
Qed.

End Ranked.

Lemma world_numbered_answers :
  ∀ (t : nat) (a b : string), ∃ u1 u2 content,
    image_to_data_uri world_numbered t a = Some u1 ∧
    image_to_data_uri world_numbered t b = Some u2 ∧
    chat_completion world_numbered t u1 u2 = Some content ∧
    parse_verdict (PyStr.strip content) = verdict_by page_number a b.
Proof.
  intros t a b. eexists _, _, _. split; [done|]. split; [done|]. split; [done|].
  change (page_number ("data:" +:+ a)) with (page_number a).
  assert (verdict_by page_number ("data:" +:+ a) ("data:" +:+ b)
          = verdict_by page_number a b) as -> by done.
  unfold verdict_by. repeat case_decide; by vm_compute.
Qed.

Lemma sort_recovers_ranked_order_witness :
  let result :=
    sort_images_by_content true world_numbered (H := unit) None
      ["p4.png"; "p2.png"; "p1.png"; "p3.png"] new_analyzer tt in
  result.2 ≡ₚ ["p4.png"; "p2.png"; "p1.png"; "p3.png"] ∧
  StronglySorted (λ a b, page_number a ≤ page_number b) result.2.
Proof.
  destruct (sort_recovers_ranked_order true world_numbered page_number unit None
              ["p4.png"; "p2.png"; "p1.png"; "p3.png"] new_analyzer tt)
    as (Hp & Hs & _).
  - apply world_numbered_answers.
  - intros a b r Hk. simpl in Hk. by rewrite lookup_empty in Hk.
  - by split.
Defined.

(** *** Progress *)

Section Progress.
Variable enable_cache : bool.
Variable world : World.

Lemma compare_tries (self : analyzer) (a b : string) :
  (tries (compare_images_order enable_cache world a b self).1 ≤ S (tries self))%nat.
Proof.
  unfold compare_images_order.
  destruct (cache_lookup enable_cache self a b); simpl; [lia|].
  destruct (ask_oracle_cases enable_cache world self a b) as [-> _]. lia.
Qed.

(** **** X13.  The progress callback is called once per comparison, with
    [current] counting 1, 2, 3, ... and always the same [total],
    [n (n - 1) / 2]; the model is tried at most once per comparison.
    Without a callback the host is left alone, and for fewer than two
    images nothing is compared at all. *)
Theorem sort_reports_progress (H : Type) (callback : Z → Z → H → H)
    (image_paths : list string) (self : analyzer) (host : H) :
  let n := Z.of_nat (length image_paths) in
  let total := (n * (n - 1)) `div` 2 in
  let ss :=
    (sort_images_by_content enable_cache world (Some callback) image_paths self host).1 in
  0 ≤ current_comparison ss ∧
  VLMAnalyzer.host ss
    = foldl (λ h current, callback current total h) host
        (seqZ 1 (current_comparison ss)) ∧
  (tries (VLMAnalyzer.self ss) ≤ tries self + Z.to_nat (current_comparison ss))%nat ∧
  ((length image_paths ≤ 1)%nat → ss = mkSession self 0 host) ∧
  VLMAnalyzer.host
    (sort_images_by_content enable_cache world None image_paths self host).1 = host.
Proof.
  intros n total ss.
  assert (Hnone : VLMAnalyzer.host
    (sort_images_by_content enable_cache world None image_paths self host).1 = host).
  { unfold sort_images_by_content. case_decide; [done|].
    apply (list_sort_invariant _ (λ ss, VLMAnalyzer.host ss = host)); [|done].
    intros x y s Hs. unfold key_lt, compare_func.
    by destruct (compare_images_order enable_cache world x y (VLMAnalyzer.self s)). }
  cut (0 ≤ current_comparison ss ∧
       VLMAnalyzer.host ss
         = foldl (λ h current, callback current total h) host
             (seqZ 1 (current_comparison ss)) ∧
       (tries (VLMAnalyzer.self ss) ≤ tries self + Z.to_nat (current_comparison ss))%nat ∧
       ((length image_paths ≤ 1)%nat → ss = mkSession self 0 host)).
  { intros (? & ? & ? & ?). done. }
  clear Hnone. unfold ss, sort_images_by_content. case_decide as Hlen.
  { simpl. repeat split; try done; lia. }
  fold n. fold total.
  match goal with |- context [list_sort ?lt ?l ?s] =>
    pose proof (list_sort_invariant lt
      (λ ss, ∃ m : nat,
         current_comparison ss = Z.of_nat m ∧
         VLMAnalyzer.host ss
           = foldl (λ h current, callback current total h) host (seqZ 1 (Z.of_nat m)) ∧
         (tries (VLMAnalyzer.self ss) ≤ tries self + m)%nat) l s) as Hinv end.
  destruct Hinv as (m & Hm & Hh & Ht).
  - intros x y s (m & Hm & Hh & Ht). unfold key_lt, compare_func.
    pose proof (compare_tries (VLMAnalyzer.self s) x y) as Hc.
    destruct (compare_images_order enable_cache world x y (VLMAnalyzer.self s))
      as [self1 r]. simpl in *.
    exists (S m). split; [lia|]. split; [|lia].
    rewrite seqZ_S, foldl_app. simpl. rewrite <- Hh, Hm.
    replace (Z.of_nat m + 1) with (1 + Z.of_nat m) by lia. done.
  - exists 0%nat. simpl. split; [done|]. split; [done|lia].
  - rewrite Hm. split; [lia|]. split; [done|]. split; [|lia].
    by rewrite Nat2Z.id.
Qed.

End Progress.

(** *** The cache over many comparisons *)

Section Growth.
Variable world : World.

(** What the analyzer has gained since [self0]: stored verdicts are
    kept, and the cache has grown by one entry per call of the model
    that came back with an answer. *)
Local Abbreviation grown_from self0 self :=
  (comparison_cache self0 ⊆ comparison_cache self ∧
   ∃ calls, oracle_log self = oracle_log self0 ++ calls ∧
            get_cache_size self
            = Nat.add (get_cache_size self0) (length (filter answered calls))).

Lemma grown_refl (self : analyzer) : grown_from self self.
Proof.
  split; [done|]. exists []. by rewrite app_nil_r, Nat.add_0_r.
Qed.

Lemma compare_grows (self0 self : analyzer) (a b : string) :
  grown_from self0 self →
  grown_from self0 (compare_images_order true world a b self).1.
Proof.
  intros [Hsub (calls & Hlog & Hsize)]. unfold compare_images_order.
  destruct (cache_lookup true self a b) as [r|] eqn:Hl; simpl.
  { split; [done|]. by exists calls. }
  assert (comparison_cache self !! (a, b) = None) as Hnone.
  { unfold cache_lookup in Hl. by destruct (comparison_cache self !! (a, b)). }
  destruct (ask_oracle_cases true world self a b) as [_ Hcases].
  destruct (ask_oracle true world self a b) as [self1 r]. simpl in *.
  destruct Hcases as [(Hl1 & Hc & _)|[(Hl1 & Hc & _)|(content & Hl1 & Hc & _)]].
  - split; [by rewrite Hc|]. exists calls. unfold get_cache_size in *.
    by rewrite Hl1, Hc.
  - split; [by rewrite Hc|]. exists (calls ++ [(a, b, None)]).
    unfold get_cache_size in *. rewrite Hl1, Hc, Hlog, <- app_assoc.
    split; [done|]. rewrite filter_app, length_app, Hsize.
    rewrite filter_cons, decide_False; [simpl; lia|].
    unfold answered. simpl. by intros [? ?].
  - split.
    + rewrite Hc. etrans; [exact Hsub|]. by apply insert_subseteq.
    + exists (calls ++ [(a, b, Some content)]).
      unfold get_cache_size in *. rewrite Hl1, Hc, Hlog, <- app_assoc.
      split; [done|]. rewrite map_size_insert_None by done.
      rewrite filter_app, length_app, Hsize.
      rewrite filter_cons, decide_True; [simpl; lia|].
      unfold answered. simpl. by eexists.
Qed.

Lemma compare_without_cache (self : analyzer) (a b : string) :
  comparison_cache (compare_images_order false world a b self).1 = comparison_cache self.
Proof.
  unfold compare_images_order. simpl.
  destruct (ask_oracle_cases false world self a b) as [_ Hcases].
  destruct (ask_oracle false world self a b) as [self1 r]. simpl in *.
  by destruct Hcases as [(_ & Hc & _)|[(_ & Hc & _)|(content & _ & Hc & _)]].
Qed.

(** **** X14.  Over a sort, and over any sequence of comparisons, the cache
    only grows: every stored verdict stays as it is, and the cache
    gains exactly one entry per call of the model that came back with
    an answer.  With the cache switched off it never changes, and
    [clear_cache] empties it. *)
Theorem cache_counts_answers (H : Type) (progress_callback : option (Z → Z → H → H))
    (image_paths : list string) (queries : list (string * string))
    (self : analyzer) (host : H) :
  grown_from self
    (VLMAnalyzer.self
       (sort_images_by_content true world progress_callback image_paths self host).1) ∧
  grown_from self (run_queries true world queries self).1 ∧
  comparison_cache
    (VLMAnalyzer.self
       (sort_images_by_content false world progress_callback image_paths self host).1)
  = comparison_cache self ∧
  comparison_cache (run_queries false world queries self).1 = comparison_cache self ∧
  get_cache_size (clear_cache self) = 0%nat.
Proof.
  split; [|split; [|split; [|split]]].
  - unfold sort_images_by_content. case_decide; [apply grown_refl|].
    apply (list_sort_invariant _ (λ ss, grown_from self (VLMAnalyzer.self ss)));
      [|apply grown_refl].
    intros x y ss Hss. unfold key_lt, compare_func.
    pose proof (compare_grows self (VLMAnalyzer.self ss) x y Hss) as Hg.
    by destruct (compare_images_order true world x y (VLMAnalyzer.self ss)).
  - assert (∀ self1, grown_from self self1 →
              grown_from self (run_queries true world queries self1).1) as Hq.
    { induction queries as [|[x y] qs IH]; intros self1 Hg; [done|]. simpl.
      pose proof (compare_grows self self1 x y Hg) as Hg1.
      destruct (compare_images_order true world x y self1) as [self2 r].
      specialize (IH self2 Hg1).
      by destruct (run_queries true world qs self2). }
    apply Hq, grown_refl.
  - unfold sort_images_by_content. case_decide; [done|].
    apply (list_sort_invariant _
      (λ ss, comparison_cache (VLMAnalyzer.self ss) = comparison_cache self)); [|done].
    intros x y ss Hss. unfold key_lt, compare_func.
    pose proof (compare_without_cache (VLMAnalyzer.self ss) x y) as Hg.
    destruct (compare_images_order false world x y (VLMAnalyzer.self ss)).
    simpl in *. congruence.
  - revert self. induction queries as [|[x y] qs IH]; intros self; [done|]. simpl.
    pose proof (compare_without_cache self x y) as Hg.
    destruct (compare_images_order false world x y self) as [self2 r].
    specialize (IH self2). destruct (run_queries false world qs self2).
    simpl in *. congruence.
  - done.
Qed.

End Growth.

(** *** Verdicts *)

Section Verdicts.
Variable enable_cache : bool.
Variable world : World.

(** The cache holds verdicts only, and no pair in both orders. *)
Local Abbreviation cache_sound self :=
  ((∀ key r, comparison_cache self !! key = Some r → is_verdict r) ∧
   (∀ a b, a ≠ b → comparison_cache self !! (a, b) = None ∨
                   comparison_cache self !! (b, a) = None)).

Lemma parse_verdict_is_verdict (content : string) : is_verdict (parse_verdict content).
Proof.
  unfold parse_verdict, is_verdict.
  destruct (PyStr.contains "-1" content); [by left|].
  destruct (PyStr.contains "1" content); simpl; auto.
Qed.

Lemma compare_sound (self : analyzer) (a b : string) :
  cache_sound self →
  is_verdict (compare_images_order enable_cache world a b self).2 ∧
  cache_sound (compare_images_order enable_cache world a b self).1.
Proof.
  intros [Hr Ho]. unfold compare_images_order.
  destruct (cache_lookup enable_cache self a b) as [r|] eqn:Hl.
  - simpl. split; [|done]. unfold cache_lookup in Hl.
    destruct enable_cache; [|done].
    destruct (comparison_cache self !! (a, b)) as [r1|] eqn:H1.
    { injection Hl as <-. by eapply Hr. }
    destruct (comparison_cache self !! (b, a)) as [r2|] eqn:H2; [|done].
    injection Hl as <-. destruct (Hr _ _ H2) as [->|[->| ->]]; unfold is_verdict; lia.
  - destruct (ask_oracle_cases enable_cache world self a b) as [_ Hcases].
    destruct (ask_oracle enable_cache world self a b) as [self1 r]. simpl in *.
    destruct Hcases as [(_ & Hc & -> & _)|[(_ & Hc & -> & _)|(content & _ & Hc & -> & _)]].
    + rewrite Hc. split; [by right; left|done].
    + rewrite Hc. split; [by right; left|done].
    + split; [apply parse_verdict_is_verdict|]. rewrite Hc.
      destruct enable_cache; [|done]. unfold cache_lookup in Hl.
      destruct (comparison_cache self !! (a, b)) as [r1|] eqn:H1; [done|].
      destruct (comparison_cache self !! (b, a)) as [r2|] eqn:H2; [done|].
      split.
      * intros key r. rewrite lookup_insert. case_decide; [|by apply Hr].
        intros [= <-]. apply parse_verdict_is_verdict.
      * intros x y Hxy. rewrite !lookup_insert.
        repeat case_decide; simplify_eq; auto.
Qed.

(** **** X15.  From a cache that holds verdicts only, and no pair in both
    orders, every comparison answers [-1], [0] or [1], whatever the
    model says, and the cache stays that way: over any sequence of
    comparisons and over a sort. *)
Theorem verdicts_stay_in_range (H : Type) (progress_callback : option (Z → Z → H → H))
    (image_paths : list string) (queries : list (string * string))
    (self : analyzer) (host : H) :
  cache_sound self →
  Forall is_verdict (run_queries enable_cache world queries self).2 ∧
  cache_sound (run_queries enable_cache world queries self).1 ∧
  cache_sound
    (VLMAnalyzer.self
       (sort_images_by_content enable_cache world progress_callback image_paths
          self host).1).
Proof.
  intros Hs. split; [|split].
  - revert self Hs. induction queries as [|[x y] qs IH]; intros self Hs; [constructor|].
    simpl. destruct (compare_sound self x y Hs) as [Hr Hs1].
    destruct (compare_images_order enable_cache world x y self) as [self1 r].
    specialize (IH self1 Hs1). destruct (run_queries enable_cache world qs self1).
    by constructor.
  - revert self Hs. induction queries as [|[x y] qs IH]; intros self Hs; [done|].
    simpl. destruct (compare_sound self x y Hs) as [Hr Hs1].
    destruct (compare_images_order enable_cache world x y self) as [self1 r].
    specialize (IH self1 Hs1). by destruct (run_queries enable_cache world qs self1).
  - unfold sort_images_by_content. case_decide; [done|].
    apply (list_sort_invariant _ (λ ss, cache_sound (VLMAnalyzer.self ss))); [|done].
    intros x y ss Hss. unfold key_lt, compare_func.
    destruct (compare_sound (VLMAnalyzer.self ss) x y Hss) as [_ Hs1].
    by destruct (compare_images_order enable_cache world x y (VLMAnalyzer.self ss)).
Qed.

End Verdicts.

Lemma verdicts_stay_in_range_witness :
  Forall is_verdict
    (run_queries true world_hiccup
       [("a.png", "b.png"); ("b.png", "a.png"); ("c.png", "a.png")] new_analyzer).2.
Proof.
  apply (verdicts_stay_in_range true world_hiccup unit None [] _ new_analyzer tt).
  split.
  - intros key r Hk. simpl in Hk. by rewrite lookup_empty in Hk.
  - intros a b _. left. apply lookup_empty.
Defined.

End ContentSortFacts.
